(** * mm.c: an explicit free-list allocator with first fit

    A shallow embedding of the allocator of [mm.c] (malloc lab): the heap is
    a byte-addressed memory, the two globals [heap_listp] and [free_p] live
    in a state record, and every C function is a Rocq function on states.
    Loops ([find_fit], the two walks of [mm_checkheap]) take fuel; a call of
    [exit] is the outcome [Exit]. *)

From Stdlib Require Import ZArith List Lia Bool String Btauto Permutation.
Import ListNotations.
Local Open Scope Z_scope.

(** ** Machine integers *)

Definition w32 (x : Z) : Z := x mod 2 ^ 32.   (* unsigned int *)
Definition w64 (x : Z) : Z := x mod 2 ^ 64.   (* size_t, pointers *)
(* conversion of an unsigned int to int *)
Definition to_int (x : Z) : Z := if w32 x <? 2 ^ 31 then w32 x else w32 x - 2 ^ 32.

(** ** Byte-addressed memory *)

Definition memory := Z -> Z.

Definition byte (m : memory) (a : Z) : Z := m a mod 256.

Definition upd (m : memory) (a v : Z) : memory :=
  fun x => if x =? a then v else m x.

(* little-endian 4-byte load and store: [*(unsigned int * )p] *)
Definition load4 (m : memory) (a : Z) : Z :=
  byte m a + 2 ^ 8 * byte m (a + 1) + 2 ^ 16 * byte m (a + 2)
  + 2 ^ 24 * byte m (a + 3).

Definition store4 (m : memory) (a v : Z) : memory :=
  upd (upd (upd (upd m a (v mod 256))
                (a + 1) (v / 2 ^ 8 mod 256))
           (a + 2) (v / 2 ^ 16 mod 256))
      (a + 3) (v / 2 ^ 24 mod 256).

(* 8-byte load and store: [*(void ** )p] *)
Definition load8 (m : memory) (a : Z) : Z :=
  load4 m a + 2 ^ 32 * load4 m (a + 4).

Definition store8 (m : memory) (a v : Z) : memory :=
  store4 (store4 m a (w32 v)) (a + 4) (v / 2 ^ 32).

(* memset(dst, c, n) and memcpy(dst, src, n) on non-overlapping ranges *)
Definition memset (m : memory) (dst c n : Z) : memory :=
  fun x => if (dst <=? x) && (x <? dst + n) then c mod 256 else m x.

Definition memcpy (m : memory) (dst src n : Z) : memory :=
  fun x => if (dst <=? x) && (x <? dst + n) then m (src + (x - dst)) else m x.

(** ** Constants and macros *)

Definition WSIZE : Z := 4.
Definition DSIZE : Z := 8.
Definition CHUNKSIZE : Z := Z.shiftl 1 12.
Definition MIN : Z := 24.
Definition NULL : Z := 0.
(* (void * )-1 *)
Definition PTR_ERR : Z := 2 ^ 64 - 1.

Definition MAX (x y : Z) : Z := if x >? y then x else y.
Definition PACK (size alloc : Z) : Z := Z.lor size alloc.
Definition GET (m : memory) (p : Z) : Z := load4 m p.
Definition PUT (m : memory) (p val : Z) : memory := store4 m p (w32 val).
Definition GET_SIZE (m : memory) (p : Z) : Z := Z.land (GET m p) (w32 (Z.lnot 7)).
Definition GET_ALLOC (m : memory) (p : Z) : Z := Z.land (GET m p) 1.
Definition HDRP (bp : Z) : Z := bp - WSIZE.
Definition FTRP (m : memory) (bp : Z) : Z := bp + GET_SIZE m (HDRP bp) - DSIZE.
Definition NEXT_BLKP (m : memory) (bp : Z) : Z := bp + GET_SIZE m (bp - WSIZE).
Definition PREV_BLKP (m : memory) (bp : Z) : Z := bp - GET_SIZE m (bp - DSIZE).
(* on a size_t: [~0x7] is converted to size_t *)
Definition ALIGN (size : Z) : Z := Z.land (w64 (size + (8 - 1))) (w64 (Z.lnot 7)).
Definition NEXT_FREE_BLOCK (m : memory) (bp : Z) : Z := load8 m (bp + DSIZE).
Definition PREV_FREE_BLOCK (m : memory) (bp : Z) : Z := load8 m bp.
Definition SET_NEXT_FREE_BLOCK (m : memory) (bp v : Z) : memory := store8 m (bp + DSIZE) v.
Definition SET_PREV_FREE_BLOCK (m : memory) (bp v : Z) : memory := store8 m bp v.

(** ** Allocator state *)

Record state := mkState {
  mem : memory;
  heap_listp : Z;      (* static char *heap_listp *)
  free_p : Z;          (* static char *free_p *)
  mem_start : Z;       (* memlib: first byte of the heap *)
  mem_brk : Z;         (* memlib: one past the last byte of the heap *)
  mem_max : Z;         (* memlib: one past the last byte the heap may grow to *)
  checks : nat         (* how many times mm_checkheap has been entered *)
}.

Definition set_mem (st : state) (m : memory) : state :=
  mkState m (heap_listp st) (free_p st) (mem_start st) (mem_brk st) (mem_max st) (checks st).
Definition set_heap_listp (st : state) (p : Z) : state :=
  mkState (mem st) p (free_p st) (mem_start st) (mem_brk st) (mem_max st) (checks st).
Definition set_free_p (st : state) (p : Z) : state :=
  mkState (mem st) (heap_listp st) p (mem_start st) (mem_brk st) (mem_max st) (checks st).
Definition set_brk (st : state) (b : Z) : state :=
  mkState (mem st) (heap_listp st) (free_p st) (mem_start st) b (mem_max st) (checks st).
Definition tick_checks (st : state) : state :=
  mkState (mem st) (heap_listp st) (free_p st) (mem_start st) (mem_brk st) (mem_max st)
          (S (checks st)).

Definition put (p val : Z) (st : state) : state := set_mem st (PUT (mem st) p val).

(** ** Outcomes *)

Inductive outcome (A : Type) : Type :=
| Ret (a : A)            (* the call returns *)
| Exit (msg : string)    (* the process was terminated by exit(0) *)
| OutOfFuel.             (* the loop budget of the model ran out *)
Arguments Ret {A} a.
Arguments Exit {A} msg.
Arguments OutOfFuel {A}.

Definition bind {A B} (c : outcome A) (k : A -> outcome B) : outcome B :=
  match c with
  | Ret a => k a
  | Exit msg => Exit msg
  | OutOfFuel => OutOfFuel
  end.

Notation "x <- c ;; k" := (bind c (fun x => k))
  (at level 61, c at next level, right associativity).
Notation "' pat <- c ;; k" := (bind c (fun x => match x with pat => k end))
  (at level 61, pat pattern, c at next level, right associativity).

(** ** memlib *)

(** Modelled from the spec: memlib.c is not part of the sources.  The spec
    describes one primitive that grows the heap by a number of bytes and
    returns the base address of the new region or a failure signal, and the
    heap as one contiguous, monotonically growing span.  The failure signal
    is the pointer (void * )-1 that mm_init and extend_heap test for. *)
Definition mem_sbrk (incr : Z) (st : state) : Z * state :=
  if (incr <? 0) || (mem_max st <? mem_brk st + incr) then (PTR_ERR, st)
  else (mem_brk st, set_brk st (mem_brk st + incr)).

(** Modelled from the spec: the first byte of the heap span. *)
Definition mem_heap_lo (st : state) : Z := mem_start st.

(** Modelled from the spec: the last byte of the heap span. *)
Definition mem_heap_hi (st : state) : Z := mem_brk st - 1.

(** Modelled from the spec: the length of the heap span. *)
Definition mem_heapsize (st : state) : Z := mem_brk st - mem_start st.

(** ** The free list *)

Definition insert_free_block (ptr : Z) (st : state) : state :=
  if free_p st =? NULL then
    let st1 := set_free_p st ptr in
    let st2 := set_mem st1 (SET_NEXT_FREE_BLOCK (mem st1) ptr NULL) in
    set_mem st2 (SET_PREV_FREE_BLOCK (mem st2) ptr NULL)
  else
    let st1 := set_mem st (SET_PREV_FREE_BLOCK (mem st) (free_p st) ptr) in
    let st2 := set_mem st1 (SET_PREV_FREE_BLOCK (mem st1) ptr NULL) in
    let st3 := set_mem st2 (SET_NEXT_FREE_BLOCK (mem st2) ptr (free_p st2)) in
    set_free_p st3 ptr.

Definition remove_block (bp : Z) (st : state) : state :=
  let m := mem st in
  if negb (PREV_FREE_BLOCK m bp =? NULL) && negb (NEXT_FREE_BLOCK m bp =? NULL) then
    let st1 := set_mem st (SET_NEXT_FREE_BLOCK m (PREV_FREE_BLOCK m bp) (NEXT_FREE_BLOCK m bp)) in
    let m1 := mem st1 in
    set_mem st1 (SET_PREV_FREE_BLOCK m1 (NEXT_FREE_BLOCK m1 bp) (PREV_FREE_BLOCK m1 bp))
  else if negb (PREV_FREE_BLOCK m bp =? NULL) && (NEXT_FREE_BLOCK m bp =? NULL) then
    set_mem st (SET_NEXT_FREE_BLOCK m (PREV_FREE_BLOCK m bp) (NEXT_FREE_BLOCK m bp))
  else if (PREV_FREE_BLOCK m bp =? NULL) && (NEXT_FREE_BLOCK m bp =? NULL) then
    set_free_p st (NEXT_FREE_BLOCK m bp)
  else if (PREV_FREE_BLOCK m bp =? NULL) && negb (NEXT_FREE_BLOCK m bp =? NULL) then
    let st1 := set_mem st (SET_PREV_FREE_BLOCK m (NEXT_FREE_BLOCK m bp) NULL) in
    set_free_p st1 (NEXT_FREE_BLOCK (mem st1) bp)
  else st.

(** ** Coalescing *)

Definition coalesce (bp : Z) (st : state) : Z * state :=
  if negb (free_p st =? NULL) then
    let m := mem st in
    let prev_alloc := GET_ALLOC m (FTRP m (PREV_BLKP m bp)) in
    let next_alloc := GET_ALLOC m (HDRP (NEXT_BLKP m bp)) in
    let size := GET_SIZE m (HDRP bp) in
    if (prev_alloc =? 0) && negb (next_alloc =? 0) then
      let size := w64 (size + GET_SIZE m (HDRP (PREV_BLKP m bp))) in
      let bp := PREV_BLKP m bp in
      let st1 := remove_block bp st in
      let st2 := put (HDRP bp) (PACK size 0) st1 in
      let st3 := put (FTRP (mem st2) bp) (PACK size 0) st2 in
      (bp, st3)
    else if negb (prev_alloc =? 0) && (next_alloc =? 0) then
      let size := w64 (size + GET_SIZE m (HDRP (NEXT_BLKP m bp))) in
      let st1 := remove_block (NEXT_BLKP m bp) st in
      let st2 := put (HDRP bp) (PACK size 0) st1 in
      let st3 := put (FTRP (mem st2) bp) (PACK size 0) st2 in
      (bp, st3)
    else if (prev_alloc =? 0) && (next_alloc =? 0) then
      (* the two sizes are unsigned ints: their sum is taken on 32 bits *)
      let size := w64 (size + w32 (GET_SIZE m (HDRP (PREV_BLKP m bp))
                                   + GET_SIZE m (HDRP (NEXT_BLKP m bp)))) in
      let st1 := remove_block (PREV_BLKP m bp) st in
      let st2 := remove_block (NEXT_BLKP (mem st1) bp) st1 in
      let bp := PREV_BLKP (mem st2) bp in
      let st3 := put (HDRP bp) (PACK size 0) st2 in
      let st4 := put (FTRP (mem st3) bp) (PACK size 0) st3 in
      (bp, st4)
    else (bp, st)
  else (bp, st).

(** ** Placement and first fit *)

Definition place (bp asize : Z) (st : state) : state :=
  let csize := GET_SIZE (mem st) (HDRP bp) in
  if w64 (csize - asize) >=? MIN then
    let st1 := put (HDRP bp) (PACK asize 1) st in
    let st2 := put (FTRP (mem st1) bp) (PACK asize 1) st1 in
    let st3 := remove_block bp st2 in
    let bp := NEXT_BLKP (mem st3) bp in
    let st4 := put (HDRP bp) (PACK (w64 (csize - asize)) 0) st3 in
    let st5 := put (FTRP (mem st4) bp) (PACK (w64 (csize - asize)) 0) st4 in
    let '(bp, st6) := coalesce bp st5 in
    insert_free_block bp st6
  else
    let st1 := put (HDRP bp) (PACK csize 1) st in
    let st2 := put (FTRP (mem st1) bp) (PACK csize 1) st1 in
    remove_block bp st2.

(* the for loop of find_fit, entered with the current [bp] *)
Fixpoint find_fit_loop (fuel : nat) (m : memory) (asize bp : Z) : outcome Z :=
  match fuel with
  | O => OutOfFuel
  | S fuel' =>
      if bp =? NULL then Ret NULL
      else
        let block_size := GET_SIZE m (HDRP bp) in
        if asize <=? block_size then Ret bp
        else find_fit_loop fuel' m asize (NEXT_FREE_BLOCK m bp)
  end.

Definition find_fit (fuel : nat) (asize : Z) (st : state) : outcome Z :=
  find_fit_loop fuel (mem st) asize (free_p st).

(** ** The heap checker *)

(* ALIGN on an int *)
Definition ALIGN_int (size : Z) : Z := to_int (Z.land (to_int (size + (8 - 1))) (Z.lnot 7)).

(* step 4: the walk over the free list *)
Fixpoint check_free_loop (fuel : nat) (st : state) (bp : Z) : outcome unit :=
  match fuel with
  | O => OutOfFuel
  | S fuel' =>
      if bp =? NULL then Ret tt
      else
        let m := mem st in
        if negb (NEXT_FREE_BLOCK m bp =? NULL)
           && negb (bp =? PREV_FREE_BLOCK m (NEXT_FREE_BLOCK m bp)) then
          Exit "Corrupt prev and next pointers in free list"
        else if (bp <? mem_heap_lo st) || (bp >? mem_heap_hi st) then
          Exit "A free block is out of bounds"
        else check_free_loop fuel' st (NEXT_FREE_BLOCK m bp)
  end.

(* step 5: the walk over all blocks *)
Fixpoint check_block_loop (fuel : nat) (st : state) (bp : Z) : outcome unit :=
  match fuel with
  | O => OutOfFuel
  | S fuel' =>
      if bp - (WSIZE - 1) >? mem_heap_hi st then
        let m := mem st in
        if negb (GET_SIZE m (HDRP bp) =? GET_SIZE m (FTRP m bp)) then
          Exit "Header and footer size for a block do not match"
        else if negb (GET_ALLOC m (HDRP bp) =? GET_ALLOC m (FTRP m bp)) then
          Exit "Allocation for header/footer for a block do not match"
        else
          let size := to_int (GET_SIZE m (HDRP bp)) in
          if negb (size =? ALIGN_int size) then
            Exit "Size is not aligned for a block"
          else check_block_loop fuel' st (NEXT_BLKP m bp)
      else Ret tt
  end.

Definition mm_checkheap (fuel : nat) (lineno : Z) (st : state) : outcome state :=
  let st := tick_checks st in
  let m := mem st in
  if negb (mem_heap_lo st + DSIZE =? heap_listp st) then
    Exit "Heap start is NOT correct"
  else
    let prologue_header_size := to_int (GET_SIZE m (HDRP (heap_listp st))) in
    let prologue_footer_size := to_int (GET_SIZE m (FTRP m (heap_listp st))) in
    let prologue_header_alloc := to_int (GET_ALLOC m (HDRP (heap_listp st))) in
    let prologue_footer_alloc := to_int (GET_ALLOC m (FTRP m (heap_listp st))) in
    if negb (prologue_header_size =? MIN) && negb (prologue_footer_size =? MIN) then
      Exit "Prologue size is NOT correct"
    else if negb (prologue_header_alloc =? 1) && negb (prologue_footer_alloc =? 1) then
      Exit "Prologue alloc NOT set correctly"
    else
      let test := mem_heapsize st in
      let epilogue_block := mem_heap_lo st + w64 (test - WSIZE) in
      let epilogue_size := to_int (GET_SIZE m epilogue_block) in
      let epilogue_alloc := to_int (GET_ALLOC m epilogue_block) in
      if negb (epilogue_size =? 0) then Exit "Epilogue size is NOT correct"
      else if negb (epilogue_alloc =? 1) then Exit "Epilogue alloc is NOT set correctly"
      else if negb (free_p st =? NULL) && negb (PREV_FREE_BLOCK m (free_p st) =? NULL) then
        Exit "Start of free block list is corrupt"
      else
        _ <- check_free_loop fuel st (free_p st) ;;
        _ <- check_block_loop fuel st (mem_heap_lo st + WSIZE) ;;
        Ret st.

(** ** Heap extension and initialisation *)

Definition extend_heap (fuel : nat) (words : Z) (st : state) : outcome (Z * state) :=
  let size := if negb (words mod 2 =? 0) then w64 ((words + 1) * WSIZE)
              else w64 (words * WSIZE) in
  let size := ALIGN size in
  let '(bp, st1) := mem_sbrk size st in
  if bp =? PTR_ERR then Ret (NULL, st1)
  else
    let st2 := put (HDRP bp) (PACK size 0) st1 in
    let st3 := put (FTRP (mem st2) bp) (PACK size 0) st2 in
    let st4 := put (HDRP (NEXT_BLKP (mem st3) bp)) (PACK 0 1) st3 in
    let '(bp, st5) := coalesce bp st4 in
    let st6 := insert_free_block bp st5 in
    st7 <- mm_checkheap fuel 0 st6 ;;
    Ret (bp, st7).

(* the int result is 0 or -1 *)
Definition mm_init (fuel : nat) (st : state) : outcome (Z * state) :=
  let '(p, st0) := mem_sbrk (8 * WSIZE) st in
  let st1 := set_heap_listp st0 p in
  if heap_listp st1 =? PTR_ERR then Ret (-1, st1)
  else
    let st2 := put (heap_listp st1) 0 st1 in
    let st3 := put (heap_listp st2 + 1 * WSIZE) (PACK MIN 1) st2 in
    let st4 := put (heap_listp st3 + 2 * WSIZE) 0 st3 in
    let st5 := put (heap_listp st4 + 4 * WSIZE) 0 st4 in
    let st6 := put (heap_listp st5 + MIN) (PACK MIN 1) st5 in
    let st7 := put (heap_listp st6 + MIN + WSIZE) (PACK 0 1) st6 in
    let st8 := set_heap_listp st7 (heap_listp st7 + 2 * WSIZE) in
    let st9 := set_free_p st8 NULL in
    '(bp, st10) <- extend_heap fuel (CHUNKSIZE / WSIZE) st9 ;;
    if bp =? NULL then Ret (-1, st10) else Ret (0, st10).

(** ** The public operations *)

(* the adjusted block size computed at the top of malloc and realloc *)
Definition adjusted_size (size : Z) : Z :=
  let asize := if size <=? DSIZE then 2 * DSIZE
               else w64 (DSIZE * (w64 (size + DSIZE + (DSIZE - 1)) / DSIZE)) in
  MAX asize MIN.

(* [if (heap_listp == 0) mm_init();] the result of mm_init is dropped *)
Definition lazy_init (fuel : nat) (st : state) : outcome state :=
  if heap_listp st =? 0 then
    '(_, st1) <- mm_init fuel st ;; Ret st1
  else Ret st.

Definition malloc (fuel : nat) (size : Z) (st : state) : outcome (Z * state) :=
  st <- lazy_init fuel st ;;
  if size =? 0 then Ret (NULL, st)
  else
    let asize := adjusted_size size in
    bp <- find_fit fuel asize st ;;
    if negb (bp =? NULL) then Ret (bp, place bp asize st)
    else
      let extendsize := MAX asize CHUNKSIZE in
      '(bp, st1) <- extend_heap fuel (extendsize / WSIZE) st ;;
      if bp =? NULL then Ret (NULL, st1)
      else Ret (bp, place bp asize st1).

Definition free (fuel : nat) (bp : Z) (st : state) : outcome state :=
  if bp =? 0 then Ret st
  else
    let size := GET_SIZE (mem st) (HDRP bp) in
    st <- lazy_init fuel st ;;
    let st1 := put (HDRP bp) (PACK size 0) st in
    let st2 := put (FTRP (mem st1) bp) (PACK size 0) st1 in
    let '(bp, st3) := coalesce bp st2 in
    Ret (insert_free_block bp st3).

Definition realloc (fuel : nat) (ptr size : Z) (st : state) : outcome (Z * state) :=
  let asize := adjusted_size size in
  if size =? 0 then
    st1 <- free fuel ptr st ;; Ret (0, st1)
  else if ptr =? NULL then malloc fuel size st
  else
    let oldsize := GET_SIZE (mem st) (HDRP ptr) in
    if oldsize =? asize then Ret (ptr, st)
    else
      '(newptr, st1) <- malloc fuel size st ;;
      if newptr =? 0 then Ret (0, st1)
      else
        let oldsize := if size <? oldsize then size else oldsize in
        let st2 := set_mem st1 (memcpy (mem st1) newptr ptr oldsize) in
        st3 <- free fuel ptr st2 ;;
        Ret (newptr, st3).

Definition calloc (fuel : nat) (nmemb size : Z) (st : state) : outcome (Z * state) :=
  let bytes := w64 (nmemb * size) in
  '(newptr, st1) <- malloc fuel bytes st ;;
  let st2 := set_mem st1 (memset (mem st1) newptr 0 bytes) in
  Ret (newptr, st2).

(** ** Specification vocabulary *)

(** The word PACK(size, alloc) of a block. *)
Definition tag (sz : Z) (al : bool) : Z := sz + (if al then 1 else 0).

(** Only [mem] and [free_p] are written by the list and tag helpers: the
    other fields of two states agree. *)
Definition same_meta (st st' : state) : Prop :=
  heap_listp st' = heap_listp st /\ mem_start st' = mem_start st /\
  mem_brk st' = mem_brk st /\ mem_max st' = mem_max st /\ checks st' = checks st.

(** The memlib heap between two states: its start and its limit are the
    same and its end has not moved down. *)
Definition heap_grows (st st' : state) : Prop :=
  mem_start st' = mem_start st /\ mem_max st' = mem_max st /\ mem_brk st <= mem_brk st'.

(* the state in which an operation returned, [d] when it did not return *)
Definition state_of {A} (o : outcome (A * state)) (d : state) : state :=
  match o with Ret (_, s) => s | _ => d end.

(* the value an operation returned *)
Definition value_of {A} (o : outcome (A * state)) : option A :=
  match o with Ret (a, _) => Some a | _ => None end.

(** ** The adjusted size in the words of the specification *)

(** The request plus the 8 bytes of header and footer, rounded up to a
    multiple of 8, and at least the minimum block size. *)
Definition round_up8 (x : Z) : Z := 8 * ((x + 7) / 8).
Definition adjusted_size_spec (n : Z) : Z := Z.max (round_up8 (n + 8)) 24.

(** ** The heap as a sequence of blocks *)

(** A block of the physical chain: its total size and whether it is
    allocated. *)
Abbreviation blk := (Z * bool)%type (only parsing).

Fixpoint total (bs : list blk) : Z :=
  match bs with
  | [] => 0
  | (sz, _) :: bs' => sz + total bs'
  end.

(** [chain m a bs]: in memory [m] the blocks [bs] lie one after the other, the
    payload of the first at [a]; each has a size that is a multiple of 8 and
    at least MIN, and a header and a footer that both hold its tag. *)
Fixpoint chain (m : memory) (a : Z) (bs : list blk) : Prop :=
  match bs with
  | [] => True
  | (sz, al) :: bs' =>
      (MIN <= sz /\ sz mod 8 = 0) /\
      GET m (HDRP a) = tag sz al /\ GET m (a + sz - DSIZE) = tag sz al /\
      chain m (a + sz) bs'
  end.

Definition sizes_ok (bs : list blk) : Prop :=
  Forall (fun b : blk => MIN <= fst b /\ fst b mod 8 = 0) bs.

(** The payload addresses of the free blocks of a chain, in address order. *)
Fixpoint frees (a : Z) (bs : list blk) : list Z :=
  match bs with
  | [] => []
  | (sz, al) :: bs' => if al then frees (a + sz) bs' else a :: frees (a + sz) bs'
  end.

(** The bytes of the headers and footers of a chain. *)
Fixpoint in_tags (a : Z) (bs : list blk) (y : Z) : Prop :=
  match bs with
  | [] => False
  | (sz, _) :: bs' =>
      a - 4 <= y < a \/ a + sz - 8 <= y < a + sz - 4 \/ in_tags (a + sz) bs' y
  end.

(** [block_at a bs p sz al]: the chain that starts at [a] has a block of size
    [sz] and allocation state [al] whose payload is at [p], and that block is
    not the first one (the prologue). *)
Definition block_at (a : Z) (bs : list blk) (p sz : Z) (al : bool) : Prop :=
  exists bs1 bs2, bs = bs1 ++ (sz, al) :: bs2 /\ p = a + total bs1 /\ bs1 <> [].

(** No two neighbours of the chain are both free. *)
Fixpoint no_adjacent_free (bs : list blk) : bool :=
  match bs with
  | [] => true
  | (_, al1) :: bs' =>
      match bs' with
      | [] => true
      | (_, al2) :: _ => (al1 || al2) && no_adjacent_free bs'
      end
  end.

(* the allocation state and the size of the first and of the last block; an
   empty chain counts as allocated, as the prologue and the epilogue are *)
Definition head_alloc (bs : list blk) : bool :=
  match bs with [] => true | (_, al) :: _ => al end.

Definition head_size (bs : list blk) : Z :=
  match bs with [] => 0 | (sz, _) :: _ => sz end.

Definition last_alloc (bs : list blk) : bool := snd (last bs (0, true)).

(** The word after a block: the header of the next block, or the epilogue. *)
Definition next_tag (bs : list blk) : Z := tag (head_size bs) (head_alloc bs).

(** ** The free list as a sequence of nodes *)

(** [dlseg m prev p l e]: following the next links from [p] visits the nodes
    [l], none of them NULL, and arrives at [e]; the prev link of each node is
    the node before it, [prev] for the first. *)
Fixpoint dlseg (m : memory) (prev p : Z) (l : list Z) (e : Z) : Prop :=
  match l with
  | [] => p = e
  | x :: l' =>
      p = x /\ x <> NULL /\ PREV_FREE_BLOCK m x = prev /\
      dlseg m x (NEXT_FREE_BLOCK m x) l' e
  end.

(** The bytes of the two links of the nodes of [l]. *)
Definition in_links (l : list Z) (y : Z) : Prop :=
  exists x, In x l /\ x <= y < x + 16.

(** The nodes of a free list are distinct, representable, non-null pointers
    whose link fields do not overlap. *)
Definition nodes_ok (l : list Z) : Prop :=
  NoDup l /\ (forall x, In x l -> 0 < x < 2 ^ 64) /\
  (forall x y, In x l -> In y l -> x = y \/ x + 16 <= y \/ y + 16 <= x).

(** ** The heap invariant *)

(** [heap_rep st bs fl]: the heap of [st] is the chain [bs], which starts with
    the prologue and is followed by the epilogue at the end of the heap, and
    the free list of [st] is the sequence [fl] of free blocks of [bs].  The
    heap may grow to less than 4 GiB, so that every size fits the 32 bits of
    a tag, and lies below 2^64. *)
Record heap_rep (st : state) (bs : list blk) (fl : list Z) : Prop := {
  rep_start : 0 <= mem_start st;
  rep_listp : heap_listp st = mem_start st + DSIZE;
  rep_prologue : hd_error bs = Some (MIN, true);
  rep_chain : chain (mem st) (mem_start st + DSIZE) bs;
  rep_brk : mem_start st + DSIZE + total bs = mem_brk st;
  rep_epilogue : GET (mem st) (HDRP (mem_brk st)) = tag 0 true;
  rep_max : mem_brk st <= mem_max st;
  rep_small : mem_max st - mem_start st < 2 ^ 32;
  rep_addr : mem_max st < 2 ^ 64;
  rep_list : dlseg (mem st) NULL (free_p st) fl NULL;
  rep_nodup : NoDup fl;
  rep_sub : incl fl (frees (mem_start st + DSIZE) bs)
}.

(** A well-formed heap: every free block is on the free list and no two
    neighbours are free. *)
Definition heap_wf (st : state) (bs : list blk) (fl : list Z) : Prop :=
  heap_rep st bs fl /\
  incl (frees (mem_start st + DSIZE) bs) fl /\
  no_adjacent_free bs = true.

(** ** Concrete heaps *)

(** A heap that memlib has just reset: memory content [m], the heap empty at
    [lo], room up to [max], no global set. *)
Definition fresh_state (m : memory) (lo max : Z) : state :=
  mkState m 0 0 lo lo max 0.

Definition st0 : state := fresh_state (fun _ => 0) 65536 (65536 + 2 ^ 20).

(* st0 after mm_init: one free block of 4096 bytes at 65568 *)
Definition st_init : state := state_of (mm_init 10 st0) st0.

(* st0 after malloc(16): one allocated block of 24 bytes at 65568 *)
Definition st_one : state := state_of (malloc 10 16 st0) st0.

(* the same heap after the footer of that block was overwritten *)
Definition st_bad : state := put 65584 (PACK 32 0) st_one.

(* st_one after a second malloc(16) (at 65592) and free of the first block:
   the free list is the 24-byte block at 65568, then the rest at 65616 *)
Definition st_two : state :=
  match malloc 10 16 st_one with
  | Ret (_, s) => match free 10 65568 s with Ret s' => s' | _ => st0 end
  | _ => st0
  end.

(* a heap that cannot grow beyond its initial extension, over a memory of
   non-zero bytes *)
Definition st_full : state := fresh_state (fun _ => 255) 65536 (65536 + 32 + 4096).

(* st_full after malloc(16): the block at 65568 is allocated, 4072 bytes are
   free, and the heap cannot grow *)
Definition st_full_one : state := state_of (malloc 10 16 st_full) st_full.

(* memlib with room for 100 bytes only *)
Definition st_tiny : state := fresh_state (fun _ => 0) 65536 (65536 + 100).

(* st0 after three malloc(16): allocated blocks at 65568, 65592 and 65616 *)
Definition st_three : state :=
  state_of (malloc 10 16 (state_of (malloc 10 16 st_one) st0)) st0.

(* st_three after free(65568) *)
Definition st_three_a : state :=
  match free 10 65568 st_three with Ret s => s | _ => st0 end.

(* st_three after free(65568) and free(65616) *)
Definition st_three_ac : state :=
  match free 10 65616 st_three_a with Ret s => s | _ => st0 end.

(* the first statements of free: the block at [bp] is tagged free; it is not
   yet coalesced and not on the free list *)
Definition mark_free (bp : Z) (st : state) : state :=
  let size := GET_SIZE (mem st) (HDRP bp) in
  let st1 := put (HDRP bp) (PACK size 0) st in
  put (FTRP (mem st1) bp) (PACK size 0) st1.

(** * Memory lemmas *)

Ltac zeqb :=
  repeat match goal with
         | |- context [?x =? ?y] => destruct (Z.eqb_spec x y); try lia
         end.

Lemma bytes_recompose v :
  v mod 256 mod 256 + 2 ^ 8 * (v / 2 ^ 8 mod 256 mod 256)
  + 2 ^ 16 * (v / 2 ^ 16 mod 256 mod 256)
  + 2 ^ 24 * (v / 2 ^ 24 mod 256 mod 256) = v mod 2 ^ 32.
Proof.
  rewrite !Zmod_mod.
  change (2 ^ 8) with 256. change (2 ^ 16) with (256 * 256).
  change (2 ^ 24) with (256 * 256 * 256). change (2 ^ 32) with (256 * (256 * (256 * 256))).
  rewrite <- !Z.div_div by lia.
  rewrite !Z.rem_mul_r by lia.
  lia.
Qed.

Lemma load4_range m a : 0 <= load4 m a < 2 ^ 32.
Proof.
  unfold load4, byte.
  pose proof (Z.mod_pos_bound (m a) 256).
  pose proof (Z.mod_pos_bound (m (a + 1)) 256).
  pose proof (Z.mod_pos_bound (m (a + 2)) 256).
  pose proof (Z.mod_pos_bound (m (a + 3)) 256).
  change (2 ^ 8) with 256. change (2 ^ 16) with 65536.
  change (2 ^ 24) with 16777216. change (2 ^ 32) with 4294967296. lia.
Qed.

Lemma load8_range m a : 0 <= load8 m a < 2 ^ 64.
Proof.
  unfold load8. pose proof (load4_range m a). pose proof (load4_range m (a + 4)).
  change (2 ^ 64) with (2 ^ 32 * 2 ^ 32). nia.
Qed.

Lemma store4_out m a v x : x < a \/ a + 4 <= x -> store4 m a v x = m x.
Proof. intros H. unfold store4, upd. zeqb; reflexivity. Qed.

Lemma store8_out m a v x : x < a \/ a + 8 <= x -> store8 m a v x = m x.
Proof.
  intros H. unfold store8. rewrite store4_out by lia. apply store4_out. lia.
Qed.

Lemma load4_ext m m' a :
  (forall x, a <= x < a + 4 -> m' x = m x) -> load4 m' a = load4 m a.
Proof.
  intros H. unfold load4, byte. rewrite !H by lia. reflexivity.
Qed.

Lemma load8_ext m m' a :
  (forall x, a <= x < a + 8 -> m' x = m x) -> load8 m' a = load8 m a.
Proof.
  intros H. unfold load8.
  rewrite (load4_ext m m' a), (load4_ext m m' (a + 4)); trivial; intros; apply H; lia.
Qed.

Lemma load4_store4_same m a v : load4 (store4 m a v) a = w32 v.
Proof.
  unfold load4, byte, store4, upd. zeqb; apply bytes_recompose.
Qed.

Lemma load4_store4_other m a v b :
  b + 4 <= a \/ a + 4 <= b -> load4 (store4 m a v) b = load4 m b.
Proof. intros H. apply load4_ext. intros. apply store4_out. lia. Qed.

Lemma load4_store8_other m a v b :
  b + 4 <= a \/ a + 8 <= b -> load4 (store8 m a v) b = load4 m b.
Proof. intros H. apply load4_ext. intros. apply store8_out. lia. Qed.

Lemma load8_store8_other m a v b :
  b + 8 <= a \/ a + 8 <= b -> load8 (store8 m a v) b = load8 m b.
Proof. intros H. apply load8_ext. intros. apply store8_out. lia. Qed.

Lemma load8_store4_other m a v b :
  b + 8 <= a \/ a + 4 <= b -> load8 (store4 m a v) b = load8 m b.
Proof. intros H. apply load8_ext. intros. apply store4_out. lia. Qed.

Lemma load8_store8_same m a v : 0 <= v < 2 ^ 64 -> load8 (store8 m a v) a = v.
Proof.
  intros H. unfold load8, store8.
  rewrite load4_store4_other by lia. rewrite !load4_store4_same.
  unfold w32. rewrite Zmod_mod.
  rewrite (Z.mod_small (v / 2 ^ 32)).
  - pose proof (Z.div_mod v (2 ^ 32)). lia.
  - split. { apply Z.div_pos; lia. }
    apply Z.div_lt_upper_bound; [lia|]. change (2 ^ 32 * 2 ^ 32) with (2 ^ 64). lia.
Qed.

(** * Tags *)

Lemma w32_small x : 0 <= x < 2 ^ 32 -> w32 x = x.
Proof. intros. unfold w32. apply Z.mod_small. assumption. Qed.

Lemma w64_small x : 0 <= x < 2 ^ 64 -> w64 x = x.
Proof. intros. unfold w64. apply Z.mod_small. assumption. Qed.

Lemma land_mask k x :
  3 <= k -> 0 <= x < 2 ^ k -> Z.land x (Z.lnot 7 mod 2 ^ k) = x - x mod 8.
Proof.
  intros Hk H.
  assert (E : Z.land x (Z.lnot 7 mod 2 ^ k) = Z.ldiff x 7).
  { apply Z.bits_inj'. intros n Hn.
    rewrite Z.land_spec, Z.ldiff_spec.
    destruct (Z.ltb_spec n k).
    - rewrite Z.mod_pow2_bits_low by lia. rewrite Z.lnot_spec by lia. reflexivity.
    - rewrite Z.mod_pow2_bits_high by lia.
      replace (Z.testbit x n) with false; [reflexivity|].
      symmetry. apply Z.bits_above_log2; [lia|].
      destruct (Z.eq_dec x 0) as [->|]; [simpl; lia|].
      apply Z.lt_le_trans with k; [|lia]. apply Z.log2_lt_pow2; lia. }
  rewrite E.
  assert (M : x mod 8 = Z.land x 7).
  { change 8 with (2 ^ 3). rewrite <- Z.land_ones by lia. reflexivity. }
  rewrite M.
  assert (L : Z.ldiff x 7 + Z.land x 7 = x).
  { rewrite <- (Z.lor_ldiff_and x 7) at 3. rewrite Z.lor_comm.
    symmetry. rewrite Z.add_comm.
    rewrite <- Z.lxor_lor, <- Z.add_nocarry_lxor.
    - reflexivity.
    - apply Z.bits_inj'. intros n Hn. rewrite !Z.land_spec, Z.ldiff_spec, Z.bits_0.
      destruct (Z.testbit x n), (Z.testbit 7 n); reflexivity.
    - apply Z.bits_inj'. intros n Hn. rewrite !Z.land_spec, Z.ldiff_spec, Z.bits_0.
      destruct (Z.testbit x n), (Z.testbit 7 n); reflexivity. }
  lia.
Qed.

Lemma land_lnot7 x : 0 <= x < 2 ^ 32 -> Z.land x (w32 (Z.lnot 7)) = x - x mod 8.
Proof. intros H. apply land_mask; lia. Qed.

Lemma ALIGN_aligned x : 0 <= x -> x + 7 < 2 ^ 64 -> x mod 8 = 0 -> ALIGN x = x.
Proof.
  intros H0 H H8. unfold ALIGN, w64 at 2. change (8 - 1) with 7.
  rewrite w64_small by lia. rewrite land_mask by lia.
  rewrite <- Zplus_mod_idemp_l, H8. change ((0 + 7) mod 8) with 7. lia.
Qed.

Lemma PACK_tag sz (al : bool) :
  0 <= sz -> sz mod 8 = 0 -> PACK sz (if al then 1 else 0) = tag sz al.
Proof.
  intros H0 H8. unfold PACK, tag. destruct al; [|rewrite Z.lor_0_r; lia].
  rewrite <- Z.lxor_lor, <- Z.add_nocarry_lxor; trivial;
    change 1 with (Z.ones 1); rewrite Z.land_ones by lia;
    change (2 ^ 1) with 2; pose proof (Z.mod_pos_bound sz 2);
    pose proof (Z.div_mod sz 8); pose proof (Z.div_mod sz 2); lia.
Qed.

Lemma tag_size sz al :
  0 <= sz -> sz mod 8 = 0 -> tag sz al < 2 ^ 32 ->
  Z.land (tag sz al) (w32 (Z.lnot 7)) = sz.
Proof.
  intros H0 H8 H. rewrite land_lnot7 by (unfold tag in *; destruct al; lia).
  unfold tag in *. destruct al.
  - rewrite <- Zplus_mod_idemp_l, H8. change ((0 + 1) mod 8) with 1. lia.
  - rewrite Z.add_0_r, H8. lia.
Qed.

Lemma tag_alloc sz al :
  0 <= sz -> sz mod 8 = 0 -> Z.land (tag sz al) 1 = if al then 1 else 0.
Proof.
  intros H0 H8. change 1 with (Z.ones 1) at 1. rewrite Z.land_ones by lia.
  change (2 ^ 1) with 2. unfold tag.
  assert (E : sz mod 2 = 0).
  { pose proof (Z.div_mod sz 8). pose proof (Z.div_mod sz 2).
    pose proof (Z.mod_pos_bound sz 2). lia. }
  rewrite <- Zplus_mod_idemp_l, E. destruct al; reflexivity.
Qed.

(** * What the helpers leave alone *)

Lemma same_meta_refl st : same_meta st st.
Proof. repeat split. Qed.

Lemma same_meta_trans st1 st2 st3 :
  same_meta st1 st2 -> same_meta st2 st3 -> same_meta st1 st3.
Proof. unfold same_meta. intuition congruence. Qed.

Lemma same_meta_set_mem st m : same_meta st (set_mem st m).
Proof. repeat split. Qed.

Lemma same_meta_set_free_p st p : same_meta st (set_free_p st p).
Proof. repeat split. Qed.

Lemma same_meta_put p v st : same_meta st (put p v st).
Proof. repeat split. Qed.

Lemma same_meta_insert ptr st : same_meta st (insert_free_block ptr st).
Proof. unfold insert_free_block. destruct (free_p st =? NULL); repeat split. Qed.

Lemma same_meta_remove bp st : same_meta st (remove_block bp st).
Proof.
  unfold remove_block.
  repeat match goal with
         | |- context [if ?c then _ else _] => destruct c
         end; repeat split.
Qed.

Lemma same_meta_coalesce bp st : same_meta st (snd (coalesce bp st)).
Proof.
  unfold coalesce.
  repeat match goal with
         | |- context [if ?c then _ else _] => destruct c
         end; cbn [snd];
    repeat (eapply same_meta_trans;
            [|first [apply same_meta_put | apply same_meta_remove]]);
    apply same_meta_refl.
Qed.

Lemma same_meta_place bp asize st : same_meta st (place bp asize st).
Proof.
  unfold place. destruct (_ >=? MIN).
  - destruct (coalesce _ _) as [bp' st6] eqn:E.
    eapply same_meta_trans; [|apply same_meta_insert].
    change st6 with (snd (bp', st6)). rewrite <- E.
    eapply same_meta_trans; [|apply same_meta_coalesce].
    repeat (eapply same_meta_trans;
            [|first [apply same_meta_put | apply same_meta_remove]]).
    apply same_meta_refl.
  - repeat (eapply same_meta_trans;
            [|first [apply same_meta_put | apply same_meta_remove]]).
    apply same_meta_refl.
Qed.

(** * Outcomes and sizes *)

Lemma bind_ret_inv {A B} (c : outcome A) (k : A -> outcome B) b :
  bind c k = Ret b -> exists a, c = Ret a /\ k a = Ret b.
Proof. destruct c; simpl; intros H; try discriminate. eauto. Qed.

Lemma MAX_spec x y : MAX x y = Z.max x y.
Proof. unfold MAX. destruct (Z.gtb_spec x y); lia. Qed.

Lemma adjusted_size_facts n :
  MIN <= adjusted_size n < 2 ^ 64 /\ adjusted_size n mod 8 = 0.
Proof.
  unfold adjusted_size, MIN, DSIZE. rewrite MAX_spec.
  destruct (Z.leb_spec n 8).
  - change (Z.max (2 * 8) 24) with 24. split; [lia | reflexivity].
  - set (q := w64 (n + 8 + (8 - 1)) / 8).
    pose proof (Z.mod_pos_bound (8 * q) (2 ^ 64) ltac:(lia)) as B.
    assert (E : w64 (8 * q) mod 8 = 0).
    { unfold w64. change (2 ^ 64) with (8 * 2 ^ 61).
      rewrite Z.rem_mul_r by lia. rewrite Z.mul_comm, Z.mod_mul by lia.
      rewrite Z.add_0_l, Z.mul_comm, Z.mod_mul; lia. }
    unfold w64 in *.
    destruct (Z.max_spec (8 * q mod 2 ^ 64) 24) as [[? ->]|[? ->]]; split;
      try lia; reflexivity.
Qed.

(* the size that extend_heap requests for the words malloc passes *)
Lemma extend_request asize :
  MIN <= asize < 2 ^ 64 -> asize mod 8 = 0 ->
  let words := MAX asize CHUNKSIZE / WSIZE in
  ALIGN (if negb (words mod 2 =? 0) then w64 ((words + 1) * WSIZE)
         else w64 (words * WSIZE)) = MAX asize CHUNKSIZE
  /\ asize <= MAX asize CHUNKSIZE /\ CHUNKSIZE <= MAX asize CHUNKSIZE
  /\ MAX asize CHUNKSIZE mod 8 = 0 /\ MAX asize CHUNKSIZE < 2 ^ 64.
Proof.
  intros H H8. rewrite MAX_spec. change CHUNKSIZE with 4096. unfold WSIZE, MIN in *.
  set (e := Z.max asize 4096).
  assert (E8 : e mod 8 = 0).
  { unfold e. destruct (Z.max_spec asize 4096) as [[? ->]|[? ->]]; trivial. }
  assert (Eb : 4096 <= e < 2 ^ 64) by (unfold e; lia).
  assert (Ew : e / 4 * 4 = e /\ (e / 4) mod 2 = 0).
  { pose proof (Z.div_mod e 8). pose proof (Z.div_mod e 4).
    pose proof (Z.div_mod (e / 4) 2). pose proof (Z.mod_pos_bound e 4).
    pose proof (Z.mod_pos_bound (e / 4) 2). lia. }
  cbv zeta. destruct Ew as [Ew1 Ew2]. rewrite Ew2. simpl negb. cbv iota.
  rewrite Ew1. rewrite w64_small by lia.
  assert (e + 7 < 2 ^ 64) by (pose proof (Z.div_mod e 8); lia).
  rewrite ALIGN_aligned by lia. repeat split; try assumption; unfold e; lia.
Qed.

(** * The validator is entered only by heap extension *)

Lemma mm_checkheap_ret fuel lineno st st' :
  mm_checkheap fuel lineno st = Ret st' -> st' = tick_checks st.
Proof.
  unfold mm_checkheap.
  repeat match goal with
         | |- context [if ?c then _ else _] => destruct c; try discriminate
         end.
  intros H. apply bind_ret_inv in H as (_ & _ & H).
  apply bind_ret_inv in H as (_ & _ & H). congruence.
Qed.

Lemma extend_heap_meta fuel words st bp st' :
  extend_heap fuel words st = Ret (bp, st') ->
  heap_listp st' = heap_listp st /\ mem_start st' = mem_start st /\
  mem_max st' = mem_max st /\
  ((bp = NULL /\ checks st' = checks st /\ mem st' = mem st /\
    free_p st' = free_p st /\ (st' = st \/ mem_brk st = PTR_ERR)) \/
   (exists size, fst (mem_sbrk size st) <> PTR_ERR /\
                 mem_brk st' = mem_brk st + size /\
                 size = ALIGN (if negb (words mod 2 =? 0) then w64 ((words + 1) * WSIZE)
                               else w64 (words * WSIZE)) /\
                 checks st' = S (checks st))).
Proof.
  unfold extend_heap.
  set (size := ALIGN _).
  unfold mem_sbrk.
  destruct ((size <? 0) || (mem_max st <? mem_brk st + size)) eqn:C.
  - rewrite Z.eqb_refl. intros H. inversion H; subst. tauto.
  - destruct (Z.eqb_spec (mem_brk st) PTR_ERR) as [E|E].
    { intros H. inversion H; subst. cbn. tauto. }
    destruct (coalesce _ _) as [bp' st5] eqn:Ec.
    intros H. apply bind_ret_inv in H as (st7 & Hc & H). inversion H; subst.
    apply mm_checkheap_ret in Hc. subst st'.
    pose proof (same_meta_coalesce (mem_brk st)
      (put (HDRP (NEXT_BLKP (mem (put (FTRP (mem (put (HDRP (mem_brk st)) (PACK size 0)
         (set_brk st (mem_brk st + size)))) (mem_brk st)) (PACK size 0)
         (put (HDRP (mem_brk st)) (PACK size 0) (set_brk st (mem_brk st + size)))))
         (mem_brk st))) (PACK 0 1)
         (put (FTRP (mem (put (HDRP (mem_brk st)) (PACK size 0)
         (set_brk st (mem_brk st + size)))) (mem_brk st)) (PACK size 0)
         (put (HDRP (mem_brk st)) (PACK size 0) (set_brk st (mem_brk st + size))))))
      as M.
    rewrite Ec in M. cbn [snd] in M.
    pose proof (same_meta_insert bp st5) as M2.
    destruct M as (M1a & M1b & M1c & M1d & M1e), M2 as (M2a & M2b & M2c & M2d & M2e).
    cbn in *. repeat split; try congruence.
    right. exists size. rewrite C. cbn. repeat split; try congruence.
Qed.

Lemma lazy_init_done fuel st : heap_listp st <> 0 -> lazy_init fuel st = Ret st.
Proof. intros H. unfold lazy_init. destruct (Z.eqb_spec (heap_listp st) 0); tauto. Qed.

Lemma free_meta fuel bp st st' :
  heap_listp st <> 0 -> free fuel bp st = Ret st' -> same_meta st st'.
Proof.
  intros Hl. unfold free. destruct (bp =? 0).
  { intros H. inversion H. apply same_meta_refl. }
  rewrite lazy_init_done by assumption. cbn [bind].
  destruct (coalesce _ _) as [bp' st3] eqn:E. intros H. inversion H; subst.
  eapply same_meta_trans; [|apply same_meta_insert].
  change st3 with (snd (bp', st3)). rewrite <- E.
  eapply same_meta_trans; [|apply same_meta_coalesce].
  eapply same_meta_trans; apply same_meta_put.
Qed.

Lemma malloc_meta fuel n st p st' :
  heap_listp st <> 0 -> malloc fuel n st = Ret (p, st') ->
  heap_listp st' = heap_listp st /\
  (checks st' = checks st \/
   (checks st' = S (checks st) /\ mem_brk st < mem_brk st')).
Proof.
  intros Hl. unfold malloc. rewrite lazy_init_done by assumption. cbn [bind].
  destruct (n =? 0). { intros H. inversion H; subst. auto. }
  intros H. apply bind_ret_inv in H as (b & Hf & H).
  destruct (b =? NULL); cbn [negb] in H.
  - apply bind_ret_inv in H as ([bp st1] & He & H).
    pose proof (adjusted_size_facts n) as [Ha Ha8].
    pose proof (extend_request _ Ha Ha8) as (Hs & Hs1 & Hs2 & _).
    apply extend_heap_meta in He as (M1 & M2 & M3 & M4).
    assert (M : heap_listp st1 = heap_listp st /\
                (checks st1 = checks st \/
                 (checks st1 = S (checks st) /\ mem_brk st < mem_brk st1))).
    { split; [assumption|].
      destruct M4 as [(? & ? & _)|(size & _ & Hb & Hsz & Hc)]; [auto|].
      right. split; [assumption|]. cbv zeta in Hs. rewrite Hs in Hsz.
      change CHUNKSIZE with 4096 in *. lia. }
    destruct (bp =? NULL).
    + inversion H; subst. assumption.
    + inversion H; subst.
      destruct (same_meta_place p (adjusted_size n) st1) as (P1 & P2 & P3 & P4 & P5).
      rewrite P1, P3, P5. assumption.
  - inversion H; subst.
    destruct (same_meta_place p (adjusted_size n) st) as (P1 & P2 & P3 & P4 & P5).
    auto.
Qed.

Lemma malloc_hit_meta fuel n st b p st' :
  heap_listp st <> 0 -> find_fit fuel (adjusted_size n) st = Ret b -> b <> NULL ->
  malloc fuel n st = Ret (p, st') -> n <> 0 -> p = b /\ same_meta st st'.
Proof.
  intros Hl Hf Hb. unfold malloc. rewrite lazy_init_done by assumption. cbn [bind].
  intros H Hn. destruct (Z.eqb_spec n 0); [tauto|].
  rewrite Hf in H. cbn [bind] in H.
  destruct (Z.eqb_spec b NULL); [tauto|]. cbn [negb] in H.
  inversion H; subst. split; [reflexivity | apply same_meta_place].
Qed.

Lemma realloc_meta fuel ptr n st p st' :
  heap_listp st <> 0 -> realloc fuel ptr n st = Ret (p, st') ->
  checks st' = checks st \/ (checks st' = S (checks st) /\ mem_brk st < mem_brk st').
Proof.
  intros Hl. unfold realloc. destruct (n =? 0).
  { intros H. apply bind_ret_inv in H as (st1 & Hf & H). inversion H; subst.
    left. eapply free_meta; eassumption. }
  destruct (ptr =? NULL). { intros H. eapply malloc_meta; eassumption. }
  destruct (_ =? adjusted_size n). { intros H. inversion H; subst. auto. }
  intros H. apply bind_ret_inv in H as ([newptr st1] & Hm & H).
  apply malloc_meta in Hm as (M1 & M2); [|assumption].
  destruct (newptr =? 0). { inversion H; subst. assumption. }
  apply bind_ret_inv in H as (st3 & Hf & H). inversion H; subst.
  apply free_meta in Hf as (F1 & F2 & F3 & F4 & F5); [|cbn; congruence].
  cbn in *. rewrite F3, F5. assumption.
Qed.

Lemma calloc_meta fuel nmemb size st p st' :
  heap_listp st <> 0 -> calloc fuel nmemb size st = Ret (p, st') ->
  checks st' = checks st \/ (checks st' = S (checks st) /\ mem_brk st < mem_brk st').
Proof.
  intros Hl. unfold calloc.
  intros H. apply bind_ret_inv in H as ([newptr st1] & Hm & H).
  apply malloc_meta in Hm as (M1 & M2); [|assumption].
  inversion H; subst. cbn. assumption.
Qed.

(** * The block walk of the validator *)

(* As soon as the heap holds two bytes the loop condition of step 5 is false
   at its first test: no block is examined. *)
Lemma check_block_loop_never_runs fuel st :
  2 <= mem_heapsize st ->
  check_block_loop (S fuel) st (mem_heap_lo st + WSIZE) = Ret tt.
Proof.
  intros H. cbn [check_block_loop].
  unfold mem_heapsize, mem_heap_hi, mem_heap_lo, WSIZE in *.
  destruct (Z.gtb_spec (mem_start st + 4 - (4 - 1)) (mem_brk st - 1)); [lia | reflexivity].
Qed.

(** C6 (code defect).  On the heap [st_bad] the only allocated block has a
    header that says 24 bytes, allocated, and a footer that says 32 bytes,
    free; the validator still returns without reporting anything, because the
    loop over the blocks is never entered. *)
Theorem checkheap_misses_tag_mismatch :
  GET_SIZE (mem st_bad) (HDRP 65568) = 24 /\
  GET_SIZE (mem st_bad) (FTRP (mem st_bad) 65568) = 32 /\
  GET_ALLOC (mem st_bad) (HDRP 65568) = 1 /\
  GET_ALLOC (mem st_bad) (FTRP (mem st_bad) 65568) = 0 /\
  check_block_loop 10 st_bad (mem_heap_lo st_bad + WSIZE) = Ret tt /\
  mm_checkheap 10 0 st_bad = Ret (tick_checks st_bad).
Proof. vm_compute. repeat split; reflexivity. Qed.

(** * Claims on the entry points *)

(** C7 (as amended).  On an initialised heap, free never enters the
    validator; malloc, realloc and calloc enter it at most once, and only in
    a call that made the heap grow; a malloc served from the free list does
    not enter it. *)
Theorem validator_only_on_extension fuel st :
  heap_listp st <> 0 ->
  (forall bp st', free fuel bp st = Ret st' -> checks st' = checks st) /\
  (forall n p st', malloc fuel n st = Ret (p, st') ->
     checks st' = checks st \/
     (checks st' = S (checks st) /\ mem_brk st < mem_brk st')) /\
  (forall ptr n p st', realloc fuel ptr n st = Ret (p, st') ->
     checks st' = checks st \/
     (checks st' = S (checks st) /\ mem_brk st < mem_brk st')) /\
  (forall nmemb size p st', calloc fuel nmemb size st = Ret (p, st') ->
     checks st' = checks st \/
     (checks st' = S (checks st) /\ mem_brk st < mem_brk st')) /\
  (forall n b p st', n <> 0 ->
     find_fit fuel (adjusted_size n) st = Ret b -> b <> NULL ->
     malloc fuel n st = Ret (p, st') -> checks st' = checks st).
Proof.
  intros Hl. repeat split.
  - intros bp st' H. eapply free_meta; eassumption.
  - intros n p st' H. eapply malloc_meta; eassumption.
  - intros ptr n p st' H. eapply realloc_meta; eassumption.
  - intros nmemb size p st' H. eapply calloc_meta; eassumption.
  - intros n b p st' Hn Hf Hb H.
    destruct (malloc_hit_meta _ _ _ _ _ _ Hl Hf Hb H Hn) as (_ & M). apply M.
Qed.

Lemma validator_only_on_extension_witness :
  heap_listp st_one <> 0 /\
  (forall bp st', free 10 bp st_one = Ret st' -> checks st' = checks st_one).
Proof.
  split.
  - vm_compute. discriminate.
  - apply (validator_only_on_extension 10 st_one). vm_compute. discriminate.
Defined.

(** C7 as stated fails: a plain allocate call enters the validator, both when
    it initialises the heap and when it has to extend an initialised heap. *)
Lemma malloc_enters_validator :
  checks st0 = 0%nat /\ checks (state_of (malloc 10 16 st0) st0) = 1%nat /\
  heap_listp st_one <> 0 /\ checks st_one = 1%nat /\
  value_of (malloc 10 5000 st_one) = Some 65592 /\
  checks (state_of (malloc 10 5000 st_one) st_one) = 2%nat.
Proof. vm_compute. repeat split; try reflexivity. discriminate. Qed.

(** C8 (as amended).  malloc(0) returns NULL and changes nothing once the
    heap is initialised; free(NULL) returns and changes nothing in every
    state. *)
Theorem malloc_zero_free_null fuel st :
  (heap_listp st <> 0 -> malloc fuel 0 st = Ret (NULL, st)) /\
  free fuel NULL st = Ret st.
Proof.
  split.
  - intros Hl. unfold malloc. rewrite lazy_init_done by assumption. reflexivity.
  - reflexivity.
Qed.

Lemma malloc_zero_free_null_witness :
  heap_listp st_one <> 0 /\ malloc 10 0 st_one = Ret (NULL, st_one) /\
  free 10 NULL st_one = Ret st_one.
Proof.
  split; [vm_compute; discriminate|].
  destruct (malloc_zero_free_null 10 st_one) as [H1 H2].
  split; [apply H1; vm_compute; discriminate | exact H2].
Defined.

(** C8 as stated fails: on a heap that was never initialised malloc(0)
    initialises it before it looks at the size. *)
Lemma malloc_zero_initialises :
  heap_listp st0 = 0 /\
  value_of (malloc 10 0 st0) = Some NULL /\
  heap_listp (state_of (malloc 10 0 st0) st0) = 65544 /\
  mem_brk st0 = 65536 /\
  mem_brk (state_of (malloc 10 0 st0) st0) = 65536 + 32 + 4096 /\
  free_p (state_of (malloc 10 0 st0) st0) = 65568 /\
  malloc 10 0 st0 <> Ret (NULL, st0).
Proof.
  repeat split; try (vm_compute; reflexivity).
  intros H.
  assert (E : heap_listp (state_of (malloc 10 0 st0) st0) = 65544)
    by (vm_compute; reflexivity).
  rewrite H in E. discriminate E.
Qed.

(** C10.  With an empty free list ([free_p] is NULL) coalesce returns its
    argument and the state it was given, whatever the memory holds: no tag
    or link is consulted or written. *)
Theorem coalesce_empty_list_noop bp st :
  free_p st = NULL -> coalesce bp st = (bp, st).
Proof. intros H. unfold coalesce. rewrite H. reflexivity. Qed.

Lemma coalesce_empty_list_noop_witness :
  free_p st0 = NULL /\ coalesce 65568 st0 = (65568, st0).
Proof.
  split; [reflexivity | apply (coalesce_empty_list_noop 65568 st0); reflexivity].
Defined.

(** When malloc returns NULL, calloc still runs memset through that pointer. *)
Lemma calloc_after_failed_malloc fuel nmemb size st st1 :
  malloc fuel (w64 (nmemb * size)) st = Ret (NULL, st1) ->
  calloc fuel nmemb size st
  = Ret (NULL, set_mem st1 (memset (mem st1) NULL 0 (w64 (nmemb * size)))).
Proof. intros H. unfold calloc. rewrite H. reflexivity. Qed.

(** C4 (code defect).  On [st_full] the heap cannot grow, so the malloc inside
    calloc(1, 5000) fails; calloc returns NULL, but only after memset has
    written 5000 zero bytes through the null pointer, at addresses 0..4999,
    which lie outside the heap. *)
Theorem calloc_failure_writes_through_null :
  value_of (malloc 10 5000 st_full) = Some NULL /\
  value_of (calloc 10 1 5000 st_full) = Some NULL /\
  mem_start st_full = 65536 /\
  mem st_full 0 = 255 /\ mem st_full 4999 = 255 /\
  mem (state_of (calloc 10 1 5000 st_full) st_full) 0 = 0 /\
  mem (state_of (calloc 10 1 5000 st_full) st_full) 4999 = 0.
Proof. vm_compute. repeat split; reflexivity. Qed.

(** * Chains of blocks *)

Lemma total_app bs1 bs2 : total (bs1 ++ bs2) = total bs1 + total bs2.
Proof. induction bs1 as [|[sz al] bs1 IH]; simpl; lia. Qed.

Lemma chain_sizes m a bs : chain m a bs -> sizes_ok bs.
Proof.
  revert a. induction bs as [|[sz al] bs IH]; intros a H; constructor.
  - simpl. apply H.
  - simpl in H. eapply IH. apply H.
Qed.

Lemma sizes_ok_app bs1 bs2 : sizes_ok (bs1 ++ bs2) <-> sizes_ok bs1 /\ sizes_ok bs2.
Proof. apply Forall_app. Qed.

Lemma sizes_total bs : sizes_ok bs -> 0 <= total bs.
Proof.
  induction 1 as [|[sz al] bs H _ IH]; simpl in *; unfold MIN in *; lia.
Qed.

Lemma sizes_total_pos bs : sizes_ok bs -> bs <> [] -> MIN <= total bs.
Proof.
  intros H Hne. destruct H as [|[sz al] bs H H']; [congruence|].
  simpl in *. pose proof (sizes_total _ H'). lia.
Qed.

Lemma chain_app m a bs1 bs2 :
  chain m a (bs1 ++ bs2) <-> chain m a bs1 /\ chain m (a + total bs1) bs2.
Proof.
  revert a. induction bs1 as [|[sz al] bs1 IH]; intros a; simpl.
  - rewrite Z.add_0_r. tauto.
  - rewrite IH. replace (a + sz + total bs1) with (a + (sz + total bs1)) by lia. tauto.
Qed.

Lemma frees_app a bs1 bs2 :
  frees a (bs1 ++ bs2) = frees a bs1 ++ frees (a + total bs1) bs2.
Proof.
  revert a. induction bs1 as [|[sz al] bs1 IH]; intros a; simpl.
  - rewrite Z.add_0_r. reflexivity.
  - rewrite IH. replace (a + sz + total bs1) with (a + (sz + total bs1)) by lia.
    destruct al; reflexivity.
Qed.

Lemma in_tags_app a bs1 bs2 y :
  in_tags a (bs1 ++ bs2) y <-> in_tags a bs1 y \/ in_tags (a + total bs1) bs2 y.
Proof.
  revert a. induction bs1 as [|[sz al] bs1 IH]; intros a; simpl.
  - rewrite Z.add_0_r. tauto.
  - rewrite IH. replace (a + sz + total bs1) with (a + (sz + total bs1)) by lia. tauto.
Qed.

Lemma frees_bounds a bs x :
  sizes_ok bs -> In x (frees a bs) -> a <= x /\ x + MIN <= a + total bs.
Proof.
  intros H. revert a. induction H as [|[sz al] bs H H' IH]; intros a Hin; simpl in *.
  - contradiction.
  - pose proof (sizes_total _ H'). unfold MIN in *.
    destruct al; [|destruct Hin as [<-|Hin]]; try lia; apply IH in Hin; lia.
Qed.

Lemma in_tags_span a bs y :
  sizes_ok bs -> in_tags a bs y -> a - 4 <= y < a + total bs - 4.
Proof.
  intros H. revert a. induction H as [|[sz al] bs H H' IH]; intros a Hin; simpl in *.
  - contradiction.
  - pose proof (sizes_total _ H'). unfold MIN in *.
    destruct Hin as [Hin|[Hin|Hin]]; try lia. apply IH in Hin. lia.
Qed.

(* the links of a free block never overlap a header or a footer *)
Lemma in_tags_links a bs x y :
  sizes_ok bs -> In x (frees a bs) -> in_tags a bs y -> ~ (x <= y < x + 16).
Proof.
  intros H. revert a. induction H as [|[sz al] bs H H' IH]; intros a Hx Hy; simpl in *.
  - contradiction.
  - unfold MIN in *.
    assert (Hrest : In x (frees (a + sz) bs) -> ~ (x <= y < x + 16)).
    { intros Hx'. destruct Hy as [Hy|[Hy|Hy]].
      - apply frees_bounds in Hx'; trivial. lia.
      - apply frees_bounds in Hx'; trivial. lia.
      - eapply IH; eassumption. }
    destruct al; [auto|]. destruct Hx as [<-|Hx]; [|auto].
    destruct Hy as [Hy|[Hy|Hy]]; try lia.
    apply in_tags_span in Hy; trivial. lia.
Qed.

Lemma frees_sep a bs x y :
  sizes_ok bs -> In x (frees a bs) -> In y (frees a bs) ->
  x = y \/ x + MIN <= y \/ y + MIN <= x.
Proof.
  intros H. revert a. induction H as [|[sz al] bs H H' IH]; intros a Hx Hy; simpl in *.
  - contradiction.
  - unfold MIN in *. destruct al; [eauto|].
    destruct Hx as [<-|Hx], Hy as [<-|Hy]; eauto.
    + apply frees_bounds in Hy; trivial. lia.
    + apply frees_bounds in Hx; trivial. lia.
Qed.

Lemma frees_nodup a bs : sizes_ok bs -> NoDup (frees a bs).
Proof.
  intros H. revert a. induction H as [|[sz al] bs H H' IH]; intros a; simpl.
  - constructor.
  - destruct al; [apply IH|]. constructor; [|apply IH].
    intros Hin. apply frees_bounds in Hin; trivial. simpl in H. unfold MIN in *. lia.
Qed.

Lemma chain_frame m m' a bs :
  chain m a bs -> (forall y, in_tags a bs y -> m' y = m y) -> chain m' a bs.
Proof.
  revert a. induction bs as [|[sz al] bs IH]; intros a H Hm; simpl in *; trivial.
  destruct H as (Hs & Hh & Hf & Hc). unfold GET, HDRP, WSIZE, DSIZE in *.
  split; [assumption|]. repeat split.
  - rewrite <- Hh. apply load4_ext. intros. apply Hm. lia.
  - rewrite <- Hf. apply load4_ext. intros. apply Hm. lia.
  - apply IH; trivial. intros. apply Hm. tauto.
Qed.

(* the tags of the block at a given place of the chain *)
Lemma chain_block m a bs1 sz al bs2 :
  chain m a (bs1 ++ (sz, al) :: bs2) ->
  let b := a + total bs1 in
  (MIN <= sz /\ sz mod 8 = 0) /\
  GET m (b - 4) = tag sz al /\ GET m (b + sz - 8) = tag sz al.
Proof.
  intros H. apply chain_app in H as [_ H]. simpl in H.
  unfold HDRP, WSIZE, DSIZE in H. cbv zeta. tauto.
Qed.

Lemma tag_range sz al : 0 <= sz -> sz mod 8 = 0 -> sz < 2 ^ 32 -> 0 <= tag sz al < 2 ^ 32.
Proof.
  intros H0 H8 H. unfold tag. pose proof (Z.div_mod sz 8).
  change (2 ^ 32) with 4294967296 in *. destruct al; lia.
Qed.

Lemma GET_SIZE_tag m p sz al :
  GET m p = tag sz al -> 0 <= sz -> sz mod 8 = 0 -> GET_SIZE m p = sz.
Proof.
  intros H H0 H8. unfold GET_SIZE. rewrite H. apply tag_size; trivial.
  rewrite <- H. apply load4_range.
Qed.

Lemma GET_ALLOC_tag m p sz al :
  GET m p = tag sz al -> 0 <= sz -> sz mod 8 = 0 ->
  GET_ALLOC m p = if al then 1 else 0.
Proof. intros H H0 H8. unfold GET_ALLOC. rewrite H. apply tag_alloc; trivial. Qed.

(** * Free-list segments *)

Lemma in_links_cons x l y : in_links (x :: l) y <-> x <= y < x + 16 \/ in_links l y.
Proof.
  unfold in_links. split.
  - intros (z & [<-|Hz] & H); eauto.
  - intros [H|(z & Hz & H)]; [exists x | exists z]; simpl; auto.
Qed.

Lemma in_links_app l1 l2 y : in_links (l1 ++ l2) y <-> in_links l1 y \/ in_links l2 y.
Proof.
  unfold in_links. split.
  - intros (z & Hz & H). apply in_app_or in Hz as [Hz|Hz]; eauto.
  - intros [(z & Hz & H)|(z & Hz & H)]; exists z; split; trivial; apply in_or_app; auto.
Qed.

Lemma dlseg_frame m m' prev p l e :
  dlseg m prev p l e -> (forall y, in_links l y -> m' y = m y) -> dlseg m' prev p l e.
Proof.
  revert prev p. induction l as [|x l IH]; intros prev p H Hm; simpl in *; trivial.
  destruct H as (-> & Hx & Hp & Hn). unfold PREV_FREE_BLOCK, NEXT_FREE_BLOCK, DSIZE in *.
  assert (E1 : load8 m' x = load8 m x).
  { apply load8_ext. intros. apply Hm. apply in_links_cons. lia. }
  assert (E2 : load8 m' (x + 8) = load8 m (x + 8)).
  { apply load8_ext. intros. apply Hm. apply in_links_cons. lia. }
  rewrite E1, E2. repeat split; trivial.
  apply IH; trivial. intros. apply Hm. apply in_links_cons. auto.
Qed.

Lemma last_cons {A} (x : A) l d : last (x :: l) d = last l x.
Proof.
  revert x d. induction l as [|y l IH]; intros x d; [reflexivity|].
  change (last (x :: y :: l) d) with (last (y :: l) d). rewrite !IH. reflexivity.
Qed.

Lemma dlseg_app m prev p l1 l2 e :
  dlseg m prev p (l1 ++ l2) e <->
  exists mid, dlseg m prev p l1 mid /\ dlseg m (last l1 prev) mid l2 e.
Proof.
  revert prev p. induction l1 as [|x l1 IH]; intros prev p.
  - simpl. split; [eauto | intros (mid & -> & H); exact H].
  - change ((x :: l1) ++ l2) with (x :: l1 ++ l2).
    rewrite last_cons.
    cbn [dlseg]. rewrite IH. split.
    + intros (-> & Hx & Hp & mid & H1 & H2). exists mid. tauto.
    + intros (mid & (-> & Hx & Hp & H1) & H2). repeat split; eauto.
Qed.

Lemma dlseg_nonnull m prev p l e x : dlseg m prev p l e -> In x l -> x <> NULL.
Proof.
  revert prev p. induction l as [|z l IH]; intros prev p H Hin; simpl in *; [tauto|].
  destruct H as (-> & Hz & _ & H). destruct Hin as [<-|Hin]; eauto.
Qed.

Lemma dlseg_head m prev p l e : dlseg m prev p l e -> p = hd e l.
Proof. destruct l; simpl; tauto. Qed.

(** * Writing links *)

Lemma next_set_next m x v : 0 <= v < 2 ^ 64 ->
  NEXT_FREE_BLOCK (SET_NEXT_FREE_BLOCK m x v) x = v.
Proof. apply load8_store8_same. Qed.

Lemma prev_set_prev m x v : 0 <= v < 2 ^ 64 ->
  PREV_FREE_BLOCK (SET_PREV_FREE_BLOCK m x v) x = v.
Proof. apply load8_store8_same. Qed.

Lemma next_set_prev m x v z : z + 16 <= x \/ x <= z ->
  NEXT_FREE_BLOCK (SET_PREV_FREE_BLOCK m x v) z = NEXT_FREE_BLOCK m z.
Proof. intros H. apply load8_store8_other. unfold DSIZE. lia. Qed.

Lemma prev_set_next m x v z : z + 8 <= x + 8 \/ x + 16 <= z ->
  PREV_FREE_BLOCK (SET_NEXT_FREE_BLOCK m x v) z = PREV_FREE_BLOCK m z.
Proof. intros H. apply load8_store8_other. unfold DSIZE. lia. Qed.

Lemma next_set_next_other m x v z : z + 16 <= x + 8 \/ x + 8 <= z ->
  NEXT_FREE_BLOCK (SET_NEXT_FREE_BLOCK m x v) z = NEXT_FREE_BLOCK m z.
Proof. intros H. apply load8_store8_other. unfold DSIZE. lia. Qed.

Lemma prev_set_prev_other m x v z : z + 8 <= x \/ x + 8 <= z ->
  PREV_FREE_BLOCK (SET_PREV_FREE_BLOCK m x v) z = PREV_FREE_BLOCK m z.
Proof. intros H. apply load8_store8_other. lia. Qed.

Lemma set_next_out m x v y : y < x + 8 \/ x + 16 <= y ->
  SET_NEXT_FREE_BLOCK m x v y = m y.
Proof. intros H. apply store8_out. unfold DSIZE. lia. Qed.

Lemma set_prev_out m x v y : y < x \/ x + 8 <= y ->
  SET_PREV_FREE_BLOCK m x v y = m y.
Proof. intros H. apply store8_out. lia. Qed.

(** * Unlinking a node *)

Lemma list_last_case {A} (l : list A) : l = [] \/ exists l' w, l = l' ++ [w].
Proof.
  destruct l as [|x l]; [auto|]. right.
  destruct (@exists_last _ (x :: l)) as (l' & w & E); [discriminate|]. eauto.
Qed.

Lemma nodes_ok_sep l x y :
  nodes_ok l -> In x l -> In y l -> x <> y -> x + 16 <= y \/ y + 16 <= x.
Proof. intros (_ & _ & S) Hx Hy Hne. destruct (S x y Hx Hy); tauto. Qed.

Lemma nodup_app_iff {A} (l1 l2 : list A) :
  NoDup (l1 ++ l2) <->
  NoDup l1 /\ NoDup l2 /\ (forall a, In a l1 -> In a l2 -> False).
Proof.
  split.
  - intros H. split; [eapply NoDup_app_remove_r; eassumption|].
    split; [eapply NoDup_app_remove_l; eassumption|].
    induction l1 as [|x l1 IH]; simpl in *; [tauto|].
    apply NoDup_cons_iff in H as (H1 & H2). intros a [<-|Ha] Ha2.
    + apply H1. apply in_or_app. auto.
    + eapply IH; eassumption.
  - intros (H1 & H2 & H3). apply NoDup_app; trivial.
Qed.

Ltac in_tac := rewrite ?in_app_iff; simpl; tauto.

(* two members at different places of a duplicate-free list differ *)
Ltac nd_neq ND :=
  match goal with
  | |- ?a <> ?b =>
      let E := fresh in
      let ND' := fresh in
      intros E; pose proof ND as ND'; revert ND';
      rewrite ?nodup_app_iff, ?NoDup_cons_iff, ?in_app_iff; simpl; intros ND';
      decompose [and] ND'; clear ND';
      solve [ congruence
            | intuition congruence
            | match goal with
              | H : forall c, _ -> _ -> False |- _ =>
                  apply (H a); rewrite ?in_app_iff; simpl;
                  solve [ auto | congruence | left; congruence
                        | right; congruence | right; left; congruence
                        | right; right; congruence
                        | left; right; left; congruence ]
              end ]
  end.

Ltac sep_tac OK ND :=
  match goal with
  | |- ?a + 16 <= ?n \/ ?n + 16 <= ?a =>
      apply (nodes_ok_sep _ a n OK); [in_tac | in_tac | nd_neq ND]
  end.

Lemma remove_block_list st l1 x l2 :
  nodes_ok (l1 ++ x :: l2) ->
  dlseg (mem st) NULL (free_p st) (l1 ++ x :: l2) NULL ->
  dlseg (mem (remove_block x st)) NULL (free_p (remove_block x st)) (l1 ++ l2) NULL /\
  (forall y, ~ in_links (l1 ++ l2) y -> mem (remove_block x st) y = mem st y).
Proof.
  intros OK H. pose proof OK as (ND & R & _).
  apply dlseg_app in H as (mid & H1 & H2). cbn [dlseg] in H2.
  destruct H2 as (-> & Hx & Hp & H2).
  pose proof (dlseg_head _ _ _ _ _ H2) as Hn.
  unfold remove_block. set (m := mem st) in *. rewrite Hp, Hn.
  destruct (list_last_case l1) as [->|(l1' & w & ->)];
    [|rewrite last_last in *;
      apply dlseg_app in H1 as (mid' & H1 & H1'); cbn [dlseg] in H1';
      destruct H1' as (-> & Hw & Hwp & Hwn);
      assert (Rw : 0 < w < 2 ^ 64) by (apply R; in_tac);
      assert (Sw : x + 16 <= w \/ w + 16 <= x) by sep_tac OK ND];
    (destruct l2 as [|z l2];
     [|cbn [dlseg] in H2; destruct H2 as (Hz & Hz0 & Hzp & H2);
       assert (Rz : 0 < z < 2 ^ 64) by (apply R; in_tac);
       assert (Sz : x + 16 <= z \/ z + 16 <= x) by sep_tac OK ND]);
    cbn [last hd].
  - (* the only node *)
    simpl in H1. rewrite Z.eqb_refl. cbn. auto.
  - (* the first node *)
    simpl in H1. rewrite Z.eqb_refl.
    destruct (Z.eqb_spec z NULL) as [|_]; [contradiction|]. cbn [negb andb].
    cbn [mem set_mem set_free_p free_p]. fold m.
    rewrite next_set_prev by lia. rewrite Hn. cbn [hd app].
    split.
    + cbn [dlseg]. repeat split; trivial.
      * apply prev_set_prev. unfold NULL. lia.
      * rewrite next_set_prev by lia.
        eapply dlseg_frame; [eassumption|]. intros y (n & Hn' & Hy).
        apply set_prev_out.
        assert (z + 16 <= n \/ n + 16 <= z) by sep_tac OK ND. lia.
    + intros y Hy. apply set_prev_out.
      assert (~ (z <= y < z + 16)); [|lia].
      intros C. apply Hy. exists z. simpl. auto.
  - (* the last node *)
    destruct (Z.eqb_spec w NULL) as [|_]; [contradiction|]. rewrite Z.eqb_refl.
    cbn [negb andb]. cbn [mem set_mem set_free_p free_p]. fold m.
    rewrite app_nil_r. split.
    + apply dlseg_app. exists w. split.
      * eapply dlseg_frame; [eassumption|]. intros y (n & Hn' & Hy).
        apply set_next_out.
        assert (w + 16 <= n \/ n + 16 <= w) by sep_tac OK ND. lia.
      * cbn [dlseg]. repeat split; trivial.
        -- rewrite prev_set_next by lia. assumption.
        -- apply next_set_next. unfold NULL. lia.
    + intros y Hy. apply set_next_out.
      assert (~ (w <= y < w + 16)); [|lia].
      intros C. apply Hy. exists w. split; [in_tac | lia].
  - (* a node in the middle *)
    destruct (Z.eqb_spec w NULL) as [|_]; [contradiction|].
    destruct (Z.eqb_spec z NULL) as [|_]; [contradiction|].
    cbn [negb andb]. cbn [mem set_mem set_free_p free_p]. fold m.
    rewrite next_set_next_other by lia. rewrite prev_set_next by lia.
    rewrite Hp, Hn. cbn [hd].
    assert (Swz : w + 16 <= z \/ z + 16 <= w) by sep_tac OK ND.
    split.
    + apply dlseg_app. exists z. rewrite last_last. split.
      * apply dlseg_app. exists w. split.
        -- eapply dlseg_frame; [eassumption|]. intros y (n & Hn' & Hy).
           assert (w + 16 <= n \/ n + 16 <= w) by sep_tac OK ND.
           assert (z + 16 <= n \/ n + 16 <= z) by sep_tac OK ND.
           rewrite set_prev_out, set_next_out; trivial; lia.
        -- cbn [dlseg]. repeat split; trivial.
           ++ rewrite prev_set_prev_other by lia. rewrite prev_set_next by lia.
              assumption.
           ++ rewrite next_set_prev by lia. apply next_set_next. lia.
      * cbn [dlseg]. repeat split; trivial.
        -- apply prev_set_prev. lia.
        -- rewrite next_set_prev by lia. rewrite next_set_next_other by lia.
           eapply dlseg_frame; [eassumption|]. intros y (n & Hn' & Hy).
           assert (w + 16 <= n \/ n + 16 <= w) by sep_tac OK ND.
           assert (z + 16 <= n \/ n + 16 <= z) by sep_tac OK ND.
           rewrite set_prev_out, set_next_out; trivial; lia.
    + intros y Hy. rewrite set_prev_out, set_next_out; trivial.
      * assert (~ (w <= y < w + 16)); [|lia].
        intros C. apply Hy. exists w. split; [in_tac | lia].
      * assert (~ (z <= y < z + 16)); [|lia].
        intros C. apply Hy. exists z. split; [in_tac | lia].
Qed.

(** * Linking a node at the head *)

Lemma insert_free_block_list st l b :
  nodes_ok (b :: l) ->
  dlseg (mem st) NULL (free_p st) l NULL ->
  dlseg (mem (insert_free_block b st)) NULL (free_p (insert_free_block b st))
        (b :: l) NULL /\
  (forall y, ~ in_links (b :: l) y -> mem (insert_free_block b st) y = mem st y).
Proof.
  intros OK H. pose proof OK as (ND & R & _).
  assert (Rb : 0 < b < 2 ^ 64) by (apply R; simpl; auto).
  unfold insert_free_block. destruct l as [|h l]; cbn [dlseg] in H.
  - rewrite H, Z.eqb_refl. cbn [mem set_mem set_free_p free_p]. split.
    + cbn [dlseg]. unfold NULL in *. repeat split; try lia.
      * apply prev_set_prev. lia.
      * rewrite next_set_prev by lia. apply next_set_next. lia.
    + intros y Hy. rewrite set_prev_out, set_next_out; trivial.
      * assert (~ (b <= y < b + 16)); [|lia].
        intros C. apply Hy. exists b. simpl. auto.
      * assert (~ (b <= y < b + 16)); [|lia].
        intros C. apply Hy. exists b. simpl. auto.
  - destruct H as (Hp & Hh & Hhp & H).
    destruct (Z.eqb_spec (free_p st) NULL) as [|_]; [congruence|].
    cbn [mem set_mem set_free_p free_p]. rewrite Hp.
    assert (Rh : 0 < h < 2 ^ 64) by (apply R; simpl; auto).
    assert (Sh : b + 16 <= h \/ h + 16 <= b) by sep_tac OK ND.
    split.
    + cbn [dlseg]. unfold NULL in *. repeat split; try lia.
      * rewrite prev_set_next by lia. apply prev_set_prev. lia.
      * rewrite next_set_next by lia. reflexivity.
      * rewrite prev_set_next by lia. rewrite prev_set_prev_other by lia.
        apply prev_set_prev. lia.
      * rewrite next_set_next_other by lia. rewrite !next_set_prev by lia.
        eapply dlseg_frame; [eassumption|]. intros y (n & Hn' & Hy).
        assert (b + 16 <= n \/ n + 16 <= b) by sep_tac OK ND.
        assert (h + 16 <= n \/ n + 16 <= h) by sep_tac OK ND.
        rewrite set_next_out, !set_prev_out; trivial; lia.
    + intros y Hy.
      assert (~ (b <= y < b + 16)) by (intros C; apply Hy; exists b; simpl; auto).
      assert (~ (h <= y < h + 16)) by (intros C; apply Hy; exists h; simpl; auto).
      rewrite set_next_out, !set_prev_out; trivial; lia.
Qed.

(** * Writing the two tags of a block *)

Lemma put_tags_spec st b sz (al : bool) :
  8 <= sz -> sz mod 8 = 0 -> sz < 2 ^ 32 ->
  let st1 := put (HDRP b) (PACK sz (if al then 1 else 0)) st in
  let st2 := put (FTRP (mem st1) b) (PACK sz (if al then 1 else 0)) st1 in
  GET (mem st2) (b - 4) = tag sz al /\
  GET (mem st2) (b + sz - 8) = tag sz al /\
  (forall y, ~ (b - 4 <= y < b) -> ~ (b + sz - 8 <= y < b + sz - 4) ->
             mem st2 y = mem st y) /\
  free_p st2 = free_p st /\ same_meta st st2.
Proof.
  intros H8 Hm H32. cbv zeta.
  rewrite PACK_tag by lia.
  pose proof (tag_range sz al ltac:(lia) Hm H32) as Ht.
  assert (E1 : GET (mem (put (HDRP b) (tag sz al) st)) (b - 4) = tag sz al).
  { unfold put, PUT, GET, HDRP, WSIZE. cbn [mem set_mem].
    rewrite load4_store4_same. rewrite !w32_small; trivial. rewrite w32_small; trivial. }
  assert (E2 : FTRP (mem (put (HDRP b) (tag sz al) st)) b = b + sz - 8).
  { unfold FTRP, HDRP, WSIZE, DSIZE in *. erewrite GET_SIZE_tag; eauto. lia. }
  rewrite E2. unfold put, PUT, GET, HDRP, WSIZE in *. cbn [mem set_mem] in *.
  repeat split.
  - rewrite load4_store4_other by lia. assumption.
  - rewrite load4_store4_same. rewrite !w32_small; trivial. rewrite w32_small; trivial.
  - intros y H1 H2. rewrite !store4_out by lia. reflexivity.
Qed.

(** * The heap invariant under the helpers *)

Lemma sizes_total_mod8 bs : sizes_ok bs -> total bs mod 8 = 0.
Proof.
  induction 1 as [|[sz al] bs H _ IH]; simpl in *; [reflexivity|].
  rewrite Z.add_mod, IH by lia. destruct H as [_ ->]. reflexivity.
Qed.

Lemma rep_sizes st bs fl : heap_rep st bs fl -> sizes_ok bs.
Proof. intros H. eapply chain_sizes. apply H. Qed.

Lemma rep_free_bounds st bs fl x :
  heap_rep st bs fl -> In x (frees (mem_start st + DSIZE) bs) ->
  mem_start st + DSIZE <= x /\ x + MIN <= mem_brk st.
Proof.
  intros H Hx. apply frees_bounds in Hx; [|eapply rep_sizes; eassumption].
  rewrite <- (rep_brk _ _ _ H). assumption.
Qed.

Lemma rep_nodes st bs fl l :
  heap_rep st bs fl -> NoDup l -> incl l (frees (mem_start st + DSIZE) bs) -> nodes_ok l.
Proof.
  intros H ND Hi. split; [assumption|]. split.
  - intros x Hx. apply Hi in Hx. eapply rep_free_bounds in Hx; [|eassumption].
    pose proof (rep_start _ _ _ H). pose proof (rep_max _ _ _ H).
    pose proof (rep_addr _ _ _ H). unfold DSIZE, MIN in *. lia.
  - intros x y Hx Hy. apply Hi in Hx, Hy.
    destruct (frees_sep _ _ _ _ (rep_sizes _ _ _ H) Hx Hy) as [?|[?|?]];
      unfold MIN in *; auto; lia.
Qed.

Lemma rep_nodes_ok st bs fl : heap_rep st bs fl -> nodes_ok fl.
Proof. intros H. eapply rep_nodes; [eassumption | apply H | apply H]. Qed.

Lemma rep_update st st' bs bs' fl fl' :
  heap_rep st bs fl -> same_meta st st' ->
  hd_error bs' = Some (MIN, true) ->
  chain (mem st') (mem_start st + DSIZE) bs' ->
  total bs' = total bs ->
  GET (mem st') (HDRP (mem_brk st)) = tag 0 true ->
  dlseg (mem st') NULL (free_p st') fl' NULL ->
  NoDup fl' ->
  incl fl' (frees (mem_start st + DSIZE) bs') ->
  heap_rep st' bs' fl'.
Proof.
  intros H (M1 & M2 & M3 & M4 & M5) Hp Hc Ht He Hd Hn Hi.
  destruct H. constructor; rewrite ?M1, ?M2, ?M3, ?M4, ?Ht; trivial.
Qed.

(* the links of free blocks overlap neither a tag nor the epilogue *)
Lemma rep_links_tags st bs fl l y :
  heap_rep st bs fl -> incl l (frees (mem_start st + DSIZE) bs) -> in_links l y ->
  ~ in_tags (mem_start st + DSIZE) bs y /\ y < mem_brk st - 8.
Proof.
  intros H Hi (n & Hn & Hy). apply Hi in Hn. split.
  - intros Ht. eapply in_tags_links; try eassumption. eapply rep_sizes; eassumption.
  - eapply rep_free_bounds in Hn; [|eassumption]. unfold MIN in *. lia.
Qed.

Lemma rep_remove st bs l1 x l2 :
  heap_rep st bs (l1 ++ x :: l2) ->
  heap_rep (remove_block x st) bs (l1 ++ l2).
Proof.
  intros H.
  destruct (remove_block_list st l1 x l2 (rep_nodes_ok _ _ _ H) (rep_list _ _ _ H))
    as (D & F).
  assert (Hi : incl (l1 ++ l2) (frees (mem_start st + DSIZE) bs)).
  { intros n Hn. apply (rep_sub _ _ _ H). apply in_app_or in Hn. in_tac. }
  assert (F' : forall y, in_tags (mem_start st + DSIZE) bs y \/ mem_brk st - 8 <= y ->
                         mem (remove_block x st) y = mem st y).
  { intros y Hy. apply F. intros C.
    destruct (rep_links_tags _ _ _ _ _ H Hi C). destruct Hy; [tauto | lia]. }
  eapply rep_update; try eassumption.
  - apply same_meta_remove.
  - apply H.
  - eapply chain_frame; [apply H|]. auto.
  - reflexivity.
  - rewrite <- (rep_epilogue _ _ _ H). unfold GET, HDRP, WSIZE.
    apply load4_ext. intros. apply F'. lia.
  - eapply NoDup_remove_1. apply H.
Qed.

Lemma rep_insert st bs fl b :
  heap_rep st bs fl -> In b (frees (mem_start st + DSIZE) bs) -> ~ In b fl ->
  heap_rep (insert_free_block b st) bs (b :: fl).
Proof.
  intros H Hb Hn.
  assert (ND : NoDup (b :: fl)) by (constructor; [assumption | apply H]).
  assert (Hi : incl (b :: fl) (frees (mem_start st + DSIZE) bs)).
  { intros n [<-|Hn']; [assumption | apply (rep_sub _ _ _ H); assumption]. }
  destruct (insert_free_block_list st fl b (rep_nodes _ _ _ _ H ND Hi) (rep_list _ _ _ H))
    as (D & F).
  assert (F' : forall y, in_tags (mem_start st + DSIZE) bs y \/ mem_brk st - 8 <= y ->
                         mem (insert_free_block b st) y = mem st y).
  { intros y Hy. apply F. intros C.
    destruct (rep_links_tags _ _ _ _ _ H Hi C). destruct Hy; [tauto | lia]. }
  eapply rep_update; try eassumption.
  - apply same_meta_insert.
  - apply H.
  - eapply chain_frame; [apply H|]. auto.
  - reflexivity.
  - rewrite <- (rep_epilogue _ _ _ H). unfold GET, HDRP, WSIZE.
    apply load4_ext. intros. apply F'. lia.
Qed.

Lemma hd_error_app {A} (l1 l2 : list A) : l1 <> [] -> hd_error (l1 ++ l2) = hd_error l1.
Proof. destruct l1; [congruence | reflexivity]. Qed.

(* where the free blocks lie with respect to a run [mid] of the chain *)
Lemma frees_around a bs1 mid bs2 x :
  sizes_ok (bs1 ++ mid ++ bs2) -> In x (frees a (bs1 ++ mid ++ bs2)) ->
  let b := a + total bs1 in
  x + MIN <= b \/ (b <= x /\ x + MIN <= b + total mid) \/ b + total mid <= x.
Proof.
  intros Hs Hx. apply sizes_ok_app in Hs as (Hs1 & Hs). apply sizes_ok_app in Hs as (Hs2 & Hs3).
  rewrite !frees_app in Hx. apply in_app_or in Hx as [Hx|Hx]; [|apply in_app_or in Hx as [Hx|Hx]];
    apply frees_bounds in Hx; trivial; cbv zeta; lia.
Qed.

(** Rewriting the run [mid] of the chain as one block. *)
Lemma rep_retag st bs1 mid bs2 fl (al : bool) b sz :
  heap_rep st (bs1 ++ mid ++ bs2) fl ->
  bs1 <> [] -> mid <> [] ->
  b = mem_start st + DSIZE + total bs1 ->
  sz = total mid ->
  incl fl (frees (mem_start st + DSIZE) (bs1 ++ (sz, al) :: bs2)) ->
  heap_rep (put (FTRP (mem (put (HDRP b) (PACK sz (if al then 1 else 0)) st)) b)
                (PACK sz (if al then 1 else 0))
                (put (HDRP b) (PACK sz (if al then 1 else 0)) st))
           (bs1 ++ (sz, al) :: bs2) fl.
Proof.
  intros H Hne1 Hne2 Eb Esz Hi.
  pose proof (rep_sizes _ _ _ H) as Hs.
  pose proof Hs as Hs'. apply sizes_ok_app in Hs' as (Hs1 & Hs').
  apply sizes_ok_app in Hs' as (Hs2 & Hs3).
  pose proof (sizes_total_pos _ Hs2 Hne2) as Hsz. rewrite <- Esz in Hsz.
  pose proof (sizes_total_mod8 _ Hs2) as Hsz8. rewrite <- Esz in Hsz8.
  pose proof (sizes_total _ Hs1) as Ht1. pose proof (sizes_total _ Hs3) as Ht3.
  pose proof (rep_brk _ _ _ H) as Hb. rewrite !total_app in Hb. rewrite <- Esz in Hb.
  pose proof (rep_start _ _ _ H). pose proof (rep_max _ _ _ H).
  pose proof (rep_small _ _ _ H).
  unfold MIN, DSIZE in *.
  destruct (put_tags_spec st b sz al ltac:(lia) Hsz8 ltac:(lia)) as (E1 & E2 & F & Fp & M).
  pose proof (rep_chain _ _ _ H) as Hc. apply chain_app in Hc as (Hc1 & Hc).
  apply chain_app in Hc as (_ & Hc3).
  unfold DSIZE in *. rewrite <- Eb, <- Esz in Hc3.
  eapply rep_update; try eassumption.
  - rewrite hd_error_app by assumption.
    rewrite <- (rep_prologue _ _ _ H). rewrite hd_error_app by assumption. reflexivity.
  - apply chain_app. unfold DSIZE. split.
    + eapply chain_frame; [eassumption|]. intros y Hy.
      apply in_tags_span in Hy; trivial. apply F; lia.
    + rewrite <- Eb. cbn [chain]. unfold HDRP, WSIZE, DSIZE, MIN. repeat split; trivial.
      eapply chain_frame; [eassumption|]. intros y Hy.
      apply in_tags_span in Hy; trivial. apply F; lia.
  - rewrite !total_app. simpl. lia.
  - rewrite <- (rep_epilogue _ _ _ H). unfold GET, HDRP, WSIZE.
    apply load4_ext. intros. apply F; lia.
  - rewrite Fp. eapply dlseg_frame; [apply H|]. intros y (n & Hn & Hy).
    apply (rep_sub _ _ _ H) in Hn.
    apply frees_around in Hn; trivial. cbv zeta in Hn. unfold DSIZE, MIN in Hn.
    rewrite <- Eb, <- Esz in Hn. apply F; lia.
  - apply H.
Qed.

(** * Reading the neighbours of a block *)

Lemma rep_block st bs1 s al bs2 fl b :
  heap_rep st (bs1 ++ (s, al) :: bs2) fl ->
  b = mem_start st + DSIZE + total bs1 ->
  let m := mem st in
  GET_SIZE m (HDRP b) = s /\ GET_ALLOC m (HDRP b) = (if al then 1 else 0) /\
  FTRP m b = b + s - DSIZE /\ NEXT_BLKP m b = b + s /\
  GET_SIZE m (HDRP (b + s)) = head_size bs2 /\
  GET_ALLOC m (HDRP (b + s)) = (if head_alloc bs2 then 1 else 0) /\
  MIN <= s /\ s mod 8 = 0.
Proof.
  intros H Hb m.
  pose proof (rep_chain _ _ _ H) as Hc. fold m in Hc.
  destruct (chain_block _ _ _ _ _ _ Hc) as ((Hs & Hs8) & Hh & Hf). rewrite <- Hb in Hh, Hf.
  assert (E : GET_SIZE m (HDRP b) = s).
  { eapply GET_SIZE_tag; [exact Hh | unfold MIN in *; lia | assumption]. }
  assert (N : GET m (HDRP (b + s)) = next_tag bs2).
  { apply chain_app in Hc as [_ Hc]. rewrite <- Hb in Hc. cbn [chain] in Hc.
    destruct Hc as (_ & _ & _ & Hc). destruct bs2 as [|[sn aln] bs2].
    - pose proof (rep_epilogue _ _ _ H) as He. pose proof (rep_brk _ _ _ H) as Hk.
      rewrite total_app in Hk. simpl in Hk. fold m in He.
      replace (b + s) with (mem_brk st) by lia. exact He.
    - cbn [chain] in Hc. apply Hc. }
  assert (Hn : (0 <= head_size bs2 /\ head_size bs2 mod 8 = 0)).
  { pose proof (rep_sizes _ _ _ H) as Hz. apply sizes_ok_app in Hz as [_ Hz].
    inversion Hz as [|? ? _ Hz']; subst. destruct bs2 as [|[sn aln] bs2]; simpl.
    - split; [lia | reflexivity].
    - inversion Hz'; subst. simpl in *. unfold MIN in *. lia. }
  unfold FTRP, NEXT_BLKP. fold (HDRP b). rewrite E.
  repeat split; trivial.
  - eapply GET_ALLOC_tag; [exact Hh | unfold MIN in *; lia | assumption].
  - eapply GET_SIZE_tag; [exact N | apply Hn | apply Hn].
  - eapply GET_ALLOC_tag; [exact N | apply Hn | apply Hn].
Qed.

Lemma rep_prev st bs1 sp alp s al bs2 fl b :
  heap_rep st ((bs1 ++ [(sp, alp)]) ++ (s, al) :: bs2) fl ->
  b = mem_start st + DSIZE + total (bs1 ++ [(sp, alp)]) ->
  let m := mem st in
  PREV_BLKP m b = b - sp /\ GET_SIZE m (HDRP (b - sp)) = sp /\
  GET_ALLOC m (FTRP m (PREV_BLKP m b)) = (if alp then 1 else 0).
Proof.
  intros H Hb m. rewrite <- app_assoc in H. cbn [app] in H.
  rewrite total_app in Hb. simpl in Hb.
  assert (Hb' : b - sp = mem_start st + DSIZE + total bs1) by lia.
  destruct (rep_block _ _ _ _ _ _ _ H Hb') as (E1 & E2 & E3 & _ & _ & _ & Hs & Hs8).
  fold m in E1, E2, E3.
  pose proof (rep_chain _ _ _ H) as Hc. fold m in Hc.
  destruct (chain_block _ _ _ _ _ _ Hc) as (_ & Hh & Hf).
  rewrite <- Hb' in Hh, Hf.
  assert (P : PREV_BLKP m b = b - sp).
  { unfold PREV_BLKP, DSIZE in *.
    rewrite (GET_SIZE_tag m (b - 8) sp alp); [reflexivity | | unfold MIN in *; lia | assumption].
    rewrite <- Hf. f_equal. lia. }
  rewrite P. rewrite E3. repeat split; trivial.
  eapply GET_ALLOC_tag; [exact Hf | unfold MIN in *; lia | assumption].
Qed.

Lemma last_alloc_snoc bs s al : last_alloc (bs ++ [(s, al)]) = al.
Proof. unfold last_alloc. rewrite last_last. reflexivity. Qed.

Lemma rep_free_p_nonnull st bs fl x :
  heap_rep st bs fl -> In x fl -> free_p st <> NULL.
Proof.
  intros H Hx. pose proof (rep_list _ _ _ H) as D.
  destruct fl as [|h fl]; [contradiction|]. cbn [dlseg] in D.
  destruct D as (-> & Hh & _). assumption.
Qed.

(** * The four cases of coalesce *)

Lemma coalesce_none st bs1 s bs2 fl b :
  heap_rep st (bs1 ++ (s, false) :: bs2) fl -> bs1 <> [] ->
  b = mem_start st + DSIZE + total bs1 ->
  last_alloc bs1 = true -> head_alloc bs2 = true ->
  coalesce b st = (b, st).
Proof.
  intros H Hne Hb Hl Hh.
  destruct (list_last_case bs1) as [->|(bs1' & [sp alp] & ->)]; [congruence|].
  rewrite last_alloc_snoc in Hl. subst alp.
  destruct (rep_prev _ _ _ _ _ _ _ _ _ H Hb) as (P1 & P2 & P3).
  destruct (rep_block _ _ _ _ _ _ _ H Hb) as (B1 & B2 & B3 & B4 & B5 & B6 & _).
  unfold coalesce. destruct (free_p st =? NULL); [reflexivity|]. cbn [negb].
  rewrite P3, B4, B6, Hh. reflexivity.
Qed.

Lemma in_frees_mid a bs1 s al bs2 n :
  In n (frees a (bs1 ++ (s, al) :: bs2)) <->
  In n (frees a bs1) \/ (al = false /\ n = a + total bs1) \/
  In n (frees (a + total bs1 + s) bs2).
Proof.
  rewrite frees_app, in_app_iff. cbn [frees].
  destruct al; simpl; intuition congruence.
Qed.

Lemma remove_block_start x st : mem_start (remove_block x st) = mem_start st.
Proof. apply same_meta_remove. Qed.

Lemma rep_size_bound st bs fl : heap_rep st bs fl -> 0 <= total bs < 2 ^ 32.
Proof.
  intros H. pose proof (sizes_total _ (rep_sizes _ _ _ H)).
  pose proof (rep_brk _ _ _ H). pose proof (rep_max _ _ _ H).
  pose proof (rep_small _ _ _ H). pose proof (rep_start _ _ _ H).
  unfold DSIZE in *. lia.
Qed.

Lemma coalesce_prev st bs1 sp s bs2 l1 l2 b :
  heap_rep st ((bs1 ++ [(sp, false)]) ++ (s, false) :: bs2) (l1 ++ (b - sp) :: l2) ->
  bs1 <> [] ->
  b = mem_start st + DSIZE + total (bs1 ++ [(sp, false)]) ->
  head_alloc bs2 = true ->
  ~ In b (l1 ++ (b - sp) :: l2) ->
  exists st', coalesce b st = (b - sp, st') /\
              heap_rep st' (bs1 ++ (sp + s, false) :: bs2) (l1 ++ l2) /\
              (forall y, ~ (b - sp - 4 <= y < b + s - 4) -> ~ in_links (l1 ++ l2) y ->
                         mem st' y = mem st y).
Proof.
  intros H Hne Hb Hh Hnb.
  destruct (rep_prev _ _ _ _ _ _ _ _ _ H Hb) as (P1 & P2 & P3).
  destruct (rep_block _ _ _ _ _ _ _ H Hb) as (B1 & B2 & B3 & B4 & B5 & B6 & Bs & _).
  assert (Hf : free_p st <> NULL).
  { eapply rep_free_p_nonnull; [exact H|]. apply in_or_app. right. left. reflexivity. }
  pose proof (rep_size_bound _ _ _ H) as Hsz.
  pose proof (rep_sizes _ _ _ H) as Hs.
  apply sizes_ok_app in Hs as (Hs1 & Hs3). apply sizes_ok_app in Hs1 as (Hs1 & Hs2).
  pose proof (sizes_total _ Hs1) as Ht1.
  apply Forall_inv_tail in Hs3. pose proof (sizes_total _ Hs3) as Ht3.
  apply Forall_inv in Hs2 as (Hsp & _). simpl in Hsp.
  rewrite !total_app in Hsz. cbn [total] in Hsz. unfold MIN in *.
  unfold coalesce. destruct (Z.eqb_spec (free_p st) NULL) as [|_]; [contradiction|].
  cbn [negb]. rewrite P3, B4, B6, Hh. cbn [Z.eqb negb andb]. rewrite P1, P2, B1.
  rewrite w64_small by lia. replace (s + sp) with (sp + s) by lia.
  eexists. split; [reflexivity|]. split.
  2:{ intros y Hy Hl.
      assert (H8 : (sp + s) mod 8 = 0).
      { pose proof (rep_sizes _ _ _ H) as Hz. rewrite <- app_assoc in Hz.
        apply sizes_ok_app in Hz as (_ & Hz).
        pose proof (sizes_total_mod8 [(sp, false); (s, false)]) as T.
        cbn [total] in T. rewrite Z.add_0_r in T. apply T.
        constructor; [apply (Forall_inv Hz)|].
        constructor; [apply (Forall_inv (Forall_inv_tail Hz)) | constructor]. }
      destruct (put_tags_spec (remove_block (b - sp) st) (b - sp) (sp + s) false
                  ltac:(lia) H8 ltac:(lia)) as (_ & _ & F & _).
      cbv zeta in F. cbn iota in F. rewrite F by lia.
      apply (remove_block_list st l1 (b - sp) l2 (rep_nodes_ok _ _ _ H) (rep_list _ _ _ H)).
      exact Hl. }
  pose proof (rep_remove _ _ _ _ _ H) as H1.
  rewrite <- app_assoc in H1. cbn [app] in H1.
  change ((sp, false) :: (s, false) :: bs2)
    with ([(sp, false); (s, false)] ++ bs2) in H1.
  apply (rep_retag _ _ _ _ _ false _ _ H1); trivial.
  - discriminate.
  - rewrite remove_block_start. rewrite total_app in Hb. simpl in Hb. lia.
  - simpl. lia.
  - rewrite remove_block_start. intros n Hn.
    assert (Hn' : In n (l1 ++ (b - sp) :: l2)) by (apply in_app_or in Hn; in_tac).
    assert (n <> b) by congruence.
    apply (rep_sub _ _ _ H) in Hn'. rewrite <- app_assoc in Hn'. cbn [app] in Hn'.
    apply in_frees_mid in Hn'. apply in_frees_mid.
    destruct Hn' as [Hn'|[Hn'|Hn']]; auto. right. right.
    change ((s, false) :: bs2) with ([] ++ (s, false) :: bs2) in Hn'.
    apply in_frees_mid in Hn'. simpl in Hn'. rewrite total_app in Hb. simpl in Hb.
    destruct Hn' as [[]|[(_ & Hn')|Hn']]; [lia|].
    replace (mem_start st + DSIZE + total bs1 + (sp + s))
      with (mem_start st + DSIZE + total bs1 + sp + 0 + s) by lia. assumption.
Qed.

Lemma coalesce_next st bs1 s sn bs2 l1 l2 b :
  heap_rep st (bs1 ++ (s, false) :: (sn, false) :: bs2) (l1 ++ (b + s) :: l2) ->
  bs1 <> [] ->
  b = mem_start st + DSIZE + total bs1 ->
  last_alloc bs1 = true ->
  ~ In b (l1 ++ (b + s) :: l2) ->
  exists st', coalesce b st = (b, st') /\
              heap_rep st' (bs1 ++ (s + sn, false) :: bs2) (l1 ++ l2) /\
              (forall y, ~ (b - 4 <= y < b + s + sn - 4) -> ~ in_links (l1 ++ l2) y ->
                         mem st' y = mem st y).
Proof.
  intros H Hne Hb Hl Hnb.
  destruct (rep_block _ _ _ _ _ _ _ H Hb) as (B1 & B2 & B3 & B4 & B5 & B6 & Bs & _).
  assert (P3 : GET_ALLOC (mem st) (FTRP (mem st) (PREV_BLKP (mem st) b)) = 1).
  { destruct (list_last_case bs1) as [->|(bs1' & [sp alp] & ->)]; [congruence|].
    rewrite last_alloc_snoc in Hl. subst alp.
    apply (rep_prev _ _ _ _ _ _ _ _ _ H Hb). }
  assert (Hf : free_p st <> NULL).
  { eapply rep_free_p_nonnull; [exact H|]. apply in_or_app. right. left. reflexivity. }
  pose proof (rep_size_bound _ _ _ H) as Hsz.
  pose proof (rep_sizes _ _ _ H) as Hs.
  apply sizes_ok_app in Hs as (Hs1 & Hs3).
  pose proof (sizes_total _ Hs1) as Ht1.
  apply Forall_inv_tail in Hs3. pose proof Hs3 as Hs4.
  apply Forall_inv in Hs3 as (Hsn & _). simpl in Hsn.
  apply Forall_inv_tail in Hs4. pose proof (sizes_total _ Hs4) as Ht4.
  rewrite !total_app in Hsz. cbn [total] in Hsz. unfold MIN in *.
  unfold coalesce. destruct (Z.eqb_spec (free_p st) NULL) as [|_]; [contradiction|].
  cbn [negb]. rewrite P3, B4, B6. cbn [head_alloc head_size] in *.
  cbn [Z.eqb negb andb]. rewrite B1, B5.
  rewrite w64_small by lia.
  eexists. split; [reflexivity|]. split.
  2:{ intros y Hy Hl'.
      assert (H8 : (s + sn) mod 8 = 0).
      { pose proof (rep_sizes _ _ _ H) as Hz.
        apply sizes_ok_app in Hz as (_ & Hz).
        pose proof (sizes_total_mod8 [(s, false); (sn, false)]) as T.
        cbn [total] in T. rewrite Z.add_0_r in T. apply T.
        constructor; [apply (Forall_inv Hz)|].
        constructor; [apply (Forall_inv (Forall_inv_tail Hz)) | constructor]. }
      destruct (put_tags_spec (remove_block (b + s) st) b (s + sn) false
                  ltac:(lia) H8 ltac:(lia)) as (_ & _ & F & _).
      cbv zeta in F. cbn iota in F. rewrite F by lia.
      apply (remove_block_list st l1 (b + s) l2 (rep_nodes_ok _ _ _ H) (rep_list _ _ _ H)).
      exact Hl'. }
  pose proof (rep_remove _ _ _ _ _ H) as H1.
  change ((s, false) :: (sn, false) :: bs2)
    with ([(s, false); (sn, false)] ++ bs2) in H1.
  apply (rep_retag _ _ _ _ _ false _ _ H1); trivial.
  - discriminate.
  - rewrite remove_block_start. assumption.
  - simpl. lia.
  - rewrite remove_block_start. intros n Hn.
    assert (Hn' : In n (l1 ++ (b + s) :: l2)) by (apply in_app_or in Hn; in_tac).
    assert (n <> b) by congruence.
    assert (n <> b + s).
    { intros ->. pose proof (rep_nodup _ _ _ H) as ND.
      apply NoDup_remove_2 in ND. contradiction. }
    apply (rep_sub _ _ _ H) in Hn'.
    apply in_frees_mid in Hn'. apply in_frees_mid.
    destruct Hn' as [Hn'|[Hn'|Hn']]; auto. right. right.
    change ((sn, false) :: bs2) with ([] ++ (sn, false) :: bs2) in Hn'.
    apply in_frees_mid in Hn'. simpl in Hn'.
    destruct Hn' as [[]|[(_ & Hn')|Hn']]; [lia|].
    replace (mem_start st + DSIZE + total bs1 + (s + sn))
      with (mem_start st + DSIZE + total bs1 + s + 0 + sn) by lia. assumption.
Qed.

Lemma coalesce_both st bs1 sp s sn bs2 l1 l2 k1 k2 b :
  heap_rep st ((bs1 ++ [(sp, false)]) ++ (s, false) :: (sn, false) :: bs2)
           (l1 ++ (b - sp) :: l2) ->
  l1 ++ l2 = k1 ++ (b + s) :: k2 ->
  bs1 <> [] ->
  b = mem_start st + DSIZE + total (bs1 ++ [(sp, false)]) ->
  ~ In b (l1 ++ (b - sp) :: l2) ->
  exists st', coalesce b st = (b - sp, st') /\
              heap_rep st' (bs1 ++ (sp + s + sn, false) :: bs2) (k1 ++ k2) /\
              (forall y, ~ (b - sp - 4 <= y < b + s + sn - 4) -> ~ in_links (k1 ++ k2) y ->
                         mem st' y = mem st y).
Proof.
  intros H Hk Hne Hb Hnb.
  destruct (rep_prev _ _ _ _ _ _ _ _ _ H Hb) as (P1 & P2 & P3).
  destruct (rep_block _ _ _ _ _ _ _ H Hb) as (B1 & B2 & B3 & B4 & B5 & B6 & Bs & _).
  assert (Hf : free_p st <> NULL).
  { eapply rep_free_p_nonnull; [exact H|]. apply in_or_app. right. left. reflexivity. }
  pose proof (rep_size_bound _ _ _ H) as Hsz.
  pose proof (rep_sizes _ _ _ H) as Hs.
  apply sizes_ok_app in Hs as (Hs1 & Hs3). apply sizes_ok_app in Hs1 as (Hs1 & Hs2).
  pose proof (sizes_total _ Hs1) as Ht1.
  apply Forall_inv in Hs2 as (Hsp & _). simpl in Hsp.
  apply Forall_inv_tail in Hs3. pose proof Hs3 as Hs4.
  apply Forall_inv in Hs3 as (Hsn & _). simpl in Hsn.
  apply Forall_inv_tail in Hs4. pose proof (sizes_total _ Hs4) as Ht4.
  rewrite !total_app in Hsz. cbn [total] in Hsz. unfold MIN in *.
  pose proof (rep_remove _ _ _ _ _ H) as H1. rewrite Hk in H1.
  pose proof (rep_remove _ _ _ _ _ H1) as H2.
  assert (Hb1 : b = mem_start (remove_block (b - sp) st) + DSIZE
                    + total (bs1 ++ [(sp, false)]))
    by (rewrite remove_block_start; assumption).
  destruct (rep_block _ _ _ _ _ _ _ H1 Hb1) as (_ & _ & _ & B4' & _).
  assert (Hb2 : b = mem_start (remove_block (b + s) (remove_block (b - sp) st)) + DSIZE
                    + total (bs1 ++ [(sp, false)]))
    by (rewrite !remove_block_start; assumption).
  destruct (rep_prev _ _ _ _ _ _ _ _ _ H2 Hb2) as (P1' & _).
  unfold coalesce. destruct (Z.eqb_spec (free_p st) NULL) as [|_]; [contradiction|].
  cbn [negb]. rewrite P3, B4, B6. cbn [head_alloc head_size] in *.
  cbn [Z.eqb negb andb]. rewrite P1, P2, B1, B5, B4', P1'.
  rewrite (w32_small (sp + sn)) by lia. rewrite w64_small by lia.
  replace (s + (sp + sn)) with (sp + s + sn) by lia.
  eexists. split; [reflexivity|]. split.
  2:{ intros y Hy Hl.
      assert (H8 : (sp + s + sn) mod 8 = 0).
      { pose proof (rep_sizes _ _ _ H) as Hz. rewrite <- app_assoc in Hz.
        apply sizes_ok_app in Hz as (_ & Hz).
        pose proof (sizes_total_mod8 [(sp, false); (s, false); (sn, false)]) as T.
        cbn [total] in T. rewrite Z.add_0_r, !Z.add_assoc in T. apply T.
        constructor; [apply (Forall_inv Hz)|].
        constructor; [apply (Forall_inv (Forall_inv_tail Hz))|].
        constructor; [apply (Forall_inv (Forall_inv_tail (Forall_inv_tail Hz)))
                     | constructor]. }
      destruct (put_tags_spec (remove_block (b + s) (remove_block (b - sp) st)) (b - sp)
                  (sp + s + sn) false ltac:(lia) H8 ltac:(lia)) as (_ & _ & F & _).
      cbv zeta in F. cbn iota in F. rewrite F by lia.
      pose proof (rep_list _ _ _ H1) as D1.
      rewrite (proj2 (remove_block_list _ k1 (b + s) k2 (rep_nodes_ok _ _ _ H1) D1))
        by exact Hl.
      apply (remove_block_list st l1 (b - sp) l2 (rep_nodes_ok _ _ _ H) (rep_list _ _ _ H)).
      rewrite Hk. intros C. apply in_links_app in C as [C|C].
      - apply Hl. apply in_links_app. auto.
      - apply in_links_cons in C as [C|C]; [lia|].
        apply Hl. apply in_links_app. auto. }
  rewrite <- app_assoc in H2. cbn [app] in H2.
  change ((sp, false) :: (s, false) :: (sn, false) :: bs2)
    with ([(sp, false); (s, false); (sn, false)] ++ bs2) in H2.
  apply (rep_retag _ _ _ _ _ false _ _ H2); trivial.
  - discriminate.
  - rewrite !remove_block_start. rewrite total_app in Hb. simpl in Hb. lia.
  - simpl. lia.
  - rewrite !remove_block_start. intros n Hn.
    assert (Hn1 : In n (l1 ++ l2)) by (rewrite Hk; apply in_app_or in Hn; in_tac).
    assert (Hn' : In n (l1 ++ (b - sp) :: l2)) by (apply in_app_or in Hn1; in_tac).
    assert (n <> b) by congruence.
    assert (n <> b + s).
    { intros ->. pose proof (rep_nodup _ _ _ H1) as ND.
      apply NoDup_remove_2 in ND. contradiction. }
    apply (rep_sub _ _ _ H) in Hn'. rewrite <- app_assoc in Hn'. cbn [app] in Hn'.
    apply in_frees_mid in Hn'. apply in_frees_mid.
    destruct Hn' as [Hn'|[Hn'|Hn']]; auto. right. right.
    change ((s, false) :: (sn, false) :: bs2)
      with ([] ++ (s, false) :: (sn, false) :: bs2) in Hn'.
    apply in_frees_mid in Hn'. simpl in Hn'. rewrite total_app in Hb. simpl in Hb.
    destruct Hn' as [[]|[(_ & Hn')|[Hn'|Hn']]]; [lia|lia|].
    replace (mem_start st + DSIZE + total bs1 + (sp + s + sn))
      with (mem_start st + DSIZE + total bs1 + sp + 0 + s + sn) by lia. assumption.
Qed.

(** * Neighbouring free blocks *)

Lemma naf_cons s al bs :
  no_adjacent_free ((s, al) :: bs) = (al || head_alloc bs) && no_adjacent_free bs.
Proof.
  destruct bs as [|[s2 al2] bs]; cbn [no_adjacent_free head_alloc].
  - rewrite orb_true_r. reflexivity.
  - reflexivity.
Qed.

Lemma last_alloc_cons b bs : bs <> [] -> last_alloc (b :: bs) = last_alloc bs.
Proof. intros H. unfold last_alloc. destruct bs; [congruence | reflexivity]. Qed.

Lemma naf_app bs1 bs2 :
  no_adjacent_free (bs1 ++ bs2)
  = no_adjacent_free bs1 && no_adjacent_free bs2 && (last_alloc bs1 || head_alloc bs2).
Proof.
  induction bs1 as [|[s al] bs1 IH].
  - unfold last_alloc. cbn [app no_adjacent_free last snd andb orb].
    destruct (no_adjacent_free bs2); reflexivity.
  - change (((s, al) :: bs1) ++ bs2) with ((s, al) :: (bs1 ++ bs2)).
    rewrite !naf_cons, IH. destruct bs1 as [|[s' al'] bs1].
    + unfold last_alloc. cbn [app no_adjacent_free last snd andb orb head_alloc].
      destruct al, (head_alloc bs2), (no_adjacent_free bs2); reflexivity.
    + change (last_alloc ((s, al) :: (s', al') :: bs1))
        with (last_alloc ((s', al') :: bs1)).
      cbn [app head_alloc].
      btauto.
Qed.

Lemma naf_around bs1 s bs2 :
  no_adjacent_free (bs1 ++ (s, false) :: bs2) = true <->
  no_adjacent_free bs1 = true /\ no_adjacent_free bs2 = true /\
  last_alloc bs1 = true /\ head_alloc bs2 = true.
Proof.
  rewrite naf_app, naf_cons. cbn [head_alloc orb].
  rewrite !andb_true_iff, orb_false_r. tauto.
Qed.

Lemma insert_start b st : mem_start (insert_free_block b st) = mem_start st.
Proof. apply same_meta_insert. Qed.

Lemma coalesce_start b st b' st' : coalesce b st = (b', st') -> mem_start st' = mem_start st.
Proof.
  intros E. pose proof (same_meta_coalesce b st) as M. rewrite E in M. apply M.
Qed.

Lemma head_alloc_false bs :
  head_alloc bs = false -> exists sn bs', bs = (sn, false) :: bs'.
Proof. destruct bs as [|[sn []] bs]; simpl; try discriminate. eauto. Qed.

Lemma last_alloc_false bs :
  last_alloc bs = false -> exists bs' sp, bs = bs' ++ [(sp, false)].
Proof.
  intros H. destruct (list_last_case bs) as [->|(bs' & [sp alp] & ->)]; [discriminate|].
  rewrite last_alloc_snoc in H. subst. eauto.
Qed.

(** * Coalescing and reinserting a fresh free block

    The block at [b] has just been marked free and is not on the free list;
    everything else is well formed.  coalesce followed by insert_free_block
    restores the invariant. *)
Lemma rep_insert_frame st bs fl b y :
  heap_rep st bs fl -> In b (frees (mem_start st + DSIZE) bs) -> ~ In b fl ->
  ~ in_links (b :: fl) y -> mem (insert_free_block b st) y = mem st y.
Proof.
  intros H Hb Hn.
  assert (ND : NoDup (b :: fl)) by (constructor; [assumption | apply H]).
  assert (Hi : incl (b :: fl) (frees (mem_start st + DSIZE) bs)).
  { intros n [<-|Hn']; [assumption | apply (rep_sub _ _ _ H); assumption]. }
  apply (insert_free_block_list st fl b (rep_nodes _ _ _ _ H ND Hi) (rep_list _ _ _ H)).
Qed.

(* a run of free blocks *)
Lemma in_links_incl l l' y : incl l l' -> in_links l y -> in_links l' y.
Proof. intros Hi (x & Hx & Hy). exists x. auto. Qed.

Lemma coalesce_insert_wf st bs1 s bs2 fl b :
  heap_rep st (bs1 ++ (s, false) :: bs2) fl ->
  bs1 <> [] -> b = mem_start st + DSIZE + total bs1 -> ~ In b fl ->
  (forall x, In x (frees (mem_start st + DSIZE) (bs1 ++ (s, false) :: bs2)) ->
             x = b \/ In x fl) ->
  no_adjacent_free bs1 = true -> no_adjacent_free bs2 = true ->
  exists b' st' bs' fl',
    coalesce b st = (b', st') /\
    heap_wf (insert_free_block b' st') bs' (b' :: fl') /\
    (exists bs1' s' bs2',
        bs' = bs1' ++ (s', false) :: bs2' /\ bs1' <> [] /\
        b' = mem_start st + DSIZE + total bs1' /\ s <= s' /\
        total bs' = total (bs1 ++ (s, false) :: bs2)) /\
    incl fl' fl /\
    (last_alloc bs1 = true -> head_alloc bs2 = true ->
     b' = b /\ st' = st /\ bs' = bs1 ++ (s, false) :: bs2 /\ fl' = fl) /\
    (exists pre mid post,
        bs1 ++ (s, false) :: bs2 = pre ++ mid ++ post /\
        bs' = pre ++ (total mid, false) :: post /\
        Forall (fun x : blk => snd x = false) mid /\ pre <> [] /\
        b' = mem_start st + DSIZE + total pre /\ b' <= b /\ b + s <= b' + total mid /\
        (last_alloc bs1 = true -> b' = b) /\
        (forall y, ~ (b' - 4 <= y < b' + total mid - 4) -> ~ in_links fl y ->
                   mem (insert_free_block b' st') y = mem st y)).
Proof.
  intros H Hne Hb Hnb Hall N1 N2.
  pose proof (rep_sizes _ _ _ H) as Hs.
  assert (Hss : MIN <= s).
  { pose proof Hs as Hz. apply sizes_ok_app in Hz as (_ & Hz).
    apply Forall_inv in Hz. apply Hz. }
  destruct (last_alloc bs1) eqn:L1; destruct (head_alloc bs2) eqn:L2.
  - (* both neighbours allocated *)
    assert (Hin : In b (frees (mem_start st + DSIZE) (bs1 ++ (s, false) :: bs2))).
    { apply in_frees_mid. auto. }
    exists b, st, (bs1 ++ (s, false) :: bs2), fl.
    split; [eapply coalesce_none; eassumption|].
    split; [|split; [exists bs1, s, bs2; repeat split; trivial; lia
                    |split; [apply incl_refl | split; [auto|]]]].
    + split; [|split].
      * apply rep_insert; trivial.
      * rewrite insert_start. intros x Hx. apply Hall in Hx. simpl. intuition.
      * apply naf_around. auto.
    + exists bs1, [(s, false)], bs2. cbn [total app]. rewrite Z.add_0_r.
      repeat split; trivial; try lia; try discriminate; [repeat constructor|].
      intros y Hy Hl. apply (rep_insert_frame st _ fl b y H Hin Hnb).
      intros C. apply in_links_cons in C as [C|C]; [unfold MIN in *; lia | contradiction].
  - (* the next block is free *)
    apply head_alloc_false in L2 as (sn & bs2' & ->).
    assert (Hnx : In (b + s) fl).
    { destruct (Hall (b + s)) as [E|E]; trivial.
      - apply in_frees_mid. right. right.
        change ((sn, false) :: bs2') with ([] ++ (sn, false) :: bs2').
        apply in_frees_mid. right. left. simpl. split; [reflexivity | lia].
      - unfold MIN in *. lia. }
    apply in_split in Hnx as (l1 & l2 & ->).
    destruct (coalesce_next _ _ _ _ _ _ _ _ H Hne Hb L1 Hnb) as (st' & E & H' & Fc).
    pose proof (coalesce_start _ _ _ _ E) as Es.
    exists b, st', (bs1 ++ (s + sn, false) :: bs2'), (l1 ++ l2).
    split; [exact E|].
    assert (Hs2 : 0 <= sn).
    { apply sizes_ok_app in Hs as (_ & Hs). apply Forall_inv_tail in Hs.
      apply Forall_inv in Hs. simpl in Hs. unfold MIN in *. lia. }
    assert (Hin : In b (frees (mem_start st' + DSIZE) (bs1 ++ (s + sn, false) :: bs2'))).
    { rewrite Es. apply in_frees_mid. auto. }
    assert (Hni : ~ In b (l1 ++ l2)).
    { intros C. apply Hnb. apply in_app_or in C. in_tac. }
    assert (Hsub : incl (l1 ++ l2) (l1 ++ (b + s) :: l2)).
    { intros x Hx. apply in_app_or in Hx. in_tac. }
    split; [|split; [exists bs1, (s + sn), bs2'; repeat split; trivial;
                     [lia | rewrite !total_app; simpl; lia]
                    | split; [exact Hsub
                             | split; [simpl; discriminate|]]]].
    + split; [|split].
      * apply rep_insert; trivial.
      * rewrite insert_start, Es. intros x Hx.
        assert (Hx' : In x (frees (mem_start st + DSIZE)
                                  (bs1 ++ (s, false) :: (sn, false) :: bs2'))).
        { apply in_frees_mid in Hx. apply in_frees_mid.
          destruct Hx as [Hx|[Hx|Hx]]; auto. right. right.
          change ((sn, false) :: bs2') with ([] ++ (sn, false) :: bs2').
          apply in_frees_mid. right. right. simpl.
          replace (mem_start st + DSIZE + total bs1 + s + 0 + sn)
            with (mem_start st + DSIZE + total bs1 + (s + sn)) by lia. assumption. }
        assert (x <> b + s).
        { intros ->. apply in_frees_mid in Hx.
          apply sizes_ok_app in Hs as (Hs1 & Hs).
          pose proof Hs as Hs'. apply Forall_inv in Hs'. simpl in Hs'.
          apply Forall_inv_tail in Hs. pose proof Hs as Hs''.
          apply Forall_inv in Hs''. simpl in Hs''. apply Forall_inv_tail in Hs.
          unfold MIN in *.
          destruct Hx as [Hx|[Hx|Hx]].
          - apply frees_bounds in Hx; trivial. unfold MIN in *. lia.
          - lia.
          - apply frees_bounds in Hx; trivial. lia. }
        apply Hall in Hx' as [->|Hx']; [simpl; auto|].
        right. apply in_app_or in Hx'. apply in_or_app. simpl in Hx'. intuition congruence.
      * apply naf_around. rewrite naf_cons in N2. cbn [orb] in N2.
        apply andb_true_iff in N2 as (N2 & N3). auto.
    + exists bs1, [(s, false); (sn, false)], bs2'. cbn [total app]. rewrite Z.add_0_r.
      repeat split; trivial; try lia; try discriminate; [repeat constructor|].
      intros y Hy Hl. rewrite (rep_insert_frame st' _ (l1 ++ l2) b y H' Hin Hni).
      * apply Fc; [lia|]. intros C. apply Hl. eapply in_links_incl; eassumption.
      * intros C. apply in_links_cons in C as [C|C]; [unfold MIN in *; lia|].
        apply Hl. eapply in_links_incl; eassumption.
  - (* the previous block is free *)
    apply last_alloc_false in L1 as (bs1' & sp & ->).
    assert (Hsp : MIN <= sp).
    { apply sizes_ok_app in Hs as (Hs & _). apply sizes_ok_app in Hs as (_ & Hs).
      apply Forall_inv in Hs. apply Hs. }
    assert (Hne' : bs1' <> []).
    { intros ->. pose proof (rep_prologue _ _ _ H) as P. simpl in P. congruence. }
    rewrite total_app in Hb. simpl in Hb.
    assert (Hpv : In (b - sp) fl).
    { destruct (Hall (b - sp)) as [E|E]; trivial.
      - rewrite <- app_assoc. cbn [app]. apply in_frees_mid. right. left.
        split; [reflexivity | lia].
      - unfold MIN in *. lia. }
    apply in_split in Hpv as (l1 & l2 & ->).
    assert (Hb' : b = mem_start st + DSIZE + total (bs1' ++ [(sp, false)]))
      by (rewrite total_app; simpl; lia).
    destruct (coalesce_prev _ _ _ _ _ _ _ _ H Hne' Hb' L2 Hnb) as (st' & E & H' & Fc).
    pose proof (coalesce_start _ _ _ _ E) as Es.
    exists (b - sp), st', (bs1' ++ (sp + s, false) :: bs2), (l1 ++ l2).
    split; [exact E|].
    assert (Hin : In (b - sp) (frees (mem_start st' + DSIZE)
                                     (bs1' ++ (sp + s, false) :: bs2))).
    { rewrite Es. apply in_frees_mid. right. left. split; [reflexivity | lia]. }
    assert (Hni : ~ In (b - sp) (l1 ++ l2)).
    { pose proof (rep_nodup _ _ _ H) as ND. apply NoDup_remove_2 in ND. exact ND. }
    assert (Hsub : incl (l1 ++ l2) (l1 ++ (b - sp) :: l2)).
    { intros x Hx. apply in_app_or in Hx. in_tac. }
    split; [|split; [exists bs1', (sp + s), bs2; repeat split; trivial;
                     [lia | unfold MIN in *; lia | rewrite !total_app; simpl; lia]
                    | split; [exact Hsub
                             | split; [discriminate|]]]].
    + split; [|split].
      * apply rep_insert; trivial.
      * rewrite insert_start, Es. intros x Hx.
        assert (Hx' : In x (frees (mem_start st + DSIZE)
                                  ((bs1' ++ [(sp, false)]) ++ (s, false) :: bs2))).
        { rewrite <- app_assoc. cbn [app].
          apply in_frees_mid in Hx. apply in_frees_mid.
          destruct Hx as [Hx|[Hx|Hx]]; auto. right. right.
          change ((s, false) :: bs2) with ([] ++ (s, false) :: bs2).
          apply in_frees_mid. right. right. simpl.
          replace (mem_start st + DSIZE + total bs1' + sp + 0 + s)
            with (mem_start st + DSIZE + total bs1' + (sp + s)) by lia. assumption. }
        assert (x <> b).
        { intros ->. apply in_frees_mid in Hx.
          apply sizes_ok_app in Hs as (Hs1 & Hs). apply sizes_ok_app in Hs1 as (Hs1 & _).
          pose proof Hs as Hs'. apply Forall_inv in Hs'. simpl in Hs'.
          apply Forall_inv_tail in Hs. unfold MIN in *.
          destruct Hx as [Hx|[Hx|Hx]].
          - apply frees_bounds in Hx; trivial. unfold MIN in *. lia.
          - lia.
          - apply frees_bounds in Hx; trivial. lia. }
        apply Hall in Hx' as [->|Hx']; [congruence|].
        apply in_app_or in Hx'. simpl in Hx'. simpl. rewrite in_app_iff. intuition.
      * apply naf_around. change [(sp, false)] with ([] ++ [(sp, false)]) in N1.
        rewrite app_nil_l in N1. apply naf_around in N1. tauto.
    + exists bs1', [(sp, false); (s, false)], bs2. cbn [total app]. rewrite Z.add_0_r.
      rewrite <- app_assoc. cbn [app].
      repeat split; trivial; try (unfold MIN in *; lia); try discriminate;
        [repeat constructor|].
      intros y Hy Hl.
      rewrite (rep_insert_frame st' _ (l1 ++ l2) (b - sp) y H' Hin Hni).
      * apply Fc; [lia|]. intros C. apply Hl. eapply in_links_incl; eassumption.
      * intros C. apply in_links_cons in C as [C|C]; [unfold MIN in *; lia|].
        apply Hl. eapply in_links_incl; eassumption.
  - (* both neighbours are free *)
    apply last_alloc_false in L1 as (bs1' & sp & ->).
    apply head_alloc_false in L2 as (sn & bs2' & ->).
    assert (Hsp : MIN <= sp).
    { apply sizes_ok_app in Hs as (Hs & _). apply sizes_ok_app in Hs as (_ & Hs).
      apply Forall_inv in Hs. apply Hs. }
    assert (Hs2 : MIN <= s /\ MIN <= sn).
    { apply sizes_ok_app in Hs as (_ & Hs). pose proof Hs as Hs'.
      apply Forall_inv in Hs'. apply Forall_inv_tail in Hs.
      apply Forall_inv in Hs. simpl in *. tauto. }
    assert (Hne' : bs1' <> []).
    { intros ->. pose proof (rep_prologue _ _ _ H) as P. simpl in P. congruence. }
    rewrite total_app in Hb. simpl in Hb. unfold MIN in *.
    assert (Hpv : In (b - sp) fl).
    { destruct (Hall (b - sp)) as [E|E]; trivial.
      - rewrite <- app_assoc. cbn [app]. apply in_frees_mid. right. left.
        split; [reflexivity | lia].
      - lia. }
    assert (Hnx : In (b + s) fl).
    { destruct (Hall (b + s)) as [E|E]; trivial.
      - apply in_frees_mid. right. right.
        change ((sn, false) :: bs2') with ([] ++ (sn, false) :: bs2').
        apply in_frees_mid. right. left. rewrite total_app. simpl.
        split; [reflexivity | lia].
      - lia. }
    apply in_split in Hpv as (l1 & l2 & ->).
    assert (Hnx' : In (b + s) (l1 ++ l2)).
    { apply in_app_or in Hnx. apply in_or_app. simpl in Hnx.
      destruct Hnx as [?|[?|?]]; auto. lia. }
    apply in_split in Hnx' as (k1 & k2 & Hk).
    assert (Hb' : b = mem_start st + DSIZE + total (bs1' ++ [(sp, false)]))
      by (rewrite total_app; simpl; lia).
    destruct (coalesce_both _ _ _ _ _ _ _ _ _ _ _ H Hk Hne' Hb' Hnb) as (st' & E & H' & Fc).
    pose proof (coalesce_start _ _ _ _ E) as Es.
    exists (b - sp), st', (bs1' ++ (sp + s + sn, false) :: bs2'), (k1 ++ k2).
    split; [exact E|].
    pose proof (rep_nodup _ _ _ H) as ND.
    assert (Hsub : incl (k1 ++ k2) (l1 ++ l2)).
    { rewrite Hk. intros x Hx. apply in_app_or in Hx. in_tac. }
    assert (Hsub' : incl (k1 ++ k2) (l1 ++ (b - sp) :: l2)).
    { intros x Hx. apply Hsub in Hx. apply in_app_or in Hx. in_tac. }
    assert (Hin : In (b - sp) (frees (mem_start st' + DSIZE)
                                     (bs1' ++ (sp + s + sn, false) :: bs2'))).
    { rewrite Es. apply in_frees_mid. right. left. split; [reflexivity | lia]. }
    assert (Hni : ~ In (b - sp) (k1 ++ k2)).
    { intros C. apply Hsub in C. apply NoDup_remove_2 in ND. contradiction. }
    split; [|split; [exists bs1', (sp + s + sn), bs2'; repeat split; trivial;
                     [lia | lia | rewrite !total_app; simpl; lia]
                    | split; [exact Hsub'
                             | split; [discriminate|]]]].
    + split; [|split].
      * apply rep_insert; trivial.
      * rewrite insert_start, Es. intros x Hx.
        assert (Hx' : In x (frees (mem_start st + DSIZE)
                       ((bs1' ++ [(sp, false)]) ++ (s, false) :: (sn, false) :: bs2'))).
        { rewrite <- app_assoc. cbn [app].
          apply in_frees_mid in Hx. apply in_frees_mid.
          destruct Hx as [Hx|[Hx|Hx]]; auto. right. right.
          change ((s, false) :: (sn, false) :: bs2')
            with ([(s, false)] ++ (sn, false) :: bs2').
          apply in_frees_mid. right. right. simpl.
          replace (mem_start st + DSIZE + total bs1' + sp + (s + 0) + sn)
            with (mem_start st + DSIZE + total bs1' + (sp + s + sn)) by lia. assumption. }
        assert (x <> b /\ x <> b + s).
        { apply in_frees_mid in Hx.
          apply sizes_ok_app in Hs as (Hs1 & Hs). apply sizes_ok_app in Hs1 as (Hs1 & _).
          apply Forall_inv_tail in Hs. apply Forall_inv_tail in Hs.
          destruct Hx as [Hx|[Hx|Hx]].
          - apply frees_bounds in Hx; trivial. unfold MIN in *. lia.
          - lia.
          - apply frees_bounds in Hx; trivial. lia. }
        apply Hall in Hx' as [->|Hx']; [tauto|].
        apply in_app_or in Hx'. simpl in Hx'.
        destruct Hx' as [Hx'|[Hx'|Hx']]; [| simpl; auto |].
        -- right. assert (Hx2 : In x (l1 ++ l2)) by in_tac.
           rewrite Hk in Hx2. apply in_app_or in Hx2. simpl in Hx2.
           apply in_or_app. intuition congruence.
        -- right. assert (Hx2 : In x (l1 ++ l2)) by in_tac.
           rewrite Hk in Hx2. apply in_app_or in Hx2. simpl in Hx2.
           apply in_or_app. intuition congruence.
      * apply naf_around. change [(sp, false)] with ([] ++ [(sp, false)]) in N1.
        rewrite app_nil_l in N1. apply naf_around in N1.
        rewrite naf_cons in N2. cbn [orb] in N2.
        apply andb_true_iff in N2 as (N2 & N3). tauto.
    + exists bs1', [(sp, false); (s, false); (sn, false)], bs2'.
      cbn [total app]. rewrite Z.add_0_r, !Z.add_assoc.
      rewrite <- app_assoc. cbn [app].
      repeat split; trivial; try lia; try discriminate; [repeat constructor|].
      intros y Hy Hl.
      rewrite (rep_insert_frame st' _ (k1 ++ k2) (b - sp) y H' Hin Hni).
      * apply Fc; [lia|]. intros C. apply Hl. eapply in_links_incl; eassumption.
      * intros C. apply in_links_cons in C as [C|C]; [lia|].
        apply Hl. eapply in_links_incl; eassumption.
Qed.

(** * free keeps the heap well formed *)

Lemma rep_listp_nonnull st bs fl : heap_rep st bs fl -> heap_listp st <> 0.
Proof.
  intros H. rewrite (rep_listp _ _ _ H). pose proof (rep_start _ _ _ H).
  unfold DSIZE. lia.
Qed.

Lemma alloc_not_free a bs1 s bs2 :
  sizes_ok (bs1 ++ (s, true) :: bs2) ->
  ~ In (a + total bs1) (frees a (bs1 ++ (s, true) :: bs2)).
Proof.
  intros Hs Hin. apply sizes_ok_app in Hs as (Hs1 & Hs).
  pose proof (Forall_inv Hs) as (Hsz & _). apply Forall_inv_tail in Hs.
  simpl in Hsz. unfold MIN in *.
  apply in_frees_mid in Hin as [Hin|[(? & _)|Hin]]; try discriminate;
    apply frees_bounds in Hin; trivial; unfold MIN in *; lia.
Qed.

Lemma free_wf fuel st bs fl bp sz :
  heap_wf st bs fl ->
  block_at (mem_start st + DSIZE) bs bp sz true ->
  exists st' bs' fl',
    free fuel bp st = Ret st' /\ heap_wf st' bs' fl' /\ total bs' = total bs /\
    same_meta st st'.
Proof.
  intros (H & Hall & Hnaf) (bs1 & bs2 & -> & Hb & Hne).
  pose proof (rep_sizes _ _ _ H) as Hs.
  pose proof (rep_start _ _ _ H) as H0.
  pose proof (sizes_total _ (proj1 (proj1 (sizes_ok_app _ _) Hs))) as Ht1.
  destruct (rep_block _ _ _ _ _ _ _ H Hb) as (B1 & _).
  unfold free. destruct (Z.eqb_spec bp 0) as [E|_]; [unfold DSIZE in *; lia|].
  rewrite lazy_init_done by (eapply rep_listp_nonnull; eassumption). cbn [bind].
  rewrite B1.
  change ((sz, true) :: bs2) with ([(sz, true)] ++ bs2) in H.
  assert (Hi : incl fl (frees (mem_start st + DSIZE) (bs1 ++ (sz, false) :: bs2))).
  { intros n Hn. apply (rep_sub _ _ _ H) in Hn.
    apply in_frees_mid in Hn. apply in_frees_mid.
    destruct Hn as [Hn|[(? & _)|Hn]]; auto. discriminate. }
  pose proof (rep_retag _ _ _ _ _ false bp sz H Hne ltac:(discriminate) Hb
                ltac:(simpl; lia) Hi) as H2.
  cbn iota in H2.
  set (st2 := put _ _ (put _ _ st)) in *.
  assert (Es : mem_start st2 = mem_start st) by reflexivity.
  rewrite naf_app, naf_cons in Hnaf.
  rewrite !andb_true_iff in Hnaf. destruct Hnaf as ((N1 & (_ & N2)) & _).
  destruct (coalesce_insert_wf st2 bs1 sz bs2 fl bp H2 Hne) as
    (b' & st' & bs' & fl' & Ec & Hwf & (bs1' & s' & bs2' & -> & _ & _ & _ & Ht) & _ & _);
    trivial.
  - intros C. apply (rep_sub _ _ _ H) in C. subst bp.
    revert C. apply alloc_not_free. exact Hs.
  - rewrite Es. intros x Hx. apply in_frees_mid in Hx.
    destruct Hx as [Hx|[(_ & Hx)|Hx]]; [right|left; congruence|right];
      apply Hall; apply in_frees_mid; auto.
  - rewrite Ec. eexists _, _, _. split; [reflexivity|]. split; [exact Hwf|].
    split.
    + rewrite Ht, !total_app. reflexivity.
    + eapply same_meta_trans; [|apply same_meta_insert].
      pose proof (same_meta_coalesce bp st2) as M. rewrite Ec in M. exact M.
Qed.

(* well-formedness of a concrete heap, by evaluation *)
Ltac wf_compute :=
  split; [constructor | split];
  first [ solve [vm_compute; intuition congruence]
        | solve [repeat constructor; simpl; intuition lia]
        | solve [vm_compute; intros ?; simpl; tauto] ].

Lemma st_one_wf : heap_wf st_one [(24, true); (24, true); (4072, false)] [65592].
Proof. wf_compute. Qed.



(** * Rebuilding the invariant after a change inside a run of blocks *)

Lemma rep_rebuild st st' bs1 mid mid' bs2 fl fl' b L :
  heap_rep st (bs1 ++ mid ++ bs2) fl ->
  same_meta st st' ->
  bs1 <> [] ->
  b = mem_start st + DSIZE + total bs1 ->
  total mid' = total mid ->
  chain (mem st') b mid' ->
  incl L (frees (mem_start st + DSIZE) (bs1 ++ mid ++ bs2)) ->
  (forall y, ~ (b - 4 <= y < b + total mid - 4) -> ~ in_links L y ->
             mem st' y = mem st y) ->
  dlseg (mem st') NULL (free_p st') fl' NULL -> NoDup fl' ->
  incl fl' (frees (mem_start st + DSIZE) (bs1 ++ mid' ++ bs2)) ->
  heap_rep st' (bs1 ++ mid' ++ bs2) fl'.
Proof.
  intros H M Hne Hb Ht Hc HL F D ND Hi.
  pose proof (rep_sizes _ _ _ H) as Hs.
  pose proof Hs as Hs'. apply sizes_ok_app in Hs' as (Hs1 & Hs').
  apply sizes_ok_app in Hs' as (Hs2 & Hs3).
  pose proof (sizes_total _ Hs2) as Ht2. pose proof (sizes_total _ Hs3) as Ht3.
  pose proof (rep_brk _ _ _ H) as Hk. rewrite !total_app in Hk.
  pose proof (rep_chain _ _ _ H) as C. pose proof C as C'.
  apply chain_app in C' as (C1 & C'). apply chain_app in C' as (_ & C3).
  rewrite <- Hb in C3.
  assert (F' : forall y, in_tags (mem_start st + DSIZE) bs1 y \/
                         in_tags (b + total mid) bs2 y \/ mem_brk st - 4 <= y ->
                         mem st' y = mem st y).
  { intros y Hy. apply F.
    - destruct Hy as [Hy|[Hy|Hy]].
      + apply in_tags_span in Hy; trivial. lia.
      + apply in_tags_span in Hy; trivial. lia.
      + unfold DSIZE in *. lia.
    - intros CL. destruct (rep_links_tags _ _ _ _ _ H HL CL) as (T1 & T2).
      destruct Hy as [Hy|[Hy|Hy]]; [| |lia]; apply T1.
      + apply in_tags_app. auto.
      + apply in_tags_app. right. apply in_tags_app. right. rewrite <- Hb. exact Hy. }
  eapply rep_update; try eassumption.
  - rewrite hd_error_app by assumption.
    rewrite <- (rep_prologue _ _ _ H). rewrite hd_error_app by assumption. reflexivity.
  - apply chain_app. split.
    + eapply chain_frame; [eassumption|]. auto.
    + rewrite <- Hb. apply chain_app. split; [assumption|]. rewrite Ht.
      eapply chain_frame; [eassumption|]. auto.
  - rewrite !total_app. lia.
  - rewrite <- (rep_epilogue _ _ _ H). unfold GET, HDRP, WSIZE.
    apply load4_ext. intros. apply F'. right. right. lia.
Qed.

Lemma free_node_position a bs1 c bs2 n :
  sizes_ok (bs1 ++ (c, false) :: bs2) ->
  In n (frees a (bs1 ++ (c, false) :: bs2)) -> n <> a + total bs1 ->
  (In n (frees a bs1) /\ n + MIN <= a + total bs1) \/
  (In n (frees (a + total bs1 + c) bs2) /\ a + total bs1 + c <= n).
Proof.
  intros Hs Hn Hne. apply sizes_ok_app in Hs as (Hs1 & Hs). apply Forall_inv_tail in Hs.
  apply in_frees_mid in Hn as [Hn|[(_ & Hn)|Hn]]; [left|congruence|right];
    (split; [assumption|]); apply frees_bounds in Hn; trivial; lia.
Qed.

(** * Placement *)

Lemma place_tags_dlseg st bs1 c bs2 fl bp sz (al : bool) :
  heap_rep st (bs1 ++ (c, false) :: bs2) fl ->
  bp = mem_start st + DSIZE + total bs1 ->
  MIN <= sz <= c -> sz mod 8 = 0 ->
  dlseg (mem (put (FTRP (mem (put (HDRP bp) (PACK sz (if al then 1 else 0)) st)) bp)
                  (PACK sz (if al then 1 else 0))
                  (put (HDRP bp) (PACK sz (if al then 1 else 0)) st)))
        NULL (free_p st) fl NULL.
Proof.
  intros H Hb Hsz Hsz8.
  pose proof (rep_size_bound _ _ _ H) as Hbd. rewrite total_app in Hbd. cbn [total] in Hbd.
  pose proof (rep_sizes _ _ _ H) as Hs.
  pose proof Hs as Hs'. apply sizes_ok_app in Hs' as (Hs1 & Hs').
  apply Forall_inv_tail in Hs'.
  pose proof (sizes_total _ Hs1). pose proof (sizes_total _ Hs').
  unfold MIN in *.
  destruct (put_tags_spec st bp sz al ltac:(lia) Hsz8 ltac:(lia)) as (_ & _ & F & _).
  eapply dlseg_frame; [apply H|]. intros y (n & Hn & Hy).
  apply (rep_sub _ _ _ H) in Hn.
  apply in_frees_mid in Hn as [Hn|[(_ & Hn)|Hn]].
  - apply frees_bounds in Hn; trivial. unfold MIN in *. apply F; lia.
  - apply F; lia.
  - apply frees_bounds in Hn; trivial. apply F; lia.
Qed.

(** The remainder would be smaller than MIN: the whole block is allocated and
    leaves the free list. *)
Lemma place_whole_frame st bs1 c bs2 l1 l2 bp asize :
  heap_wf st (bs1 ++ (c, false) :: bs2) (l1 ++ bp :: l2) ->
  bs1 <> [] -> bp = mem_start st + DSIZE + total bs1 ->
  0 <= asize <= c -> c - asize < MIN ->
  heap_wf (place bp asize st) (bs1 ++ (c, true) :: bs2) (l1 ++ l2) /\
  (forall y, ~ (bp - 4 <= y < bp + c - 4) -> ~ in_links (l1 ++ l2) y ->
             mem (place bp asize st) y = mem st y).
Proof.
  intros (H & Hall & Hnaf) Hne Hb Ha Hlt.
  pose proof (rep_size_bound _ _ _ H) as Hbd. rewrite total_app in Hbd. cbn [total] in Hbd.
  pose proof (rep_sizes _ _ _ H) as Hs.
  pose proof Hs as Hs'. apply sizes_ok_app in Hs' as (Hs1 & Hs').
  pose proof (Forall_inv Hs') as (Hc & Hc8). simpl in Hc, Hc8.
  apply Forall_inv_tail in Hs'.
  pose proof (sizes_total _ Hs1) as Ht1. pose proof (sizes_total _ Hs') as Ht2.
  destruct (rep_block _ _ _ _ _ _ _ H Hb) as (B1 & _).
  unfold place. rewrite B1. rewrite w64_small by lia.
  destruct (Z.geb_spec (c - asize) MIN) as [|_]; [lia|].
  unfold MIN in *.
  pose proof (place_tags_dlseg _ _ _ _ _ _ c true H Hb ltac:(unfold MIN; lia) Hc8) as D2.
  destruct (put_tags_spec st bp c true ltac:(lia) Hc8 ltac:(lia)) as (E1 & E2 & F & Fp & M).
  cbn iota in *.
  set (st2 := put _ _ (put _ _ st)) in *.
  rewrite <- Fp in D2.
  destruct (remove_block_list st2 l1 bp l2 (rep_nodes_ok _ _ _ H) D2) as (D3 & F3).
  pose proof (rep_nodup _ _ _ H) as ND.
  assert (Hpos : forall n, In n (l1 ++ l2) ->
                   (In n (frees (mem_start st + DSIZE) bs1) /\ n + 24 <= bp) \/
                   (In n (frees (bp + c) bs2) /\ bp + c <= n)).
  { intros n Hn. rewrite Hb.
    apply free_node_position; trivial.
    - apply (rep_sub _ _ _ H). apply in_app_or in Hn. in_tac.
    - rewrite <- Hb. intros ->. apply NoDup_remove_2 in ND. contradiction. }
  assert (Hnl : forall y, bp - 4 <= y < bp + c - 4 -> ~ in_links (l1 ++ l2) y).
  { intros y Hy (n & Hn & Hy'). apply Hpos in Hn. lia. }
  change ((c, false) :: bs2) with ([(c, false)] ++ bs2) in H.
  assert (Hrep : heap_rep (remove_block bp st2) (bs1 ++ [(c, true)] ++ bs2) (l1 ++ l2)).
  { eapply (rep_rebuild st _ bs1 [(c, false)] [(c, true)] bs2 _ _ bp (l1 ++ l2));
      try eassumption; trivial.
    - eapply same_meta_trans; [exact M | apply same_meta_remove].
    - cbn [chain]. unfold HDRP, WSIZE, DSIZE, MIN. repeat split; trivial.
      + rewrite <- E1. unfold GET. apply load4_ext. intros. apply F3. apply Hnl. lia.
      + rewrite <- E2. unfold GET. apply load4_ext. intros. apply F3. apply Hnl. lia.
    - intros n Hn. apply (rep_sub _ _ _ H). apply in_app_or in Hn. in_tac.
    - intros y Hy Hl. rewrite F3 by assumption. cbn [total] in Hy. apply F; lia.
    - eapply NoDup_remove_1. exact ND.
    - intros n Hn. apply Hpos in Hn. apply in_frees_mid. rewrite <- Hb. tauto. }
  split; [split; [exact Hrep | split]|].
  - rewrite remove_block_start. change (mem_start st2) with (mem_start st).
    intros x Hx. apply in_frees_mid in Hx.
    assert (Hx' : In x (l1 ++ bp :: l2)).
    { apply Hall. apply in_frees_mid. destruct Hx as [Hx|[(? & _)|Hx]]; auto. discriminate. }
    assert (x <> bp).
    { intros ->. destruct Hx as [Hx|[(? & _)|Hx]]; try discriminate;
        apply frees_bounds in Hx; trivial; unfold MIN in *; lia. }
    apply in_app_or in Hx'. simpl in Hx'. apply in_or_app. intuition congruence.
  - rewrite naf_app, naf_cons in *. rewrite !andb_true_iff in *.
    cbn [orb head_alloc] in *. rewrite orb_true_r. rewrite orb_false_r in Hnaf. tauto.
  - intros y Hy Hl. rewrite F3 by assumption. apply F; lia.
Qed.

Lemma place_whole st bs1 c bs2 l1 l2 bp asize :
  heap_wf st (bs1 ++ (c, false) :: bs2) (l1 ++ bp :: l2) ->
  bs1 <> [] -> bp = mem_start st + DSIZE + total bs1 ->
  0 <= asize <= c -> c - asize < MIN ->
  heap_wf (place bp asize st) (bs1 ++ (c, true) :: bs2) (l1 ++ l2).
Proof. intros. apply place_whole_frame; assumption. Qed.

(** The remainder is at least MIN: the block is split, the low part is
    allocated and leaves the free list, the high part is a new free block at
    the head of the free list. *)
Lemma place_split_frame st bs1 c bs2 l1 l2 bp asize :
  heap_wf st (bs1 ++ (c, false) :: bs2) (l1 ++ bp :: l2) ->
  bs1 <> [] -> bp = mem_start st + DSIZE + total bs1 ->
  MIN <= asize -> asize mod 8 = 0 -> MIN <= c - asize ->
  heap_wf (place bp asize st)
          (bs1 ++ (asize, true) :: (c - asize, false) :: bs2)
          ((bp + asize) :: l1 ++ l2) /\
  (forall y, ~ (bp - 4 <= y < bp + c - 4) -> ~ in_links (l1 ++ l2) y ->
             mem (place bp asize st) y = mem st y).
Proof.
  intros (H & Hall & Hnaf) Hne Hb Ha Ha8 Hge.
  pose proof (rep_size_bound _ _ _ H) as Hbd. rewrite total_app in Hbd. cbn [total] in Hbd.
  pose proof (rep_sizes _ _ _ H) as Hs.
  pose proof Hs as Hs'. apply sizes_ok_app in Hs' as (Hs1 & Hs').
  pose proof (Forall_inv Hs') as (Hc & Hc8). simpl in Hc, Hc8.
  apply Forall_inv_tail in Hs'.
  pose proof (sizes_total _ Hs1) as Ht1. pose proof (sizes_total _ Hs') as Ht2.
  assert (Hr8 : (c - asize) mod 8 = 0).
  { rewrite Zminus_mod, Hc8, Ha8. reflexivity. }
  destruct (rep_block _ _ _ _ _ _ _ H Hb) as (B1 & _).
  unfold place. rewrite B1. rewrite w64_small by (unfold MIN in *; lia).
  destruct (Z.geb_spec (c - asize) MIN) as [_|]; [|lia].
  unfold MIN in *.
  pose proof (place_tags_dlseg _ _ _ _ _ _ asize true H Hb ltac:(unfold MIN; lia) Ha8) as D2.
  destruct (put_tags_spec st bp asize true ltac:(lia) Ha8 ltac:(lia))
    as (E1 & E2 & F & Fp & M).
  cbn iota in *.
  set (st2 := put _ _ (put _ _ st)) in *.
  rewrite <- Fp in D2.
  destruct (remove_block_list st2 l1 bp l2 (rep_nodes_ok _ _ _ H) D2) as (D3 & F3).
  set (st3 := remove_block bp st2) in *.
  pose proof (rep_nodup _ _ _ H) as ND.
  assert (Hpos : forall n, In n (l1 ++ l2) ->
                   (In n (frees (mem_start st + DSIZE) bs1) /\ n + 24 <= bp) \/
                   (In n (frees (bp + c) bs2) /\ bp + c <= n)).
  { intros n Hn. rewrite Hb.
    apply free_node_position; trivial.
    - apply (rep_sub _ _ _ H). apply in_app_or in Hn. in_tac.
    - rewrite <- Hb. intros ->. apply NoDup_remove_2 in ND. contradiction. }
  assert (Hnl : forall y, bp - 4 <= y < bp + c - 4 -> ~ in_links (l1 ++ l2) y).
  { intros y Hy (n & Hn & Hy'). apply Hpos in Hn. lia. }
  assert (E1' : GET (mem st3) (bp - 4) = tag asize true).
  { rewrite <- E1. unfold GET. apply load4_ext. intros. apply F3. apply Hnl. lia. }
  assert (E2' : GET (mem st3) (bp + asize - 8) = tag asize true).
  { rewrite <- E2. unfold GET. apply load4_ext. intros. apply F3. apply Hnl. lia. }
  assert (N3 : NEXT_BLKP (mem st3) bp = bp + asize).
  { unfold NEXT_BLKP, WSIZE. erewrite GET_SIZE_tag; [reflexivity|exact E1'|lia|assumption]. }
  rewrite N3.
  destruct (put_tags_spec st3 (bp + asize) (c - asize) false ltac:(lia) Hr8 ltac:(lia))
    as (G1 & G2 & G & Gp & M').
  cbn iota in *.
  set (st5 := put _ _ (put _ _ st3)) in *.
  change ((c, false) :: bs2) with ([(c, false)] ++ bs2) in H.
  assert (Hrep : heap_rep st5 (bs1 ++ [(asize, true); (c - asize, false)] ++ bs2) (l1 ++ l2)).
  { eapply (rep_rebuild st _ bs1 [(c, false)] _ bs2 _ _ bp (l1 ++ l2));
      try eassumption; trivial.
    - eapply same_meta_trans; [exact M|].
      eapply same_meta_trans; [apply same_meta_remove | exact M'].
    - simpl. lia.
    - cbn [chain]. unfold HDRP, WSIZE, DSIZE, MIN. repeat split; trivial; try lia.
      + rewrite <- E1'. unfold GET. apply load4_ext. intros. apply G; lia.
      + rewrite <- E2'. unfold GET. apply load4_ext. intros. apply G; lia.
    - intros n Hn. apply (rep_sub _ _ _ H). apply in_app_or in Hn. in_tac.
    - intros y Hy Hl. cbn [total] in Hy. rewrite G by lia.
      unfold st3. rewrite F3 by assumption. apply F; lia.
    - rewrite Gp. eapply dlseg_frame; [exact D3|].
      intros y (n & Hn & Hy). apply Hpos in Hn. apply G; lia.
    - eapply NoDup_remove_1. exact ND.
    - intros n Hn. apply Hpos in Hn. apply in_frees_mid. rewrite <- Hb.
      destruct Hn as [(Hn & _)|(Hn & _)]; [auto|]. right. right.
      change ((c - asize, false) :: bs2) with ([] ++ (c - asize, false) :: bs2).
      apply in_frees_mid. right. right. simpl.
      replace (bp + asize + 0 + (c - asize)) with (bp + c) by lia. assumption. }
  cbn [app] in Hrep.
  rewrite naf_app, naf_cons in Hnaf. rewrite !andb_true_iff in Hnaf.
  cbn [orb head_alloc] in Hnaf. rewrite orb_false_r in Hnaf.
  destruct Hnaf as ((N1 & (N2 & N2')) & N1').
  assert (Hb5 : bp + asize = mem_start st5 + DSIZE + total (bs1 ++ [(asize, true)])).
  { change (mem_start st5) with (mem_start st3). unfold st3.
    rewrite remove_block_start. change (mem_start st2) with (mem_start st).
    rewrite total_app. simpl. lia. }
  change (bs1 ++ (asize, true) :: (c - asize, false) :: bs2)
    with (bs1 ++ [(asize, true)] ++ (c - asize, false) :: bs2) in Hrep.
  rewrite app_assoc in Hrep.
  rewrite (coalesce_none st5 _ _ _ _ _ Hrep); trivial;
    [| intros C; apply app_eq_nil in C as (_ & C); discriminate
     | apply last_alloc_snoc].
  assert (Es : mem_start st5 = mem_start st).
  { change (mem_start st5) with (mem_start st3). unfold st3.
    rewrite remove_block_start. reflexivity. }
  rewrite <- app_assoc in *. cbn [app] in *.
  assert (Hin5 : In (bp + asize)
                    (frees (mem_start st5 + DSIZE)
                           (bs1 ++ (asize, true) :: (c - asize, false) :: bs2))).
  { rewrite Es. apply in_frees_mid. right. right.
    change ((c - asize, false) :: bs2) with ([] ++ (c - asize, false) :: bs2).
    apply in_frees_mid. right. left. simpl. split; [reflexivity | lia]. }
  assert (Hni5 : ~ In (bp + asize) (l1 ++ l2)).
  { intros C. apply Hpos in C. lia. }
  split; [split; [|split]|].
  4:{ intros y Hy Hl.
      rewrite (rep_insert_frame st5 _ (l1 ++ l2) (bp + asize) y Hrep Hin5 Hni5).
      - rewrite G by lia. unfold st3. rewrite F3 by assumption. apply F; lia.
      - intros C. apply in_links_cons in C as [C|C]; [lia | contradiction]. }
  - apply rep_insert; trivial.
  - rewrite insert_start, Es. intros x Hx.
    apply in_frees_mid in Hx. destruct Hx as [Hx|[(? & _)|Hx]]; [|discriminate|].
    + assert (Hx' : In x (l1 ++ bp :: l2)).
      { apply Hall. apply in_frees_mid. auto. }
      assert (x <> bp).
      { intros ->. apply frees_bounds in Hx; trivial. unfold MIN in *. lia. }
      right. apply in_app_or in Hx'. simpl in Hx'. apply in_or_app. intuition congruence.
    + change ((c - asize, false) :: bs2) with ([] ++ (c - asize, false) :: bs2) in Hx.
      apply in_frees_mid in Hx. simpl in Hx.
      destruct Hx as [[]|[(_ & Hx)|Hx]]; [left; lia|].
      replace (mem_start st + DSIZE + total bs1 + asize + 0 + (c - asize))
        with (bp + c) in Hx by lia.
      assert (Hx' : In x (l1 ++ bp :: l2)).
      { apply Hall. apply in_frees_mid. right. right. rewrite <- Hb. assumption. }
      assert (x <> bp).
      { intros ->. apply frees_bounds in Hx; trivial. unfold MIN in *. lia. }
      right. apply in_app_or in Hx'. simpl in Hx'. apply in_or_app. intuition congruence.
  - rewrite naf_app, !naf_cons. rewrite !andb_true_iff.
    cbn [orb head_alloc]. rewrite orb_true_r. tauto.
Qed.

Lemma place_split st bs1 c bs2 l1 l2 bp asize :
  heap_wf st (bs1 ++ (c, false) :: bs2) (l1 ++ bp :: l2) ->
  bs1 <> [] -> bp = mem_start st + DSIZE + total bs1 ->
  MIN <= asize -> asize mod 8 = 0 -> MIN <= c - asize ->
  heap_wf (place bp asize st)
          (bs1 ++ (asize, true) :: (c - asize, false) :: bs2)
          ((bp + asize) :: l1 ++ l2).
Proof. intros. apply place_split_frame; assumption. Qed.

Lemma st_init_wf : heap_wf st_init [(24, true); (4096, false)] [65568].
Proof. wf_compute. Qed.

(** C3.  Placing [asize] bytes in the free block at [bp], of size [csize], of
    a well-formed heap: when [csize - asize] is at least MIN the block is
    split into an allocated block of [asize] bytes at [bp], off the free
    list, and a free block of [csize - asize] bytes at [bp + asize], which
    went through coalesce and is now the head of the free list; otherwise the
    whole block of [csize] bytes is allocated and off the free list.  In both
    cases the heap is well formed again. *)
Theorem place_spec st bs1 csize bs2 l1 l2 bp asize :
  heap_wf st (bs1 ++ (csize, false) :: bs2) (l1 ++ bp :: l2) ->
  bs1 <> [] -> bp = mem_start st + DSIZE + total bs1 ->
  MIN <= asize <= csize -> asize mod 8 = 0 ->
  (MIN <= csize - asize ->
   heap_wf (place bp asize st)
           (bs1 ++ (asize, true) :: (csize - asize, false) :: bs2)
           ((bp + asize) :: l1 ++ l2)) /\
  (csize - asize < MIN ->
   heap_wf (place bp asize st) (bs1 ++ (csize, true) :: bs2) (l1 ++ l2)).
Proof.
  intros Hwf Hne Hb Ha Ha8. split; intros Hc.
  - apply place_split; trivial. lia.
  - apply place_whole; trivial. unfold MIN in *. lia.
Qed.

Lemma place_spec_witness :
  heap_wf st_init ([(24, true)] ++ (4096, false) :: []) ([] ++ 65568 :: []) /\
  [(24, true)] <> [] /\ 65568 = mem_start st_init + DSIZE + total [(24, true)] /\
  MIN <= 24 <= 4096 /\ 24 mod 8 = 0 /\
  (MIN <= 4096 - 24 ->
   heap_wf (place 65568 24 st_init)
           ([(24, true)] ++ (24, true) :: (4096 - 24, false) :: [])
           ((65568 + 24) :: [] ++ [])) /\
  (4096 - 24 < MIN ->
   heap_wf (place 65568 24 st_init) ([(24, true)] ++ (4096, true) :: []) ([] ++ [])).
Proof.
  assert (H1 : [(24, true)] <> @nil (Z * bool)) by discriminate.
  assert (H2 : 65568 = mem_start st_init + DSIZE + total [(24, true)]) by reflexivity.
  assert (H3 : MIN <= 24 <= 4096) by (unfold MIN; lia).
  assert (H4 : 24 mod 8 = 0) by reflexivity.
  repeat (split; [first [exact st_init_wf | assumption]|]).
  exact (place_spec st_init [(24, true)] 4096 [] [] [] 65568 24 st_init_wf H1 H2 H3 H4).
Defined.

(** * First fit *)

Lemma find_fit_loop_hit fuel m asize prev p l1 b l2 e :
  dlseg m prev p (l1 ++ b :: l2) e ->
  (forall x, In x l1 -> GET_SIZE m (HDRP x) < asize) ->
  asize <= GET_SIZE m (HDRP b) ->
  (List.length l1 < fuel)%nat ->
  find_fit_loop fuel m asize p = Ret b.
Proof.
  revert fuel prev p. induction l1 as [|x l1 IH]; intros fuel prev p D Hlt Hge Hf.
  - cbn [app dlseg] in D. destruct D as (-> & Hb & _).
    destruct fuel as [|fuel]; [simpl in Hf; lia|]. cbn [find_fit_loop].
    destruct (Z.eqb_spec b NULL); [contradiction|].
    destruct (Z.leb_spec asize (GET_SIZE m (HDRP b))); [reflexivity | lia].
  - cbn [app dlseg] in D. destruct D as (-> & Hx & _ & D).
    destruct fuel as [|fuel]; [simpl in Hf; lia|]. cbn [find_fit_loop].
    destruct (Z.eqb_spec x NULL); [contradiction|].
    pose proof (Hlt x (or_introl eq_refl)).
    destruct (Z.leb_spec asize (GET_SIZE m (HDRP x))); [lia|].
    eapply IH; eauto.
    + intros y Hy. apply Hlt. right. assumption.
    + simpl in Hf. lia.
Qed.

Lemma find_fit_loop_miss fuel m asize prev p l :
  dlseg m prev p l NULL ->
  (forall x, In x l -> GET_SIZE m (HDRP x) < asize) ->
  (List.length l < fuel)%nat ->
  find_fit_loop fuel m asize p = Ret NULL.
Proof.
  revert fuel prev p. induction l as [|x l IH]; intros fuel prev p D Hlt Hf.
  - cbn [dlseg] in D. subst p.
    destruct fuel as [|fuel]; [simpl in Hf; lia|]. reflexivity.
  - cbn [dlseg] in D. destruct D as (-> & Hx & _ & D).
    destruct fuel as [|fuel]; [simpl in Hf; lia|]. cbn [find_fit_loop].
    destruct (Z.eqb_spec x NULL); [contradiction|].
    pose proof (Hlt x (or_introl eq_refl)).
    destruct (Z.leb_spec asize (GET_SIZE m (HDRP x))); [lia|].
    eapply IH; eauto.
    + intros y Hy. apply Hlt. right. assumption.
    + simpl in Hf. lia.
Qed.

(* the code computes the adjusted size of the specification as long as the
   request plus 15 fits a size_t *)
Lemma adjusted_size_refines n :
  0 < n <= 2 ^ 64 - 16 -> adjusted_size n = adjusted_size_spec n.
Proof.
  intros H. unfold adjusted_size, adjusted_size_spec, round_up8, DSIZE, MIN.
  rewrite MAX_spec. destruct (Z.leb_spec n 8).
  - assert (E : (n + 8 + 7) / 8 = 2).
    { pose proof (Z.div_mod (n + 8 + 7) 8). pose proof (Z.mod_pos_bound (n + 8 + 7) 8).
      lia. }
    rewrite E. reflexivity.
  - change (8 - 1) with 7. rewrite (w64_small (n + 8 + 7)) by lia.
    rewrite w64_small; [reflexivity|].
    pose proof (Z.div_mod (n + 8 + 7) 8). pose proof (Z.mod_pos_bound (n + 8 + 7) 8).
    lia.
Qed.

(** C1 (as amended).  For a request of [n] bytes, [0 < n <= 2^64 - 16],
    malloc (after its lazy initialisation, when the heap was not initialised)
    computes the adjusted size of the specification and, when the free list
    holds a block of at least that size, returns the first such block in the
    order of the list and places the request there. *)
Theorem malloc_first_fit fuel st st1 n l1 b l2 :
  lazy_init fuel st = Ret st1 ->
  0 < n <= 2 ^ 64 - 16 ->
  dlseg (mem st1) NULL (free_p st1) (l1 ++ b :: l2) NULL ->
  (forall x, In x l1 -> GET_SIZE (mem st1) (HDRP x) < adjusted_size_spec n) ->
  adjusted_size_spec n <= GET_SIZE (mem st1) (HDRP b) ->
  (List.length l1 < fuel)%nat ->
  adjusted_size n = adjusted_size_spec n /\
  find_fit fuel (adjusted_size n) st1 = Ret b /\
  malloc fuel n st = Ret (b, place b (adjusted_size n) st1).
Proof.
  intros Hl Hn D Hlt Hge Hf.
  pose proof (adjusted_size_refines n Hn) as E.
  assert (Ef : find_fit fuel (adjusted_size n) st1 = Ret b).
  { unfold find_fit. rewrite E. eapply find_fit_loop_hit; eassumption. }
  repeat split; trivial.
  unfold malloc. rewrite Hl. cbn [bind].
  destruct (Z.eqb_spec n 0); [lia|]. rewrite Ef. cbn [bind].
  assert (b <> NULL).
  { eapply dlseg_nonnull; [exact D|]. apply in_or_app. simpl. auto. }
  destruct (Z.eqb_spec b NULL); [contradiction|]. reflexivity.
Qed.

Lemma malloc_first_fit_witness :
  lazy_init 10 st_two = Ret st_two /\
  0 < 100 <= 2 ^ 64 - 16 /\
  dlseg (mem st_two) NULL (free_p st_two) ([65568] ++ 65616 :: []) NULL /\
  (forall x, In x [65568] -> GET_SIZE (mem st_two) (HDRP x) < adjusted_size_spec 100) /\
  adjusted_size_spec 100 <= GET_SIZE (mem st_two) (HDRP 65616) /\
  (List.length [65568%Z] < 10)%nat /\
  adjusted_size 100 = adjusted_size_spec 100 /\
  find_fit 10 (adjusted_size 100) st_two = Ret 65616 /\
  malloc 10 100 st_two = Ret (65616, place 65616 (adjusted_size 100) st_two).
Proof.
  assert (H1 : lazy_init 10 st_two = Ret st_two) by (vm_compute; reflexivity).
  assert (H2 : 0 < 100 <= 2 ^ 64 - 16) by lia.
  assert (H3 : dlseg (mem st_two) NULL (free_p st_two) ([65568] ++ 65616 :: []) NULL)
    by (vm_compute; intuition discriminate).
  assert (H4 : forall x, In x [65568] ->
                         GET_SIZE (mem st_two) (HDRP x) < adjusted_size_spec 100)
    by (intros x [<-|[]]; vm_compute; reflexivity).
  assert (H5 : adjusted_size_spec 100 <= GET_SIZE (mem st_two) (HDRP 65616))
    by (vm_compute; discriminate).
  assert (H6 : (List.length [65568%Z] < 10)%nat) by (simpl; lia).
  repeat (split; [assumption|]).
  exact (malloc_first_fit 10 st_two st_two 100 [65568] 65616 [] H1 H2 H3 H4 H5 H6).
Defined.

(** C1 as stated fails for requests above 2^64 - 16: the size computation
    wraps around.  For n = 2^64 - 1 the code computes 24 where the rounding of
    the specification gives 2^64 + 8, and malloc hands out the head of the
    free list of [st_init], a block of 4096 bytes. *)
Lemma malloc_huge_request_wraps :
  adjusted_size (2 ^ 64 - 1) = 24 /\
  adjusted_size_spec (2 ^ 64 - 1) = 2 ^ 64 + 8 /\
  heap_listp st_init <> 0 /\
  dlseg (mem st_init) NULL (free_p st_init) [65568] NULL /\
  GET_SIZE (mem st_init) (HDRP 65568) = 4096 /\
  value_of (malloc 10 (2 ^ 64 - 1) st_init) = Some 65568 /\
  GET_SIZE (mem (state_of (malloc 10 (2 ^ 64 - 1) st_init) st_init)) (HDRP 65568) = 24.
Proof. vm_compute. intuition discriminate. Qed.

(** * The validator passes on well-formed heaps *)

Lemma heap_rep_tick st bs fl : heap_rep st bs fl -> heap_rep (tick_checks st) bs fl.
Proof. intros H. destruct H. constructor; assumption. Qed.

Lemma heap_wf_tick st bs fl : heap_wf st bs fl -> heap_wf (tick_checks st) bs fl.
Proof. intros (H & A & N). split; [apply heap_rep_tick; assumption | auto]. Qed.

Lemma to_int_small x : 0 <= x < 2 ^ 31 -> to_int x = x.
Proof.
  intros H. unfold to_int. rewrite w32_small by lia.
  destruct (Z.ltb_spec x (2 ^ 31)); lia.
Qed.

Lemma check_free_loop_pass fuel st prev p l :
  dlseg (mem st) prev p l NULL ->
  (forall x, In x l -> mem_heap_lo st <= x <= mem_heap_hi st) ->
  (List.length l < fuel)%nat ->
  check_free_loop fuel st p = Ret tt.
Proof.
  revert fuel prev p. induction l as [|x l IH]; intros fuel prev p D Hb Hf.
  - cbn [dlseg] in D. subst p.
    destruct fuel as [|fuel]; [simpl in Hf; lia|]. reflexivity.
  - cbn [dlseg] in D. destruct D as (-> & Hx & _ & D).
    destruct fuel as [|fuel]; [simpl in Hf; lia|]. cbn [check_free_loop].
    destruct (Z.eqb_spec x NULL); [contradiction|].
    pose proof (Hb x (or_introl eq_refl)) as Hbx.
    assert (C1 : negb (NEXT_FREE_BLOCK (mem st) x =? NULL)
                 && negb (x =? PREV_FREE_BLOCK (mem st) (NEXT_FREE_BLOCK (mem st) x))
                 = false).
    { destruct l as [|y l]; cbn [dlseg] in D.
      - rewrite D, Z.eqb_refl. reflexivity.
      - destruct D as (Hy & _ & Hp & _). rewrite Hy, Hp, Z.eqb_refl.
        apply andb_false_r. }
    rewrite C1.
    destruct (Z.ltb_spec x (mem_heap_lo st)); [lia|].
    destruct (Z.gtb_spec x (mem_heap_hi st)); [lia|]. cbn [orb].
    eapply IH; eauto.
    + intros y Hy. apply Hb. right. assumption.
    + simpl in Hf. lia.
Qed.

Lemma mm_checkheap_pass fuel lineno st bs fl :
  heap_rep st bs fl -> (List.length fl < fuel)%nat ->
  mm_checkheap fuel lineno st = Ret (tick_checks st).
Proof.
  intros H Hf. unfold mm_checkheap.
  pose proof (heap_rep_tick _ _ _ H) as H'. set (st' := tick_checks st) in *.
  clearbody st'. clear H. rename H' into H.
  pose proof (rep_prologue _ _ _ H) as Hp.
  destruct bs as [|[s0 a0] bs]; [discriminate|]. simpl in Hp.
  injection Hp as -> ->.
  pose proof (rep_chain _ _ _ H) as C. cbn [chain] in C.
  destruct C as (_ & Ch & Cf & _). rewrite <- (rep_listp _ _ _ H) in Ch, Cf.
  unfold mem_heap_lo. rewrite (rep_listp _ _ _ H), Z.eqb_refl. cbn [negb].
  rewrite <- (rep_listp _ _ _ H).
  assert (S1 : GET_SIZE (mem st') (HDRP (heap_listp st')) = MIN).
  { eapply GET_SIZE_tag; [exact Ch | unfold MIN; lia | reflexivity]. }
  assert (F1 : FTRP (mem st') (heap_listp st') = heap_listp st' + MIN - DSIZE).
  { unfold FTRP. rewrite S1. reflexivity. }
  rewrite F1, S1.
  assert (S2 : GET_SIZE (mem st') (heap_listp st' + MIN - DSIZE) = MIN).
  { eapply GET_SIZE_tag; [exact Cf | unfold MIN; lia | reflexivity]. }
  assert (A1 : GET_ALLOC (mem st') (HDRP (heap_listp st')) = 1).
  { eapply (GET_ALLOC_tag _ _ _ true); [exact Ch | unfold MIN; lia | reflexivity]. }
  assert (A2 : GET_ALLOC (mem st') (heap_listp st' + MIN - DSIZE) = 1).
  { eapply (GET_ALLOC_tag _ _ _ true); [exact Cf | unfold MIN; lia | reflexivity]. }
  rewrite S2, A1, A2.
  change (negb (to_int MIN =? MIN) && negb (to_int MIN =? MIN)) with false.
  change (negb (to_int 1 =? 1) && negb (to_int 1 =? 1)) with false. cbv iota.
  pose proof (rep_size_bound _ _ _ H) as Hbd.
  pose proof (rep_brk _ _ _ H) as Hk. pose proof (rep_start _ _ _ H) as H0.
  pose proof (rep_sizes _ _ _ H) as Hs.
  pose proof (sizes_total_pos _ Hs ltac:(discriminate)) as Ht.
  unfold mem_heapsize, DSIZE, WSIZE, MIN in *.
  rewrite w64_small by lia.
  replace (mem_start st' + (mem_brk st' - mem_start st' - 4))
    with (HDRP (mem_brk st')) by (unfold HDRP, WSIZE; lia).
  pose proof (rep_epilogue _ _ _ H) as He.
  rewrite (GET_SIZE_tag _ _ 0 true He) by (try reflexivity; lia).
  rewrite (GET_ALLOC_tag _ _ 0 true He) by (try reflexivity; lia).
  change (negb (to_int 0 =? 0)) with false.
  change (negb (to_int 1 =? 1)) with false. cbv iota.
  pose proof (rep_list _ _ _ H) as D.
  assert (C4 : negb (free_p st' =? NULL)
               && negb (PREV_FREE_BLOCK (mem st') (free_p st') =? NULL) = false).
  { destruct fl as [|h fl]; cbn [dlseg] in D.
    - rewrite D. reflexivity.
    - destruct D as (-> & _ & -> & _). rewrite Z.eqb_refl. apply andb_false_r. }
  rewrite C4.
  rewrite (check_free_loop_pass fuel st' NULL (free_p st') fl); trivial.
  - cbn [bind]. destruct fuel as [|fuel]; [lia|].
    rewrite check_block_loop_never_runs; [reflexivity|].
    unfold mem_heapsize. lia.
  - intros x Hx. apply (rep_sub _ _ _ H) in Hx.
    eapply rep_free_bounds in Hx; [|exact H].
    unfold mem_heap_lo, mem_heap_hi, DSIZE, MIN in *. lia.
Qed.

(** * Heap extension on a well-formed heap *)

Lemma extend_heap_grow st bs fl size :
  heap_rep st bs fl ->
  MIN <= size -> size mod 8 = 0 -> mem_brk st + size <= mem_max st ->
  let bp := mem_brk st in
  let st1 := set_brk st (mem_brk st + size) in
  let st2 := put (HDRP bp) (PACK size 0) st1 in
  let st3 := put (FTRP (mem st2) bp) (PACK size 0) st2 in
  let st4 := put (HDRP (NEXT_BLKP (mem st3) bp)) (PACK 0 1) st3 in
  heap_rep st4 (bs ++ [(size, false)]) fl /\
  (forall y, y < bp - 4 -> mem st4 y = mem st y).
Proof.
  intros H Hsz Hsz8 Hroom bp st1 st2 st3 st4.
  pose proof (rep_size_bound _ _ _ H) as Hbd.
  pose proof (rep_brk _ _ _ H) as Hk. pose proof (rep_start _ _ _ H) as H0.
  pose proof (rep_small _ _ _ H) as Hsm. pose proof (rep_sizes _ _ _ H) as Hs.
  unfold MIN, DSIZE in *.
  destruct (put_tags_spec st1 bp size false ltac:(lia) Hsz8 ltac:(lia))
    as (E1 & E2 & F & Fp & M).
  cbn iota in *. fold st2 in E1, E2, F, Fp, M. fold st3 in E1, E2, F, Fp, M.
  assert (N : NEXT_BLKP (mem st3) bp = bp + size).
  { unfold NEXT_BLKP, WSIZE. erewrite GET_SIZE_tag; [reflexivity|exact E1|lia|assumption]. }
  assert (F4 : forall y, ~ (bp + size - 4 <= y < bp + size) -> mem st4 y = mem st3 y).
  { intros y Hy. unfold st4, put, PUT. cbn [mem set_mem]. rewrite N.
    apply store4_out. unfold HDRP, WSIZE. lia. }
  assert (FF : forall y, y < bp - 4 -> mem st4 y = mem st y).
  { intros y Hy. rewrite F4 by lia. rewrite F by lia. reflexivity. }
  split; [|exact FF]. constructor.
  - exact H0.
  - apply (rep_listp _ _ _ H).
  - rewrite hd_error_app; [apply H|]. intros ->. pose proof (rep_prologue _ _ _ H).
    discriminate.
  - apply chain_app. split.
    + eapply chain_frame; [apply H|]. intros y Hy.
      apply in_tags_span in Hy; trivial. apply FF. unfold bp.
      change (mem_start st4) with (mem_start st) in *. unfold DSIZE in *. lia.
    + change (mem_start st4) with (mem_start st). unfold DSIZE. rewrite Hk. fold bp.
      cbn [chain]. unfold HDRP, WSIZE, DSIZE, MIN. repeat split; trivial.
      * rewrite <- E1. unfold GET. apply load4_ext. intros. apply F4. lia.
      * rewrite <- E2. unfold GET. apply load4_ext. intros. apply F4. lia.
  - rewrite total_app. cbn. unfold DSIZE. lia.
  - change (mem_brk st4) with (bp + size). unfold st4, put, PUT, GET. cbn [mem set_mem].
    rewrite N. rewrite load4_store4_same. reflexivity.
  - exact Hroom.
  - exact Hsm.
  - apply (rep_addr _ _ _ H).
  - change (free_p st4) with (free_p st).
    eapply dlseg_frame; [apply H|]. intros y (n & Hn & Hy).
    apply (rep_sub _ _ _ H) in Hn. eapply rep_free_bounds in Hn; [|exact H].
    apply FF. unfold bp, MIN in *. lia.
  - apply H.
  - intros n Hn. apply (rep_sub _ _ _ H) in Hn. rewrite frees_app.
    apply in_or_app. left. exact Hn.
Qed.

Lemma extend_heap_wf fuel words st bs fl size :
  heap_wf st bs fl ->
  size = ALIGN (if negb (words mod 2 =? 0) then w64 ((words + 1) * WSIZE)
                else w64 (words * WSIZE)) ->
  MIN <= size -> size mod 8 = 0 -> mem_brk st + size <= mem_max st ->
  exists b' st6 bs' fl',
    extend_heap fuel words st = (st7 <- mm_checkheap fuel 0 st6 ;; Ret (b', st7)) /\
    heap_wf st6 bs' (b' :: fl') /\
    (exists bs1' s' bs2',
        bs' = bs1' ++ (s', false) :: bs2' /\ bs1' <> [] /\
        b' = mem_start st + DSIZE + total bs1' /\ size <= s') /\
    incl fl' fl /\
    (heap_listp st6 = heap_listp st /\ mem_start st6 = mem_start st /\
     mem_max st6 = mem_max st /\ mem_brk st6 = mem_brk st + size /\
     checks st6 = checks st) /\
    (last_alloc bs = true ->
     b' = mem_brk st /\ bs' = bs ++ [(size, false)] /\ fl' = fl) /\
    (exists pre mid post,
        bs ++ [(size, false)] = pre ++ mid ++ post /\
        bs' = pre ++ (total mid, false) :: post /\
        Forall (fun x : blk => snd x = false) mid /\ pre <> [] /\
        b' = mem_start st + DSIZE + total pre /\
        b' <= mem_brk st /\ mem_brk st + size <= b' + total mid /\
        (forall y, y < b' - 4 -> ~ in_links fl y -> mem st6 y = mem st y)).
Proof.
  intros (H & Hall & Hnaf) Esz Hsz Hsz8 Hroom.
  pose proof (extend_heap_grow st bs fl size H Hsz Hsz8 Hroom) as H4. cbv zeta in H4.
  destruct H4 as (H4 & F4).
  pose proof (rep_addr _ _ _ H) as Ha. pose proof (rep_brk _ _ _ H) as Hk.
  pose proof (rep_sizes _ _ _ H) as Hs.
  unfold extend_heap. rewrite <- Esz. unfold mem_sbrk.
  destruct (Z.ltb_spec size 0); [unfold MIN in *; lia|].
  destruct (Z.ltb_spec (mem_max st) (mem_brk st + size)); [lia|]. cbn [orb].
  destruct (Z.eqb_spec (mem_brk st) PTR_ERR) as [E|_];
    [unfold PTR_ERR, MIN in *; lia|].
  set (st4 := put (HDRP (NEXT_BLKP _ _)) (PACK 0 1) _) in *.
  assert (Hne : bs <> []).
  { intros ->. pose proof (rep_prologue _ _ _ H). discriminate. }
  assert (Hb : mem_brk st = mem_start st4 + DSIZE + total bs).
  { change (mem_start st4) with (mem_start st). lia. }
  destruct (coalesce_insert_wf st4 bs size [] fl (mem_brk st) H4 Hne Hb)
    as (b' & st5 & bs' & fl' & Ec & Hwf & (bs1' & s' & bs2' & Ebs & Hne' & Eb' & Hs' & _)
        & Hi & Hx & (pre & mid & post & Sh1 & Sh2 & Sh3 & Sh4 & Sh5 & Sh6 & Sh7 & _ & Sh8));
    trivial.
  - intros C. apply (rep_sub _ _ _ H) in C. eapply rep_free_bounds in C; [|exact H].
    unfold MIN in *. lia.
  - change (mem_start st4) with (mem_start st). intros x Hx.
    rewrite frees_app in Hx. apply in_app_or in Hx as [Hx|Hx]; [right; auto|].
    simpl in Hx. left. unfold DSIZE in *. destruct Hx as [Hx|[]]. lia.
  - rewrite Ec.
    exists b', (insert_free_block b' st5), bs', fl'.
    split; [reflexivity|]. split; [exact Hwf|].
    split; [exists bs1', s', bs2'; auto|]. split; [exact Hi|].
    pose proof (same_meta_coalesce (mem_brk st) st4) as M. rewrite Ec in M.
    pose proof (same_meta_insert b' st5) as M'.
    destruct M as (M1 & M2 & M3 & M4 & M5), M' as (M1' & M2' & M3' & M4' & M5').
    cbn [snd] in *.
    split. { rewrite M1', M2', M3', M4', M5', M1, M2, M3, M4, M5. repeat split. }
    split. { intros L. destruct (Hx L eq_refl) as (-> & _ & -> & ->). auto. }
    exists pre, mid, post. repeat split; trivial.
    intros y Hy Hl. rewrite Sh8 by (trivial; lia). apply F4. lia.
Qed.

Lemma extend_heap_refused fuel words st size :
  size = ALIGN (if negb (words mod 2 =? 0) then w64 ((words + 1) * WSIZE)
                else w64 (words * WSIZE)) ->
  mem_max st < mem_brk st + size ->
  extend_heap fuel words st = Ret (NULL, st).
Proof.
  intros Esz Hroom. unfold extend_heap. rewrite <- Esz. unfold mem_sbrk.
  destruct (Z.ltb_spec (mem_max st) (mem_brk st + size)); [|lia].
  rewrite orb_true_r, Z.eqb_refl. reflexivity.
Qed.

(** * malloc on a well-formed heap *)

Lemma frees_block a bs x :
  In x (frees a bs) -> exists bs1 c bs2, bs = bs1 ++ (c, false) :: bs2 /\ x = a + total bs1.
Proof.
  revert a. induction bs as [|[s al] bs IH]; intros a Hx; simpl in Hx; [contradiction|].
  assert (Hrest : In x (frees (a + s) bs) ->
                  exists bs1 c bs2, (s, al) :: bs = bs1 ++ (c, false) :: bs2 /\
                                    x = a + total bs1).
  { intros Hx'. apply IH in Hx' as (bs1 & c & bs2 & -> & ->).
    exists ((s, al) :: bs1), c, bs2. split; [reflexivity | simpl; lia]. }
  destruct al; [auto|]. destruct Hx as [<-|Hx]; [|auto].
  exists [], s, bs. split; [reflexivity | simpl; lia].
Qed.

Lemma find_fit_loop_total fuel m asize prev p l :
  dlseg m prev p l NULL -> (List.length l < fuel)%nat ->
  (exists l1 b l2, l = l1 ++ b :: l2 /\
                   (forall x, In x l1 -> GET_SIZE m (HDRP x) < asize) /\
                   asize <= GET_SIZE m (HDRP b) /\
                   find_fit_loop fuel m asize p = Ret b) \/
  ((forall x, In x l -> GET_SIZE m (HDRP x) < asize) /\
   find_fit_loop fuel m asize p = Ret NULL).
Proof.
  intros D Hf.
  assert (C : (exists l1 b l2, l = l1 ++ b :: l2 /\
                 (forall x, In x l1 -> GET_SIZE m (HDRP x) < asize) /\
                 asize <= GET_SIZE m (HDRP b)) \/
              (forall x, In x l -> GET_SIZE m (HDRP x) < asize)).
  { clear. induction l as [|x l IH]; [right; intros ? []|].
    destruct (Z_lt_le_dec (GET_SIZE m (HDRP x)) asize) as [Hlt|Hge].
    - destruct IH as [(l1 & b & l2 & -> & H1 & H2)|IH].
      + left. exists (x :: l1), b, l2. repeat split; trivial.
        intros y [<-|Hy]; auto.
      + right. intros y [<-|Hy]; auto.
    - left. exists [], x, l. repeat split; trivial. intros ? []. }
  destruct C as [(l1 & b & l2 & -> & H1 & H2)|C].
  - left. exists l1, b, l2. repeat split; trivial.
    eapply find_fit_loop_hit; eauto.
    rewrite length_app in Hf. simpl in Hf. lia.
  - right. split; trivial. eapply find_fit_loop_miss; eauto.
Qed.

Lemma free_block_at st bs fl b :
  heap_rep st bs fl -> In b fl ->
  exists bs1 c bs2 l1 l2,
    bs = bs1 ++ (c, false) :: bs2 /\ bs1 <> [] /\
    b = mem_start st + DSIZE + total bs1 /\ fl = l1 ++ b :: l2 /\
    GET_SIZE (mem st) (HDRP b) = c.
Proof.
  intros H Hb. pose proof Hb as Hb'. apply (rep_sub _ _ _ H) in Hb'.
  apply frees_block in Hb' as (bs1 & c & bs2 & -> & Eb).
  apply in_split in Hb as (l1 & l2 & ->).
  exists bs1, c, bs2, l1, l2. repeat split; trivial.
  - intros ->. pose proof (rep_prologue _ _ _ H). discriminate.
  - eapply rep_block; eassumption.
Qed.

Lemma place_start bp asize st : mem_start (place bp asize st) = mem_start st.
Proof. apply same_meta_place. Qed.

(* placing the adjusted size in a free block that fits *)
Lemma place_wf st bs1 c bs2 l1 l2 bp asize :
  heap_wf st (bs1 ++ (c, false) :: bs2) (l1 ++ bp :: l2) ->
  bs1 <> [] -> bp = mem_start st + DSIZE + total bs1 ->
  MIN <= asize <= c -> asize mod 8 = 0 ->
  exists bs' fl' sz,
    heap_wf (place bp asize st) bs' fl' /\
    block_at (mem_start (place bp asize st) + DSIZE) bs' bp sz true /\ asize <= sz.
Proof.
  intros Hwf Hne Hb Ha Ha8.
  rewrite place_start.
  destruct (Z_lt_le_dec (c - asize) MIN) as [Hlt|Hge].
  - eexists _, _, c. split; [|split; [|lia]].
    + apply (place_whole st bs1 c bs2 l1 l2 bp asize); trivial. unfold MIN in *. lia.
    + exists bs1, bs2. auto.
  - eexists _, _, asize. split; [|split; [|lia]].
    + apply (place_split st bs1 c bs2 l1 l2 bp asize); trivial. lia.
    + exists bs1, ((c - asize, false) :: bs2). auto.
Qed.

Lemma malloc_wf fuel n st bs fl :
  heap_wf st bs fl -> n <> 0 -> (List.length fl + 1 < fuel)%nat ->
  (exists p st' bs' fl' sz,
      malloc fuel n st = Ret (p, st') /\ p <> NULL /\ heap_wf st' bs' fl' /\
      block_at (mem_start st' + DSIZE) bs' p sz true /\ adjusted_size n <= sz) \/
  (malloc fuel n st = Ret (NULL, st) /\
   (forall x, In x fl -> GET_SIZE (mem st) (HDRP x) < adjusted_size n) /\
   mem_max st < mem_brk st + MAX (adjusted_size n) CHUNKSIZE).
Proof.
  intros Hwf Hn Hf. pose proof Hwf as (H & Hall & Hnaf).
  pose proof (adjusted_size_facts n) as (Ha & Ha8).
  pose proof (extend_request _ Ha Ha8) as (Er & Er1 & Er2 & Er8 & Er64). cbv zeta in Er.
  unfold malloc. rewrite lazy_init_done by (eapply rep_listp_nonnull; eassumption).
  cbn [bind]. destruct (Z.eqb_spec n 0); [contradiction|].
  unfold find_fit.
  destruct (find_fit_loop_total fuel (mem st) (adjusted_size n) NULL (free_p st) fl
              (rep_list _ _ _ H) ltac:(lia))
    as [(l1 & b & l2 & El & Hlt & Hge & ->)|(Hlt & ->)]; cbn [bind].
  - (* a fit *)
    assert (Hb : In b fl) by (rewrite El; apply in_or_app; simpl; auto).
    pose proof (dlseg_nonnull _ _ _ _ _ _ (rep_list _ _ _ H) Hb) as Hnn.
    destruct (Z.eqb_spec b NULL); [contradiction|]. cbn [negb].
    destruct (free_block_at _ _ _ _ H Hb) as (bs1 & c & bs2 & k1 & k2 & -> & Hne & Eb & -> & Ec).
    destruct (place_wf st bs1 c bs2 k1 k2 b (adjusted_size n) Hwf Hne Eb ltac:(lia) Ha8)
      as (bs' & fl' & sz & P1 & P2 & P3).
    left. exists b, (place b (adjusted_size n) st), bs', fl', sz. auto.
  - (* no fit *)
    rewrite Z.eqb_refl. cbn [negb].
    destruct (Z_le_gt_dec (mem_brk st + MAX (adjusted_size n) CHUNKSIZE) (mem_max st))
      as [Hroom|Hfull].
    + destruct (extend_heap_wf fuel (MAX (adjusted_size n) CHUNKSIZE / WSIZE) st bs fl
                  _ Hwf (eq_sym Er) ltac:(lia) Er8 Hroom)
        as (b' & st6 & bs' & fl' & -> & Hwf6 & (bs1' & s' & bs2' & -> & Hne' & Eb' & Hs')
            & Hi & (M1 & M2 & M3 & M4 & M5) & _).
      pose proof Hwf6 as (H6 & _).
      assert (Hlen : (List.length (b' :: fl') < fuel)%nat).
      { pose proof (rep_nodup _ _ _ H6) as ND. apply NoDup_cons_iff in ND as (_ & ND).
        pose proof (NoDup_incl_length ND Hi). simpl. lia. }
      rewrite (mm_checkheap_pass fuel 0 st6 _ _ H6 Hlen). cbn [bind].
      assert (Hnn : b' <> NULL).
      { pose proof (rep_start _ _ _ H).
        pose proof (sizes_total_pos _ (proj1 (proj1 (sizes_ok_app _ _) (rep_sizes _ _ _ H6)))
                      Hne').
        unfold NULL, DSIZE, MIN in *. lia. }
      destruct (Z.eqb_spec b' NULL); [contradiction|].
      apply heap_wf_tick in Hwf6.
      destruct (place_wf (tick_checks st6) bs1' s' bs2' [] fl' b' (adjusted_size n)
                  Hwf6 Hne') as (bs'' & fl'' & sz & P1 & P2 & P3); trivial.
      * change (mem_start (tick_checks st6)) with (mem_start st6). congruence.
      * lia.
      * left. exists b', (place b' (adjusted_size n) (tick_checks st6)), bs'', fl'', sz.
        auto.
    + rewrite (extend_heap_refused fuel _ st _ (eq_sym Er)) by lia. cbn [bind].
      rewrite Z.eqb_refl. right. repeat split; trivial. lia.
Qed.

(* when malloc returns NULL on a well-formed heap nothing has changed *)
Lemma malloc_null_unchanged fuel n st bs fl st1 :
  heap_wf st bs fl -> n <> 0 -> malloc fuel n st = Ret (NULL, st1) -> st1 = st.
Proof.
  intros Hwf Hn. pose proof Hwf as (H & Hall & Hnaf).
  pose proof (adjusted_size_facts n) as (Ha & Ha8).
  pose proof (extend_request _ Ha Ha8) as (Er & Er1 & Er2 & Er8 & Er64). cbv zeta in Er.
  unfold malloc. rewrite lazy_init_done by (eapply rep_listp_nonnull; eassumption).
  cbn [bind]. destruct (Z.eqb_spec n 0); [contradiction|].
  intros E. apply bind_ret_inv in E as (b & _ & E). cbv beta in E.
  destruct (Z.eqb_spec b NULL) as [Eb|Hb]; cbn [negb] in E;
    [|inversion E; congruence].
  destruct (Z_le_gt_dec (mem_brk st + MAX (adjusted_size n) CHUNKSIZE) (mem_max st))
    as [Hroom|Hfull].
  - destruct (extend_heap_wf fuel (MAX (adjusted_size n) CHUNKSIZE / WSIZE) st bs fl
                _ Hwf (eq_sym Er) ltac:(lia) Er8 Hroom)
      as (b' & st6 & bs' & fl' & Ex & Hwf6 & (bs1' & s' & bs2' & -> & Hne' & Eb' & Hs')
          & _).
    rewrite Ex in E. apply bind_ret_inv in E as ([bp st7] & E & E').
    apply bind_ret_inv in E as (st8 & _ & E). inversion E; subst bp st8.
    assert (Hnn : b' <> NULL).
    { pose proof (rep_start _ _ _ H). destruct Hwf6 as (H6 & _).
      pose proof (sizes_total_pos _ (proj1 (proj1 (sizes_ok_app _ _) (rep_sizes _ _ _ H6)))
                    Hne').
      unfold NULL, DSIZE, MIN in *. lia. }
    destruct (Z.eqb_spec b' NULL); [contradiction|]. inversion E'. congruence.
  - rewrite (extend_heap_refused fuel _ st _ (eq_sym Er)) in E by lia. cbn [bind] in E.
    rewrite Z.eqb_refl in E. inversion E. reflexivity.
Qed.

Lemma st_full_one_wf :
  heap_wf st_full_one [(24, true); (24, true); (4072, false)] [65592].
Proof. wf_compute. Qed.

(** C5.  Let [p] be an allocated block of a well-formed heap and [n > 0] a
    request whose adjusted size differs from the size of that block.  If the
    malloc inside realloc returns NULL, realloc returns NULL and the state is
    the one it was called in: the block at [p] is still allocated, with its
    size and every byte of the memory unchanged. *)
Theorem realloc_failure_keeps_block fuel st bs fl p sz n st1 :
  heap_wf st bs fl ->
  block_at (mem_start st + DSIZE) bs p sz true ->
  0 < n -> adjusted_size n <> sz ->
  malloc fuel n st = Ret (NULL, st1) ->
  realloc fuel p n st = Ret (NULL, st1) /\ st1 = st /\
  GET_SIZE (mem st1) (HDRP p) = sz /\ GET_ALLOC (mem st1) (HDRP p) = 1 /\
  (forall y, mem st1 y = mem st y).
Proof.
  intros Hwf Hb Hn Hne Hm.
  pose proof (malloc_null_unchanged fuel n st bs fl st1 Hwf ltac:(lia) Hm) as ->.
  destruct Hwf as (H & _). destruct Hb as (bs1 & bs2 & -> & Eb & Hne1).
  destruct (rep_block _ _ _ _ _ _ _ H Eb) as (B1 & B2 & _).
  repeat split; trivial.
  unfold realloc. destruct (Z.eqb_spec n 0); [lia|].
  assert (p <> NULL).
  { pose proof (rep_start _ _ _ H).
    pose proof (sizes_total _ (proj1 (proj1 (sizes_ok_app _ _) (rep_sizes _ _ _ H)))).
    unfold NULL, DSIZE in *. lia. }
  destruct (Z.eqb_spec p NULL); [contradiction|].
  rewrite B1. destruct (Z.eqb_spec sz (adjusted_size n)); [congruence|].
  rewrite Hm. reflexivity.
Qed.

Lemma realloc_failure_keeps_block_witness :
  heap_wf st_full_one [(24, true); (24, true); (4072, false)] [65592] /\
  block_at (mem_start st_full_one + DSIZE) [(24, true); (24, true); (4072, false)]
           65568 24 true /\
  0 < 5000 /\ adjusted_size 5000 <> 24 /\
  malloc 10 5000 st_full_one = Ret (NULL, st_full_one) /\
  realloc 10 65568 5000 st_full_one = Ret (NULL, st_full_one) /\
  st_full_one = st_full_one /\
  GET_SIZE (mem st_full_one) (HDRP 65568) = 24 /\
  GET_ALLOC (mem st_full_one) (HDRP 65568) = 1 /\
  (forall y, mem st_full_one y = mem st_full_one y).
Proof.
  assert (B : block_at (mem_start st_full_one + DSIZE)
                       [(24, true); (24, true); (4072, false)] 65568 24 true).
  { exists [(24, true)], [(4072, false)]. repeat split. discriminate. }
  assert (H1 : 0 < 5000) by lia.
  assert (H2 : adjusted_size 5000 <> 24) by (vm_compute; discriminate).
  assert (H3 : malloc 10 5000 st_full_one = Ret (NULL, st_full_one))
    by (vm_compute; reflexivity).
  split; [exact st_full_one_wf|]. split; [exact B|].
  split; [exact H1|]. split; [exact H2|]. split; [exact H3|].
  exact (realloc_failure_keeps_block 10 st_full_one _ _ 65568 24 5000 st_full_one
           st_full_one_wf B H1 H2 H3).
Defined.

(** * Initialisation *)

Lemma load4_store4_eq m a v b : a = b -> load4 (store4 m a v) b = w32 v.
Proof. intros ->. apply load4_store4_same. Qed.

Ltac load_store :=
  repeat first [ rewrite load4_store4_eq by lia
               | rewrite load4_store4_other by lia ].

Lemma mm_init_wf fuel st :
  0 <= mem_start st -> mem_brk st = mem_start st ->
  mem_start st + 32 + 4096 <= mem_max st ->
  mem_max st - mem_start st < 2 ^ 32 -> mem_max st < 2 ^ 64 ->
  (2 <= fuel)%nat ->
  exists st',
    mm_init fuel st = Ret (0, st') /\
    heap_wf st' [(MIN, true); (CHUNKSIZE, false)] [mem_start st + 32] /\
    mem_start st' = mem_start st /\ mem_brk st' = mem_start st + 32 + 4096 /\
    mem_max st' = mem_max st /\ checks st' = S (checks st).
Proof.
  intros H0 Hbrk Hroom Hsm Ha Hf.
  unfold mm_init, mem_sbrk. change (8 * WSIZE) with 32. change (32 <? 0) with false.
  destruct (Z.ltb_spec (mem_max st) (mem_brk st + 32)); [lia|]. cbn [orb].
  cbn [set_heap_listp heap_listp set_brk].
  destruct (Z.eqb_spec (mem_brk st) PTR_ERR); [unfold PTR_ERR in *; lia|].
  set (st9 := set_free_p _ NULL).
  assert (H9 : heap_wf st9 [(MIN, true)] []).
  { split; [|split; [intros x []|reflexivity]].
    unfold st9, put, PUT. constructor; cbn; unfold HDRP, GET, DSIZE, WSIZE, MIN in *;
      rewrite ?Hbrk; try lia; trivial.
    - repeat split; try lia.
      + load_store. reflexivity.
      + load_store. reflexivity.
    - load_store. reflexivity.
    - constructor.
    - intros x []. }
  assert (Es : mem_start st9 = mem_start st) by reflexivity.
  assert (Eb : mem_brk st9 = mem_start st + 32) by (cbn; lia).
  assert (Em : mem_max st9 = mem_max st) by reflexivity.
  destruct (extend_heap_wf fuel (CHUNKSIZE / WSIZE) st9 _ _ 4096 H9 eq_refl
              ltac:(unfold MIN; lia) eq_refl ltac:(lia))
    as (b' & st6 & bs' & fl' & -> & Hwf6 & _ & _ & (M1 & M2 & M3 & M4 & M5) & Hx & _).
  destruct (Hx eq_refl) as (-> & -> & ->).
  pose proof Hwf6 as (H6 & _).
  rewrite (mm_checkheap_pass fuel 0 st6 _ _ H6) by (simpl; lia). cbn [bind].
  destruct (Z.eqb_spec (mem_brk st9) NULL); [unfold NULL in *; lia|].
  exists (tick_checks st6). split; [reflexivity|].
  apply heap_wf_tick in Hwf6. rewrite Eb in Hwf6.
  split; [exact Hwf6|]. cbn. rewrite M2, M3, M4, M5, Eb. repeat split.
Qed.

Lemma mm_init_listp fuel st r st1 :
  mm_init fuel st = Ret (r, st1) -> 0 <= mem_brk st -> heap_listp st1 <> 0.
Proof.
  unfold mm_init, mem_sbrk. intros E Hb.
  destruct ((8 * WSIZE <? 0) || (mem_max st <? mem_brk st + 8 * WSIZE)).
  - cbn in E. inversion E. cbn. discriminate.
  - cbn [set_heap_listp heap_listp set_brk] in E.
    destruct (Z.eqb_spec (mem_brk st) PTR_ERR) as [Ep|_].
    + inversion E. cbn. rewrite Ep. discriminate.
    + apply bind_ret_inv in E as ([bp st10] & Ex & E).
      apply extend_heap_meta in Ex as (M & _). cbn in M.
      destruct (bp =? NULL); inversion E; subst; rewrite M; unfold WSIZE; lia.
Qed.

(** C9 (as amended).  On a heap whose base pointer is still unset, malloc
    first runs mm_init and then behaves as on the initialised heap; free of a
    non-null pointer reads the size in the header of the block, runs mm_init
    and then behaves as on the initialised heap (as long as mm_init left that
    header alone); free(NULL) returns at once and does not initialise.  On an
    empty heap with room for 32 + 4096 bytes mm_init succeeds and leaves the
    prologue, the epilogue and one free block of 4096 bytes on the free
    list. *)
Theorem lazy_initialisation fuel st :
  heap_listp st = 0 -> 0 <= mem_brk st ->
  (forall n r st1, mm_init fuel st = Ret (r, st1) ->
                   malloc fuel n st = malloc fuel n st1) /\
  (forall bp r st1, bp <> 0 -> mm_init fuel st = Ret (r, st1) ->
                    GET_SIZE (mem st1) (HDRP bp) = GET_SIZE (mem st) (HDRP bp) ->
                    free fuel bp st = free fuel bp st1) /\
  free fuel NULL st = Ret st /\
  (mem_brk st = mem_start st -> mem_start st + 32 + 4096 <= mem_max st ->
   mem_max st - mem_start st < 2 ^ 32 -> mem_max st < 2 ^ 64 -> (2 <= fuel)%nat ->
   exists st1, mm_init fuel st = Ret (0, st1) /\
               heap_wf st1 [(MIN, true); (CHUNKSIZE, false)] [mem_start st + 32]).
Proof.
  intros Hl Hb. split; [|split; [|split]].
  - intros n r st1 E. pose proof (mm_init_listp _ _ _ _ E Hb) as Hl1.
    unfold malloc at 1. unfold lazy_init. rewrite Hl, Z.eqb_refl, E. cbn [bind].
    unfold malloc. rewrite lazy_init_done by assumption. reflexivity.
  - intros bp r st1 Hbp E Hs. pose proof (mm_init_listp _ _ _ _ E Hb) as Hl1.
    unfold free. destruct (Z.eqb_spec bp 0); [contradiction|].
    rewrite (lazy_init_done fuel st1) by assumption.
    unfold lazy_init. rewrite Hl, Z.eqb_refl, E. cbn [bind]. rewrite Hs. reflexivity.
  - reflexivity.
  - intros E1 E2 E3 E4 Hf.
    destruct (mm_init_wf fuel st ltac:(lia) E1 E2 E3 E4 Hf) as (st1 & E & Hwf & _).
    eauto.
Qed.

Lemma lazy_initialisation_witness :
  heap_listp st0 = 0 /\ 0 <= mem_brk st0 /\
  (forall n r st1, mm_init 10 st0 = Ret (r, st1) ->
                   malloc 10 n st0 = malloc 10 n st1) /\
  (forall bp r st1, bp <> 0 -> mm_init 10 st0 = Ret (r, st1) ->
                    GET_SIZE (mem st1) (HDRP bp) = GET_SIZE (mem st0) (HDRP bp) ->
                    free 10 bp st0 = free 10 bp st1) /\
  free 10 NULL st0 = Ret st0 /\
  (mem_brk st0 = mem_start st0 -> mem_start st0 + 32 + 4096 <= mem_max st0 ->
   mem_max st0 - mem_start st0 < 2 ^ 32 -> mem_max st0 < 2 ^ 64 -> (2 <= 10)%nat ->
   exists st1, mm_init 10 st0 = Ret (0, st1) /\
               heap_wf st1 [(MIN, true); (CHUNKSIZE, false)] [mem_start st0 + 32]).
Proof.
  assert (H1 : heap_listp st0 = 0) by reflexivity.
  assert (H2 : 0 <= mem_brk st0) by (vm_compute; discriminate).
  split; [exact H1|]. split; [exact H2|].
  exact (lazy_initialisation 10 st0 H1 H2).
Defined.

(** C9 as stated fails for free: free(NULL) on a heap that was never
    initialised returns without running mm_init (the state is unchanged and
    the base pointer still unset), although mm_init would succeed there. *)
Lemma free_null_does_not_initialise :
  heap_listp st0 = 0 /\ free 10 NULL st0 = Ret st0 /\
  value_of (mm_init 10 st0) = Some 0 /\
  heap_listp (state_of (mm_init 10 st0) st0) = 65544.
Proof. vm_compute. repeat split; reflexivity. Qed.

(** * malloc keeps the heap well formed, whatever the fuel *)

Lemma find_fit_loop_ret fuel m asize prev p l b :
  dlseg m prev p l NULL -> find_fit_loop fuel m asize p = Ret b ->
  b = NULL \/ (In b l /\ asize <= GET_SIZE m (HDRP b)).
Proof.
  revert fuel prev p. induction l as [|x l IH]; intros fuel prev p D E.
  - cbn [dlseg] in D. subst p. destruct fuel; [discriminate|].
    cbn in E. inversion E. auto.
  - cbn [dlseg] in D. destruct D as (-> & Hx & _ & D).
    destruct fuel as [|fuel]; [discriminate|]. cbn [find_fit_loop] in E.
    destruct (Z.eqb_spec x NULL); [contradiction|].
    destruct (Z.leb_spec asize (GET_SIZE m (HDRP x))).
    + inversion E; subst. right. simpl. auto.
    + destruct (IH _ _ _ D E) as [?|(? & ?)]; [auto|]. right. simpl. auto.
Qed.

Lemma malloc_ret_wf fuel n st bs fl p st' :
  heap_wf st bs fl -> malloc fuel n st = Ret (p, st') ->
  (p = NULL /\ st' = st) \/
  (p <> NULL /\
   exists bs' fl' sz,
     heap_wf st' bs' fl' /\ block_at (mem_start st' + DSIZE) bs' p sz true /\
     adjusted_size n <= sz).
Proof.
  intros Hwf. pose proof Hwf as (H & Hall & Hnaf).
  pose proof (adjusted_size_facts n) as (Ha & Ha8).
  pose proof (extend_request _ Ha Ha8) as (Er & Er1 & Er2 & Er8 & Er64). cbv zeta in Er.
  unfold malloc. rewrite lazy_init_done by (eapply rep_listp_nonnull; eassumption).
  cbn [bind]. destruct (Z.eqb_spec n 0).
  { intros E. inversion E. auto. }
  intros E. apply bind_ret_inv in E as (b & Ef & E). cbv beta in E.
  destruct (Z.eqb_spec b NULL) as [Eb|Hb]; cbn [negb] in E.
  - destruct (Z_le_gt_dec (mem_brk st + MAX (adjusted_size n) CHUNKSIZE) (mem_max st))
      as [Hroom|Hfull].
    + destruct (extend_heap_wf fuel (MAX (adjusted_size n) CHUNKSIZE / WSIZE) st bs fl
                  _ Hwf (eq_sym Er) ltac:(lia) Er8 Hroom)
        as (b' & st6 & bs' & fl' & Ex & Hwf6 & (bs1' & s' & bs2' & -> & Hne' & Eb' & Hs')
            & Hi & (M1 & M2 & M3 & M4 & M5) & _).
      rewrite Ex in E. apply bind_ret_inv in E as ([bp st7] & E & E').
      apply bind_ret_inv in E as (st8 & Ec & E). inversion E; subst bp st8.
      apply mm_checkheap_ret in Ec. subst st7.
      pose proof Hwf6 as (H6 & _).
      assert (Hnn : b' <> NULL).
      { pose proof (rep_start _ _ _ H).
        pose proof (sizes_total_pos _ (proj1 (proj1 (sizes_ok_app _ _) (rep_sizes _ _ _ H6)))
                      Hne').
        unfold NULL, DSIZE, MIN in *. lia. }
      destruct (Z.eqb_spec b' NULL); [contradiction|]. inversion E'; subst p st'.
      apply heap_wf_tick in Hwf6.
      destruct (place_wf (tick_checks st6) bs1' s' bs2' [] fl' b' (adjusted_size n)
                  Hwf6 Hne') as (bs'' & fl'' & sz & P1 & P2 & P3); trivial.
      * change (mem_start (tick_checks st6)) with (mem_start st6). congruence.
      * lia.
      * right. split; [assumption|]. exists bs'', fl'', sz. auto.
    + rewrite (extend_heap_refused fuel _ st _ (eq_sym Er)) in E by lia.
      cbn [bind] in E. rewrite Z.eqb_refl in E. inversion E. auto.
  - inversion E; subst p st'.
    unfold find_fit in Ef.
    destruct (find_fit_loop_ret _ _ _ _ _ _ _ (rep_list _ _ _ H) Ef) as [?|(Hin & Hge)];
      [contradiction|].
    destruct (free_block_at _ _ _ _ H Hin)
      as (bs1 & c & bs2 & k1 & k2 & -> & Hne & Eb & -> & Ec).
    destruct (place_wf st bs1 c bs2 k1 k2 b (adjusted_size n) Hwf Hne Eb ltac:(lia) Ha8)
      as (bs' & fl' & sz & P1 & P2 & P3).
    right. split; [assumption|]. exists bs', fl', sz. auto.
Qed.

(** The invariant of the allocator: mm_init establishes [heap_wf] (lemma
    [mm_init_wf]), and malloc and free keep it. *)
Theorem heap_wf_invariant fuel st bs fl :
  heap_wf st bs fl ->
  (forall n p st', malloc fuel n st = Ret (p, st') -> exists bs' fl', heap_wf st' bs' fl') /\
  (forall bp sz, block_at (mem_start st + DSIZE) bs bp sz true ->
                 exists st' bs' fl', free fuel bp st = Ret st' /\ heap_wf st' bs' fl').
Proof.
  intros Hwf. split.
  - intros n p st' E.
    destruct (malloc_ret_wf _ _ _ _ _ _ _ Hwf E) as [(_ & ->)|(_ & bs' & fl' & sz & P & _)];
      eauto.
  - intros bp sz Hb.
    destruct (free_wf fuel st bs fl bp sz Hwf Hb) as (st' & bs' & fl' & E & P & _). eauto.
Qed.

(** * More concrete heaps *)

(* the representation of a concrete heap, by evaluation *)
Ltac rep_compute :=
  constructor;
  first [ solve [vm_compute; intuition congruence]
        | solve [repeat constructor; simpl; intuition lia]
        | solve [vm_compute; intros ?; simpl; tauto] ].

Lemma st_two_wf :
  heap_wf st_two [(24, true); (24, false); (24, true); (4048, false)] [65568; 65616].
Proof. wf_compute. Qed.

Lemma st_three_wf :
  heap_wf st_three [(24, true); (24, true); (24, true); (24, true); (4024, false)] [65640].
Proof. wf_compute. Qed.

Lemma st_three_a_wf :
  heap_wf st_three_a [(24, true); (24, false); (24, true); (24, true); (4024, false)]
          [65568; 65640].
Proof. wf_compute. Qed.

Lemma st_three_ac_wf :
  heap_wf st_three_ac [(24, true); (24, false); (24, true); (4048, false)] [65616; 65568].
Proof. wf_compute. Qed.

Lemma st_three_block :
  block_at (mem_start st_three + DSIZE)
           [(24, true); (24, true); (24, true); (24, true); (4024, false)] 65592 24 true.
Proof. exists [(24, true); (24, true)], [(24, true); (4024, false)]. repeat split. discriminate. Qed.

(* the block at 65592 or at 65616 tagged free, as coalesce finds it *)

Lemma st_none_rep :
  heap_rep (mark_free 65592 st_three)
           ([(24, true); (24, true)] ++ (24, false) :: [(24, true); (4024, false)]) [65640].
Proof. rep_compute. Qed.

Lemma st_next_rep :
  heap_rep (mark_free 65616 st_three)
           ([(24, true); (24, true); (24, true)] ++ (24, false) :: (4024, false) :: [])
           ([] ++ (65616 + 24) :: []).
Proof. rep_compute. Qed.

Lemma st_prev_rep :
  heap_rep (mark_free 65592 st_three_a)
           (([(24, true)] ++ [(24, false)]) ++ (24, false) :: [(24, true); (4024, false)])
           ([] ++ (65592 - 24) :: [65640]).
Proof. rep_compute. Qed.

Lemma st_both_rep :
  heap_rep (mark_free 65592 st_three_ac)
           (([(24, true)] ++ [(24, false)]) ++ (24, false) :: (4048, false) :: [])
           ([65616] ++ (65592 - 24) :: []).
Proof. rep_compute. Qed.

(* free-list nodes of st_two, and the payload at 65592 as one more node *)

Lemma nodes_ok_two : nodes_ok [65568; 65616].
Proof.
  split; [|split].
  - repeat constructor; simpl; intuition lia.
  - simpl. intros x Hx. intuition lia.
  - simpl. intros x y Hx Hy. intuition lia.
Qed.

Lemma nodes_ok_three : nodes_ok [65592; 65568; 65616].
Proof.
  split; [|split].
  - repeat constructor; simpl; intuition lia.
  - simpl. intros x Hx. intuition lia.
  - simpl. intros x y Hx Hy. intuition lia.
Qed.

(** * Tags and rounding *)

(** X1.  A tag written by PUT(p, PACK(size, alloc)) is read back by GET_SIZE
    and GET_ALLOC: for a size that is a multiple of 8 the allocation bit comes
    back as written and the size comes back modulo 2^32, since a tag is one
    unsigned int. *)
Theorem tag_round_trip st p sz (al : bool) :
  0 <= sz -> sz mod 8 = 0 ->
  let st' := put p (PACK sz (if al then 1 else 0)) st in
  GET_SIZE (mem st') p = sz mod 2 ^ 32 /\
  GET_ALLOC (mem st') p = (if al then 1 else 0).
Proof.
  intros H0 H8 st'.
  assert (M : (sz mod 2 ^ 32) mod 8 = 0).
  { change (2 ^ 32) with (8 * 536870912). rewrite Z.rem_mul_r by lia.
    rewrite H8. rewrite Z.add_0_l, Z.mul_comm, Z.mod_mul by lia. reflexivity. }
  pose proof (Z.mod_pos_bound sz (2 ^ 32) ltac:(lia)) as B.
  assert (E : GET (mem st') p = tag (sz mod 2 ^ 32) al).
  { unfold st', put, PUT, GET. cbn [mem set_mem]. rewrite load4_store4_same.
    rewrite PACK_tag by assumption. unfold w32. rewrite Zmod_mod. unfold tag.
    pose proof (Z.div_mod (sz mod 2 ^ 32) 8 ltac:(lia)) as D. rewrite M in D.
    pose proof (Z.div_mod sz (2 ^ 32) ltac:(lia)) as D'.
    symmetry. apply Z.mod_unique with (q := sz / 2 ^ 32); [left|]; destruct al; lia. }
  split.
  - eapply GET_SIZE_tag; [exact E | lia | exact M].
  - eapply GET_ALLOC_tag; [exact E | lia | exact M].
Qed.

Lemma tag_round_trip_witness :
  GET_SIZE (mem (put 65536 (PACK (2 ^ 32 + 24) 1) st0)) 65536 = (2 ^ 32 + 24) mod 2 ^ 32 /\
  GET_ALLOC (mem (put 65536 (PACK (2 ^ 32 + 24) 1) st0)) 65536 = 1.
Proof.
  exact (tag_round_trip st0 65536 (2 ^ 32 + 24) true ltac:(lia) eq_refl).
Defined.

Lemma ALIGN_round_up x :
  0 <= x -> x + 7 < 2 ^ 64 ->
  ALIGN x = 8 * ((x + 7) / 8) /\ x <= ALIGN x < x + 8 /\ ALIGN x mod 8 = 0.
Proof.
  intros H0 H.
  pose proof (Z.div_mod (x + 7) 8 ltac:(lia)) as D.
  pose proof (Z.mod_pos_bound (x + 7) 8 ltac:(lia)) as B.
  assert (E : ALIGN x = 8 * ((x + 7) / 8)).
  { unfold ALIGN, w64 at 2. change (8 - 1) with 7.
    rewrite w64_small by lia. rewrite land_mask by lia. lia. }
  rewrite E. repeat split; try lia.
  rewrite Z.mul_comm. apply Z.mod_mul. lia.
Qed.

Lemma ALIGN_wraps x : 2 ^ 64 - 7 <= x < 2 ^ 64 -> ALIGN x = 0.
Proof.
  intros H. unfold ALIGN, w64 at 2. change (8 - 1) with 7.
  assert (E : w64 (x + 7) = x + 7 - 2 ^ 64).
  { unfold w64. symmetry. apply Z.mod_unique with (q := 1); [left|]; lia. }
  rewrite E. rewrite land_mask by lia.
  rewrite Z.mod_small by lia. lia.
Qed.

(** X2.  ALIGN rounds a size_t up to the next multiple of 8: the result is
    always a multiple of 8; when [x + 7] does not overflow it is
    [8 * ceil(x / 8)], between [x] and [x + 7]; for the seven largest values
    of size_t the sum wraps and the result is 0. *)
Theorem ALIGN_rounds_up x :
  0 <= x < 2 ^ 64 ->
  ALIGN x mod 8 = 0 /\
  (x + 7 < 2 ^ 64 -> ALIGN x = 8 * ((x + 7) / 8) /\ x <= ALIGN x < x + 8) /\
  (2 ^ 64 - 7 <= x -> ALIGN x = 0).
Proof.
  intros Hx. split; [|split].
  - destruct (Z_lt_le_dec (x + 7) (2 ^ 64)) as [H|H].
    + apply ALIGN_round_up; lia.
    + rewrite ALIGN_wraps by lia. reflexivity.
  - intros H. destruct (ALIGN_round_up x) as (E & B & _); lia.
  - intros H. apply ALIGN_wraps. lia.
Qed.

Lemma ALIGN_rounds_up_witness :
  ALIGN 13 mod 8 = 0 /\
  (13 + 7 < 2 ^ 64 -> ALIGN 13 = 8 * ((13 + 7) / 8) /\ 13 <= ALIGN 13 < 13 + 8) /\
  (2 ^ 64 - 7 <= 13 -> ALIGN 13 = 0).
Proof. exact (ALIGN_rounds_up 13 ltac:(lia)). Defined.

Lemma extend_size words :
  0 <= words -> (words + 1) * 4 + 7 < 2 ^ 64 ->
  ALIGN (if negb (words mod 2 =? 0) then w64 ((words + 1) * WSIZE)
         else w64 (words * WSIZE)) = 8 * ((words + 1) / 2).
Proof.
  intros H0 H. unfold WSIZE.
  pose proof (Z.div_mod words 2 ltac:(lia)) as D.
  pose proof (Z.mod_pos_bound words 2 ltac:(lia)) as B.
  destruct (Z.eqb_spec (words mod 2) 0) as [E|E]; cbn [negb].
  - rewrite w64_small by lia.
    assert (E2 : (words + 1) / 2 = words / 2).
    { symmetry. apply Z.div_unique with (r := 1); lia. }
    rewrite E2. rewrite ALIGN_aligned; try lia.
    rewrite D at 1. rewrite E.
    replace ((2 * (words / 2) + 0) * 4) with ((words / 2) * 8) by lia.
    apply Z.mod_mul. lia.
  - rewrite w64_small by lia.
    assert (E2 : (words + 1) / 2 = words / 2 + 1).
    { symmetry. apply Z.div_unique with (r := 0); lia. }
    rewrite E2. rewrite ALIGN_aligned; try lia.
    replace ((words + 1) * 4) with ((words / 2 + 1) * 8) by lia.
    apply Z.mod_mul. lia.
Qed.

(** * The free list as a stack *)

(** X3.  insert_free_block pushes a node at the head of the free list: if
    the list is [l] and [b] is a node apart from those of [l], the list
    becomes [b :: l], [free_p] is [b], and only link fields of [b] and of the
    nodes of [l] are written. *)
Theorem insert_free_block_pushes st l b :
  nodes_ok (b :: l) ->
  dlseg (mem st) NULL (free_p st) l NULL ->
  free_p (insert_free_block b st) = b /\
  dlseg (mem (insert_free_block b st)) NULL (free_p (insert_free_block b st)) (b :: l) NULL /\
  (forall y, ~ in_links (b :: l) y -> mem (insert_free_block b st) y = mem st y).
Proof.
  intros OK D. destruct (insert_free_block_list st l b OK D) as (D' & F).
  split; [|split; assumption]. cbn [dlseg] in D'. apply D'.
Qed.

Lemma insert_free_block_pushes_witness :
  free_p (insert_free_block 65592 st_two) = 65592 /\
  dlseg (mem (insert_free_block 65592 st_two)) NULL (free_p (insert_free_block 65592 st_two))
        [65592; 65568; 65616] NULL /\
  (forall y, ~ in_links [65592; 65568; 65616] y ->
             mem (insert_free_block 65592 st_two) y = mem st_two y).
Proof.
  exact (insert_free_block_pushes st_two [65568; 65616] 65592 nodes_ok_three
           (rep_list _ _ _ (proj1 st_two_wf))).
Defined.

(** X4.  remove_block unlinks a node wherever it stands: if the free list is
    [l1 ++ x :: l2] (distinct nodes that do not overlap) it becomes
    [l1 ++ l2], in the same order, and only link fields of the remaining nodes
    are written.  The four cases of the code are the four shapes of [l1] and
    [l2] (empty or not). *)
Theorem remove_block_unlinks st l1 x l2 :
  nodes_ok (l1 ++ x :: l2) ->
  dlseg (mem st) NULL (free_p st) (l1 ++ x :: l2) NULL ->
  dlseg (mem (remove_block x st)) NULL (free_p (remove_block x st)) (l1 ++ l2) NULL /\
  (forall y, ~ in_links (l1 ++ l2) y -> mem (remove_block x st) y = mem st y).
Proof. apply remove_block_list. Qed.

Lemma remove_block_unlinks_witness :
  dlseg (mem (remove_block 65616 st_two)) NULL (free_p (remove_block 65616 st_two))
        ([65568] ++ []) NULL /\
  (forall y, ~ in_links ([65568] ++ []) y -> mem (remove_block 65616 st_two) y = mem st_two y).
Proof.
  exact (remove_block_unlinks st_two [65568] 65616 [] nodes_ok_two
           (rep_list _ _ _ (proj1 st_two_wf))).
Defined.

(** X5.  Inserting a node and removing it again restores the free list:
    [free_p] and the list are what they were, and the memory is unchanged
    outside the link fields of the nodes. *)
Theorem insert_then_remove st l b :
  nodes_ok (b :: l) -> dlseg (mem st) NULL (free_p st) l NULL ->
  let st' := remove_block b (insert_free_block b st) in
  free_p st' = free_p st /\ dlseg (mem st') NULL (free_p st') l NULL /\
  (forall y, ~ in_links (b :: l) y -> mem st' y = mem st y).
Proof.
  intros OK D st'.
  destruct (insert_free_block_list st l b OK D) as (D1 & F1).
  destruct (remove_block_list (insert_free_block b st) [] b l OK D1) as (D2 & F2).
  cbn [app] in D2, F2. fold st' in D2, F2.
  split; [|split; [exact D2|]].
  - apply dlseg_head in D, D2. congruence.
  - intros y Hy. rewrite F2.
    + apply F1. exact Hy.
    + intros C. apply Hy. apply in_links_cons. auto.
Qed.

Lemma insert_then_remove_witness :
  free_p (remove_block 65592 (insert_free_block 65592 st_two)) = free_p st_two /\
  dlseg (mem (remove_block 65592 (insert_free_block 65592 st_two))) NULL
        (free_p (remove_block 65592 (insert_free_block 65592 st_two))) [65568; 65616] NULL /\
  (forall y, ~ in_links [65592; 65568; 65616] y ->
             mem (remove_block 65592 (insert_free_block 65592 st_two)) y = mem st_two y).
Proof.
  exact (insert_then_remove st_two [65568; 65616] 65592 nodes_ok_three
           (rep_list _ _ _ (proj1 st_two_wf))).
Defined.

(** * The four cases of coalesce

    coalesce is called on a block [b] of size [s] that has just been tagged
    free and is not on the free list, in a heap that is otherwise represented
    by its chain and its free list ([heap_rep]). *)

(** X6.  coalesce, both neighbours allocated: the block and the state are
    returned unchanged. *)
Theorem coalesce_between_allocated st bs1 s bs2 fl b :
  heap_rep st (bs1 ++ (s, false) :: bs2) fl -> bs1 <> [] ->
  b = mem_start st + DSIZE + total bs1 ->
  last_alloc bs1 = true -> head_alloc bs2 = true ->
  coalesce b st = (b, st).
Proof. apply coalesce_none. Qed.

Lemma coalesce_between_allocated_witness :
  coalesce 65592 (mark_free 65592 st_three) = (65592, mark_free 65592 st_three).
Proof.
  exact (coalesce_between_allocated (mark_free 65592 st_three) [(24, true); (24, true)] 24
           [(24, true); (4024, false)] [65640] 65592 st_none_rep
           ltac:(discriminate) eq_refl eq_refl eq_refl).
Defined.

(** X7.  coalesce, the previous block (of size [sp]) is free and the next one
    allocated: the previous block leaves the free list, the two blocks become
    one free block of size [sp + s] that starts at [b - sp], which is the
    pointer returned; outside the merged block only link fields of the
    remaining free-list nodes are written. *)
Theorem coalesce_with_previous st bs1 sp s bs2 l1 l2 b :
  heap_rep st ((bs1 ++ [(sp, false)]) ++ (s, false) :: bs2) (l1 ++ (b - sp) :: l2) ->
  bs1 <> [] ->
  b = mem_start st + DSIZE + total (bs1 ++ [(sp, false)]) ->
  head_alloc bs2 = true ->
  ~ In b (l1 ++ (b - sp) :: l2) ->
  exists st', coalesce b st = (b - sp, st') /\
              heap_rep st' (bs1 ++ (sp + s, false) :: bs2) (l1 ++ l2) /\
              (forall y, ~ (b - sp - 4 <= y < b + s - 4) -> ~ in_links (l1 ++ l2) y ->
                         mem st' y = mem st y).
Proof. apply coalesce_prev. Qed.

Lemma coalesce_with_previous_witness :
  exists st', coalesce 65592 (mark_free 65592 st_three_a) = (65592 - 24, st') /\
              heap_rep st' ([(24, true)] ++ (24 + 24, false) :: [(24, true); (4024, false)])
                       ([] ++ [65640]) /\
              (forall y, ~ (65592 - 24 - 4 <= y < 65592 + 24 - 4) ->
                         ~ in_links ([] ++ [65640]) y ->
                         mem st' y = mem (mark_free 65592 st_three_a) y).
Proof.
  apply (coalesce_with_previous (mark_free 65592 st_three_a) [(24, true)] 24 24
           [(24, true); (4024, false)] [] [65640] 65592 st_prev_rep).
  - discriminate.
  - reflexivity.
  - reflexivity.
  - simpl. intuition lia.
Defined.

(** X8.  coalesce, the previous block is allocated and the next one (of size
    [sn]) free: the next block leaves the free list and the two blocks become
    one free block of size [s + sn] at [b]. *)
Theorem coalesce_with_next st bs1 s sn bs2 l1 l2 b :
  heap_rep st (bs1 ++ (s, false) :: (sn, false) :: bs2) (l1 ++ (b + s) :: l2) ->
  bs1 <> [] ->
  b = mem_start st + DSIZE + total bs1 ->
  last_alloc bs1 = true ->
  ~ In b (l1 ++ (b + s) :: l2) ->
  exists st', coalesce b st = (b, st') /\
              heap_rep st' (bs1 ++ (s + sn, false) :: bs2) (l1 ++ l2) /\
              (forall y, ~ (b - 4 <= y < b + s + sn - 4) -> ~ in_links (l1 ++ l2) y ->
                         mem st' y = mem st y).
Proof. apply coalesce_next. Qed.

Lemma coalesce_with_next_witness :
  exists st', coalesce 65616 (mark_free 65616 st_three) = (65616, st') /\
              heap_rep st' ([(24, true); (24, true); (24, true)] ++ (24 + 4024, false) :: [])
                       ([] ++ []) /\
              (forall y, ~ (65616 - 4 <= y < 65616 + 24 + 4024 - 4) ->
                         ~ in_links ([] ++ []) y ->
                         mem st' y = mem (mark_free 65616 st_three) y).
Proof.
  apply (coalesce_with_next (mark_free 65616 st_three) [(24, true); (24, true); (24, true)]
           24 4024 [] [] [] 65616 st_next_rep).
  - discriminate.
  - reflexivity.
  - reflexivity.
  - simpl. intuition lia.
Defined.

(** X9.  coalesce, both neighbours free: both leave the free list (whose
    remaining nodes keep their order) and the three blocks become one free
    block of size [sp + s + sn] that starts at [b - sp], the pointer
    returned. *)
Theorem coalesce_with_both st bs1 sp s sn bs2 l1 l2 k1 k2 b :
  heap_rep st ((bs1 ++ [(sp, false)]) ++ (s, false) :: (sn, false) :: bs2)
           (l1 ++ (b - sp) :: l2) ->
  l1 ++ l2 = k1 ++ (b + s) :: k2 ->
  bs1 <> [] ->
  b = mem_start st + DSIZE + total (bs1 ++ [(sp, false)]) ->
  ~ In b (l1 ++ (b - sp) :: l2) ->
  exists st', coalesce b st = (b - sp, st') /\
              heap_rep st' (bs1 ++ (sp + s + sn, false) :: bs2) (k1 ++ k2) /\
              (forall y, ~ (b - sp - 4 <= y < b + s + sn - 4) -> ~ in_links (k1 ++ k2) y ->
                         mem st' y = mem st y).
Proof. apply coalesce_both. Qed.

Lemma coalesce_with_both_witness :
  exists st', coalesce 65592 (mark_free 65592 st_three_ac) = (65592 - 24, st') /\
              heap_rep st' ([(24, true)] ++ (24 + 24 + 4048, false) :: []) ([] ++ []) /\
              (forall y, ~ (65592 - 24 - 4 <= y < 65592 + 24 + 4048 - 4) ->
                         ~ in_links ([] ++ []) y ->
                         mem st' y = mem (mark_free 65592 st_three_ac) y).
Proof.
  apply (coalesce_with_both (mark_free 65592 st_three_ac) [(24, true)] 24 24 4048 []
           [65616] [] [] [] 65592 st_both_rep).
  - reflexivity.
  - discriminate.
  - reflexivity.
  - simpl. intuition lia.
Defined.

(** * What the validator accepts, and what a pass means *)

(** X10.  mm_checkheap accepts every heap that is represented by a chain of
    blocks and a free list: given fuel for the length of the free list it
    returns, never exits, and changes nothing (the state differs only by the
    count of validator runs of the model). *)
Theorem checkheap_accepts fuel lineno st bs fl :
  heap_rep st bs fl -> (List.length fl < fuel)%nat ->
  mm_checkheap fuel lineno st = Ret (tick_checks st).
Proof. apply mm_checkheap_pass. Qed.

Lemma checkheap_accepts_witness :
  mm_checkheap 10 0 st_one = Ret (tick_checks st_one).
Proof.
  exact (checkheap_accepts 10 0 st_one _ _ (proj1 st_one_wf) ltac:(simpl; lia)).
Defined.

Lemma check_free_loop_sound fuel st prev p :
  check_free_loop fuel st p = Ret tt ->
  (p <> NULL -> PREV_FREE_BLOCK (mem st) p = prev) ->
  exists l, dlseg (mem st) prev p l NULL /\
            (forall x, In x l -> mem_heap_lo st <= x <= mem_heap_hi st) /\
            (List.length l < fuel)%nat.
Proof.
  revert prev p. induction fuel as [|fuel IH]; intros prev p E Hp.
  { discriminate. }
  cbn [check_free_loop] in E.
  destruct (Z.eqb_spec p NULL) as [Ep|Hn].
  { exists []. cbn. repeat split; trivial; try tauto; lia. }
  cbv zeta in E.
  destruct (negb (NEXT_FREE_BLOCK (mem st) p =? NULL)
            && negb (p =? PREV_FREE_BLOCK (mem st) (NEXT_FREE_BLOCK (mem st) p))) eqn:C1;
    [discriminate|].
  destruct ((p <? mem_heap_lo st) || (p >? mem_heap_hi st)) eqn:C2; [discriminate|].
  apply orb_false_iff in C2 as (C2 & C3). apply Z.ltb_ge in C2.
  assert (C3' : p <= mem_heap_hi st).
  { destruct (Z.gtb_spec p (mem_heap_hi st)); [discriminate | lia]. }
  destruct (IH p (NEXT_FREE_BLOCK (mem st) p) E) as (l & D & Hb & Hl).
  { intros Hnn. apply andb_false_iff in C1 as [C1|C1].
    - apply negb_false_iff, Z.eqb_eq in C1. contradiction.
    - apply negb_false_iff, Z.eqb_eq in C1. congruence. }
  exists (p :: l). cbn [dlseg]. split; [auto|]. split.
  - intros x [<-|Hx]; [lia | auto].
  - simpl. lia.
Qed.

Lemma GET_SIZE_range m p : 0 <= GET_SIZE m p < 2 ^ 32.
Proof.
  unfold GET_SIZE, GET. pose proof (load4_range m p) as R.
  rewrite land_lnot7 by assumption.
  pose proof (Z.mod_pos_bound (load4 m p) 8 ltac:(lia)).
  pose proof (Z.mod_le (load4 m p) 8 ltac:(lia) ltac:(lia)). lia.
Qed.

Lemma GET_ALLOC_range m p : 0 <= GET_ALLOC m p < 2.
Proof.
  unfold GET_ALLOC. change 1 with (Z.ones 1). rewrite Z.land_ones by lia.
  apply Z.mod_pos_bound. lia.
Qed.

Lemma to_int_eq x c : 0 <= x < 2 ^ 32 -> 0 <= c -> to_int x = c -> x = c.
Proof.
  intros Hx Hc. unfold to_int. rewrite w32_small by assumption.
  destruct (Z.ltb_spec x (2 ^ 31)); lia.
Qed.

(** X11.  What a return of mm_checkheap guarantees: [heap_listp] is 8 bytes
    above the start of the heap; the header or the footer of the prologue
    holds the size 24, and one of them has the allocated bit (the tests of the
    code are conjunctions, so one good tag is enough); the epilogue word has
    size 0 and the allocated bit; and the free list is a NULL-terminated
    doubly linked list, with consistent back links, whose nodes lie inside the
    heap.  Nothing is guaranteed about the other blocks. *)
Theorem checkheap_pass_means fuel lineno st st' :
  mm_checkheap fuel lineno st = Ret st' ->
  let m := mem st in
  st' = tick_checks st /\ heap_listp st = mem_start st + DSIZE /\
  (GET_SIZE m (HDRP (heap_listp st)) = MIN \/ GET_SIZE m (FTRP m (heap_listp st)) = MIN) /\
  (GET_ALLOC m (HDRP (heap_listp st)) = 1 \/ GET_ALLOC m (FTRP m (heap_listp st)) = 1) /\
  (4 <= mem_brk st - mem_start st < 2 ^ 64 ->
   GET_SIZE m (mem_brk st - 4) = 0 /\ GET_ALLOC m (mem_brk st - 4) = 1) /\
  exists l, dlseg m NULL (free_p st) l NULL /\
            (forall x, In x l -> mem_start st <= x < mem_brk st).
Proof.
  intros Hc m. pose proof (mm_checkheap_ret _ _ _ _ Hc) as ->. split; [reflexivity|].
  unfold mm_checkheap in Hc.
  change (mem (tick_checks st)) with m in Hc.
  change (heap_listp (tick_checks st)) with (heap_listp st) in Hc.
  change (free_p (tick_checks st)) with (free_p st) in Hc.
  change (mem_heap_lo (tick_checks st)) with (mem_start st) in Hc.
  change (mem_heapsize (tick_checks st)) with (mem_brk st - mem_start st) in Hc.
  cbv zeta in Hc.
  destruct (Z.eqb_spec (mem_start st + DSIZE) (heap_listp st)) as [E1|]; [|discriminate].
  cbn [negb] in Hc. split; [congruence|].
  destruct (negb (to_int (GET_SIZE m (HDRP (heap_listp st))) =? MIN)
            && negb (to_int (GET_SIZE m (FTRP m (heap_listp st))) =? MIN)) eqn:C2;
    [discriminate|].
  destruct (negb (to_int (GET_ALLOC m (HDRP (heap_listp st))) =? 1)
            && negb (to_int (GET_ALLOC m (FTRP m (heap_listp st))) =? 1)) eqn:C3;
    [discriminate|].
  destruct (negb (to_int (GET_SIZE m (mem_start st + w64 (mem_brk st - mem_start st - WSIZE)))
                  =? 0)) eqn:C4; [discriminate|].
  destruct (negb (to_int (GET_ALLOC m (mem_start st + w64 (mem_brk st - mem_start st - WSIZE)))
                  =? 1)) eqn:C5; [discriminate|].
  destruct (negb (free_p st =? NULL) && negb (PREV_FREE_BLOCK m (free_p st) =? NULL))
    eqn:C6; [discriminate|].
  assert (R1 : forall p, 0 <= GET_ALLOC m p < 2 ^ 32).
  { intros p. pose proof (GET_ALLOC_range m p). lia. }
  split.
  { apply andb_false_iff in C2 as [C|C]; apply negb_false_iff, Z.eqb_eq in C;
      [left | right]; (apply to_int_eq; [apply GET_SIZE_range | unfold MIN; lia | exact C]). }
  split.
  { apply andb_false_iff in C3 as [C|C]; apply negb_false_iff, Z.eqb_eq in C;
      [left | right]; (apply to_int_eq; [apply R1 | lia | exact C]). }
  split.
  { intros Hsz. unfold WSIZE in *. rewrite w64_small in C4, C5 by lia.
    replace (mem_start st + (mem_brk st - mem_start st - 4)) with (mem_brk st - 4)
      in C4, C5 by lia.
    apply negb_false_iff, Z.eqb_eq in C4, C5. split.
    - apply to_int_eq; [apply GET_SIZE_range | lia | exact C4].
    - apply to_int_eq; [apply R1 | lia | exact C5]. }
  apply bind_ret_inv in Hc as ([] & Hl & _).
  destruct (check_free_loop_sound fuel (tick_checks st) NULL (free_p st) Hl)
    as (l & D & Hb & _).
  - intros Hn. apply andb_false_iff in C6 as [C|C];
      apply negb_false_iff, Z.eqb_eq in C; [contradiction | exact C].
  - exists l. split; [exact D|]. intros x Hx. apply Hb in Hx.
    unfold mem_heap_lo, mem_heap_hi in Hx. cbn in Hx. lia.
Qed.

Lemma checkheap_pass_means_witness :
  tick_checks st_bad = tick_checks st_bad /\
  heap_listp st_bad = mem_start st_bad + DSIZE /\
  (GET_SIZE (mem st_bad) (HDRP (heap_listp st_bad)) = MIN \/
   GET_SIZE (mem st_bad) (FTRP (mem st_bad) (heap_listp st_bad)) = MIN) /\
  (GET_ALLOC (mem st_bad) (HDRP (heap_listp st_bad)) = 1 \/
   GET_ALLOC (mem st_bad) (FTRP (mem st_bad) (heap_listp st_bad)) = 1) /\
  (4 <= mem_brk st_bad - mem_start st_bad < 2 ^ 64 ->
   GET_SIZE (mem st_bad) (mem_brk st_bad - 4) = 0 /\
   GET_ALLOC (mem st_bad) (mem_brk st_bad - 4) = 1) /\
  exists l, dlseg (mem st_bad) NULL (free_p st_bad) l NULL /\
            (forall x, In x l -> mem_start st_bad <= x < mem_brk st_bad).
Proof.
  assert (E : mm_checkheap 10 0 st_bad = Ret (tick_checks st_bad))
    by (vm_compute; reflexivity).
  exact (checkheap_pass_means 10 0 st_bad (tick_checks st_bad) E).
Defined.

(** * Initialisation, with and without room *)

(** X12.  On an empty memlib heap with room for the 32 bytes of the initial
    heap and for one chunk, mm_init returns 0 and leaves a well-formed heap:
    the prologue block of 24 bytes followed by one free block of CHUNKSIZE
    bytes, which is the only node of the free list.  [heap_listp] is the
    payload of the prologue, and the heap has grown by 32 + 4096 bytes. *)
Theorem mm_init_builds_heap fuel st :
  0 <= mem_start st -> mem_brk st = mem_start st ->
  mem_start st + 32 + 4096 <= mem_max st ->
  mem_max st - mem_start st < 2 ^ 32 -> mem_max st < 2 ^ 64 ->
  (2 <= fuel)%nat ->
  exists st',
    mm_init fuel st = Ret (0, st') /\
    heap_wf st' [(MIN, true); (CHUNKSIZE, false)] [mem_start st + 32] /\
    heap_listp st' = mem_start st + DSIZE /\ free_p st' = mem_start st + 32 /\
    mem_start st' = mem_start st /\ mem_brk st' = mem_start st + 32 + 4096 /\
    mem_max st' = mem_max st.
Proof.
  intros H0 Hb Hr H32 H64 Hf.
  destruct (mm_init_wf fuel st H0 Hb Hr H32 H64 Hf)
    as (st' & E & Hwf & Es & Ek & Em & _).
  pose proof (rep_listp _ _ _ (proj1 Hwf)) as L. rewrite Es in L.
  pose proof (rep_list _ _ _ (proj1 Hwf)) as D. cbn [dlseg] in D.
  exists st'. split; [exact E|]. split; [exact Hwf|].
  repeat split; trivial; apply D.
Qed.

Lemma mm_init_builds_heap_witness :
  exists st',
    mm_init 10 st0 = Ret (0, st') /\
    heap_wf st' [(MIN, true); (CHUNKSIZE, false)] [mem_start st0 + 32] /\
    heap_listp st' = mem_start st0 + DSIZE /\ free_p st' = mem_start st0 + 32 /\
    mem_start st' = mem_start st0 /\ mem_brk st' = mem_start st0 + 32 + 4096 /\
    mem_max st' = mem_max st0.
Proof.
  apply (mm_init_builds_heap 10 st0); vm_compute; first [reflexivity | discriminate | lia].
Defined.

(** X13.  Running out of memory during the lazy initialisation: on a heap
    that was never initialised and on which memlib cannot provide the initial
    32 bytes and one chunk, malloc of a non-zero size returns NULL.  The
    failure of mm_init is not reported and not retried: [heap_listp] has been
    set, so later calls skip the initialisation. *)
Theorem malloc_no_room_at_init fuel n st :
  heap_listp st = 0 -> free_p st = NULL -> 0 <= mem_brk st ->
  mem_max st < mem_brk st + 32 + 4096 -> n <> 0 -> (1 <= fuel)%nat ->
  exists st',
    malloc fuel n st = Ret (NULL, st') /\ heap_listp st' <> 0 /\
    free_p st' = NULL /\ mem_brk st' <= mem_brk st + 32.
Proof.
  intros Hl Hp Hb Hr Hn Hf.
  assert (I : exists st1, mm_init fuel st = Ret (-1, st1) /\ heap_listp st1 <> 0 /\
                          free_p st1 = NULL /\ mem_max st1 < mem_brk st1 + 4096 /\
                          mem_brk st1 <= mem_brk st + 32).
  { unfold mm_init, mem_sbrk.
    destruct ((8 * WSIZE <? 0) || (mem_max st <? mem_brk st + 8 * WSIZE)) eqn:C.
    - apply orb_true_iff in C as [C|C]; [discriminate|]. apply Z.ltb_lt in C.
      change (8 * WSIZE) with 32 in *.
      cbn. eexists. split; [reflexivity|]. cbn.
      repeat split; trivial; try lia; try discriminate.
    - apply orb_false_iff in C as (_ & C). apply Z.ltb_ge in C.
      change (8 * WSIZE) with 32 in *.
      cbn [heap_listp set_heap_listp].
      destruct (Z.eqb_spec (mem_brk st) PTR_ERR) as [E|E].
      + eexists. split; [reflexivity|]. cbn. rewrite E.
        repeat split; trivial; try lia; try discriminate.
      + set (st9 := set_free_p _ NULL).
        rewrite (extend_heap_refused fuel _ st9 4096).
        * cbn [bind]. rewrite Z.eqb_refl. eexists. split; [reflexivity|].
          cbn. unfold DSIZE, WSIZE. repeat split; trivial; lia.
        * reflexivity.
        * cbn. lia. }
  destruct I as (st1 & E1 & Hl1 & Hp1 & Hm1 & Hb1).
  exists st1. unfold malloc, lazy_init. rewrite Hl. cbn [Z.eqb]. rewrite E1. cbn [bind].
  destruct (Z.eqb_spec n 0) as [|_]; [contradiction|].
  destruct fuel as [|fuel]; [lia|].
  unfold find_fit. rewrite Hp1. cbn [find_fit_loop]. rewrite Z.eqb_refl. cbn [bind negb].
  rewrite Z.eqb_refl.
  pose proof (adjusted_size_facts n) as [Ha Ha8].
  pose proof (extend_request _ Ha Ha8) as (Hs & Hs1 & Hs2 & _). cbv zeta in Hs.
  rewrite (extend_heap_refused _ _ _ _ (eq_sym Hs)).
  - cbn [bind]. rewrite Z.eqb_refl. repeat split; trivial.
  - change CHUNKSIZE with 4096 in *. lia.
Qed.

Lemma malloc_no_room_at_init_witness :
  exists st',
    malloc 10 16 st_tiny = Ret (NULL, st') /\ heap_listp st' <> 0 /\
    free_p st' = NULL /\ mem_brk st' <= mem_brk st_tiny + 32.
Proof.
  apply (malloc_no_room_at_init 10 16 st_tiny); vm_compute;
    first [reflexivity | discriminate | lia].
Defined.

Lemma checkheap_bad_start fuel lineno st :
  heap_listp st <> mem_start st + DSIZE ->
  mm_checkheap fuel lineno st = Exit "Heap start is NOT correct".
Proof.
  intros H. unfold mm_checkheap.
  change (mem_heap_lo (tick_checks st)) with (mem_start st).
  change (heap_listp (tick_checks st)) with (heap_listp st).
  destruct (Z.eqb_spec (mem_start st + DSIZE) (heap_listp st)); [congruence | reflexivity].
Qed.

(** X14.  mm_init expects an empty memlib heap.  Called on a heap that
    already holds bytes (and has room for 32 + 4096 more) it builds a second
    prologue at the end of the heap, and the validator that extend_heap runs
    finds that [heap_listp] is no longer 8 bytes above the start of the heap:
    the process is terminated by exit. *)
Theorem mm_init_again_exits fuel st :
  mem_brk st <> mem_start st ->
  0 <= mem_brk st -> mem_brk st + 32 + 4096 <= mem_max st -> mem_max st < 2 ^ 64 ->
  mm_init fuel st = Exit "Heap start is NOT correct".
Proof.
  intros Hne H0 Hr H64. unfold mm_init, mem_sbrk. change (8 * WSIZE) with 32.
  destruct (Z.ltb_spec (mem_max st) (mem_brk st + 32)); [lia|]. cbn [Z.ltb orb Z.compare].
  cbn [heap_listp set_heap_listp].
  destruct (Z.eqb_spec (mem_brk st) PTR_ERR); [unfold PTR_ERR in *; lia|].
  set (st9 := set_free_p _ NULL).
  assert (E9 : heap_listp st9 = mem_brk st + DSIZE /\ mem_start st9 = mem_start st /\
               mem_brk st9 = mem_brk st + 32 /\ mem_max st9 = mem_max st /\
               free_p st9 = NULL).
  { unfold st9. cbn. repeat split. }
  destruct E9 as (L9 & S9 & B9 & M9 & F9). clearbody st9.
  unfold extend_heap, mem_sbrk.
  change (ALIGN _) with 4096. rewrite B9, M9.
  destruct (Z.ltb_spec (mem_max st) (mem_brk st + 32 + 4096)); [lia|].
  cbn [Z.ltb orb Z.compare].
  destruct (Z.eqb_spec (mem_brk st + 32) PTR_ERR); [unfold PTR_ERR in *; lia|].
  set (st4 := put (HDRP (NEXT_BLKP _ _)) (PACK 0 1) _).
  assert (F4 : free_p st4 = NULL) by (unfold st4; cbn; exact F9).
  assert (Ec : coalesce (mem_brk st + 32) st4 = (mem_brk st + 32, st4))
    by (unfold coalesce; rewrite F4; reflexivity).
  rewrite Ec.
  rewrite checkheap_bad_start; [reflexivity|].
  destruct (same_meta_insert (mem_brk st + 32) st4) as (I1 & I2 & _).
  rewrite I1, I2. unfold st4. cbn [heap_listp mem_start put set_mem set_brk].
  rewrite L9, S9. lia.
Qed.

Lemma mm_init_again_exits_witness : mm_init 10 st_init = Exit "Heap start is NOT correct".
Proof.
  apply (mm_init_again_exits 10 st_init); vm_compute;
    first [reflexivity | discriminate | lia].
Defined.

(** * Where a block of the chain lies *)

(* a block of [pre ++ mid ++ post] is a block of [pre], of [mid] or of [post] *)
Lemma block_at_cases a pre mid post q sq al :
  block_at a (pre ++ mid ++ post) q sq al ->
  (exists p1 p2, pre = p1 ++ (sq, al) :: p2 /\ q = a + total p1 /\ p1 <> []) \/
  (exists m1 m2, mid = m1 ++ (sq, al) :: m2 /\ q = a + total pre + total m1) \/
  (exists p1 p2, post = p1 ++ (sq, al) :: p2 /\ q = a + total pre + total mid + total p1).
Proof.
  intros (A & B & E & Eq & Hne).
  apply app_eq_app in E as (l & [(E1 & E2)|(E1 & E2)]).
  - destruct l as [|x l].
    + rewrite app_nil_r in E1. subst A. cbn [app] in E2.
      destruct mid as [|y mid].
      * right. right. exists [], B. cbn [app total] in *. split; [auto | lia].
      * right. left. exists [], mid. cbn [app] in E2. inversion E2; subst.
        split; [reflexivity | cbn [total]; lia].
    + cbn [app] in E2. inversion E2; subst. left. exists A, l. auto.
  - apply app_eq_app in E2 as (l' & [(E3 & E4)|(E3 & E4)]).
    + destruct l' as [|x l'].
      * rewrite app_nil_r in E3. subst. right. right. exists [], B.
        cbn [app] in E4. split; [auto|]. rewrite total_app. cbn [total]. lia.
      * cbn [app] in E4. inversion E4; subst. right. left. exists l, l'.
        split; [reflexivity|]. rewrite total_app. lia.
    + subst. right. right. exists l', B. split; [reflexivity|].
      rewrite !total_app. lia.
Qed.

(* an allocated block outside a run of free blocks is untouched when the run
   is rewritten *)
Lemma live_replace a pre mid mid' post q sq :
  sizes_ok (pre ++ mid ++ post) ->
  Forall (fun x : blk => snd x = false) mid -> pre <> [] ->
  total mid' = total mid ->
  block_at a (pre ++ mid ++ post) q sq true ->
  block_at a (pre ++ mid' ++ post) q sq true /\
  (q + sq <= a + total pre \/ a + total pre + total mid <= q).
Proof.
  intros Hs Hf Hne Ht Hb.
  apply sizes_ok_app in Hs as (Hs1 & Hs). apply sizes_ok_app in Hs as (Hs2 & Hs3).
  apply block_at_cases in Hb as [(p1 & p2 & -> & -> & Hp)|[(m1 & m2 & -> & _)|(p1 & p2 & -> & ->)]].
  - split.
    + exists p1, (p2 ++ mid' ++ post). rewrite <- app_assoc. auto.
    + left. rewrite total_app. cbn [total].
      apply sizes_ok_app in Hs1 as (_ & Hs1). apply Forall_inv_tail in Hs1.
      pose proof (sizes_total _ Hs1). lia.
  - apply Forall_app in Hf as (_ & Hf). apply Forall_inv in Hf. discriminate.
  - split.
    + exists (pre ++ mid' ++ p1), p2. rewrite <- !app_assoc. repeat split.
      * rewrite !total_app. lia.
      * intros C. apply app_eq_nil in C as (C & _). contradiction.
    + right. apply sizes_ok_app in Hs3 as (Hs3 & _). pose proof (sizes_total _ Hs3). lia.
Qed.

(* the links of the free list lie outside every allocated block *)
Lemma live_not_links st bs fl q sq y :
  heap_rep st bs fl -> block_at (mem_start st + DSIZE) bs q sq true ->
  q - 4 <= y < q + sq - 4 -> ~ in_links fl y.
Proof.
  intros H (A & B & -> & -> & _) Hy (x & Hx & Hxy).
  apply (rep_sub _ _ _ H) in Hx. pose proof (rep_sizes _ _ _ H) as Hs.
  apply sizes_ok_app in Hs as (Hs1 & Hs). apply Forall_inv_tail in Hs.
  apply in_frees_mid in Hx as [Hx|[(? & _)|Hx]]; [|discriminate|];
    apply frees_bounds in Hx; trivial; unfold MIN in *; lia.
Qed.

(* the tags of the chain and the epilogue lie outside every payload *)
Lemma live_not_tags st bs fl q sq al y :
  heap_rep st bs fl -> block_at (mem_start st + DSIZE) bs q sq al ->
  q <= y < q + sq - 8 ->
  ~ in_tags (mem_start st + DSIZE) bs y /\ y < mem_brk st - 8.
Proof.
  intros H (A & B & -> & -> & _) Hy.
  pose proof (rep_sizes _ _ _ H) as Hs. pose proof (rep_brk _ _ _ H) as Hk.
  rewrite total_app in Hk. cbn [total] in Hk.
  apply sizes_ok_app in Hs as (Hs1 & Hs). apply Forall_inv_tail in Hs.
  pose proof (sizes_total _ Hs). split; [|lia].
  intros C. apply in_tags_app in C as [C|C].
  - apply in_tags_span in C; trivial. lia.
  - cbn [in_tags] in C. destruct C as [C|[C|C]]; try lia.
    apply in_tags_span in C; trivial. lia.
Qed.

(** Writing into the payload of a block keeps the heap well formed: the
    allocator keeps nothing there. *)
Lemma heap_wf_payload_write st bs fl m' q sq :
  heap_wf st bs fl -> block_at (mem_start st + DSIZE) bs q sq true ->
  (forall y, ~ (q <= y < q + sq - 8) -> m' y = mem st y) ->
  heap_wf (set_mem st m') bs fl.
Proof.
  intros (H & Hall & Hnaf) Hb Hm.
  split; [|split; assumption].
  assert (F : forall y, in_tags (mem_start st + DSIZE) bs y \/ mem_brk st - 8 <= y \/
                        in_links fl y -> m' y = mem st y).
  { intros y Hy. apply Hm. intros C.
    destruct (live_not_tags _ _ _ _ _ _ _ H Hb C) as (T1 & T2).
    destruct Hy as [Hy|[Hy|Hy]]; [tauto | lia |].
    revert Hy. eapply live_not_links; try eassumption. lia. }
  eapply (rep_update st (set_mem st m') bs bs fl fl); trivial.
  - repeat split.
  - apply H.
  - cbn [mem set_mem]. eapply chain_frame; [apply H|]. auto.
  - cbn [mem set_mem]. rewrite <- (rep_epilogue _ _ _ H). unfold GET, HDRP, WSIZE.
    apply load4_ext. intros. apply F. lia.
  - cbn [mem set_mem free_p]. eapply dlseg_frame; [apply H|]. auto.
  - apply H.
  - apply H.
Qed.

Lemma block_at_retag a bs1 sz al al' bs2 q sq alq :
  block_at a (bs1 ++ (sz, al) :: bs2) q sq alq -> q <> a + total bs1 ->
  block_at a (bs1 ++ (sz, al') :: bs2) q sq alq.
Proof.
  intros Hb Hq. change ((sz, al) :: bs2) with ([(sz, al)] ++ bs2) in Hb.
  apply block_at_cases in Hb
    as [(p1 & p2 & -> & -> & Hp)|[(m1 & m2 & E & ->)|(p1 & p2 & -> & ->)]].
  - exists p1, (p2 ++ (sz, al') :: bs2). rewrite <- app_assoc. auto.
  - destruct m1 as [|x m1]; [cbn [total] in Hq; lia|].
    destruct m1; discriminate.
  - exists (bs1 ++ (sz, al') :: p1), p2. rewrite <- app_assoc. repeat split.
    + rewrite !total_app. cbn [total]. lia.
    + intros C. apply app_eq_nil in C as (_ & C). discriminate.
Qed.

Lemma sizes_ok_retag bs1 sz al al' bs2 :
  sizes_ok (bs1 ++ (sz, al) :: bs2) -> sizes_ok (bs1 ++ (sz, al') :: bs2).
Proof.
  intros H. apply sizes_ok_app in H as (H1 & H2). apply sizes_ok_app. split; trivial.
  constructor; [exact (Forall_inv H2) | exact (Forall_inv_tail H2)].
Qed.

Lemma block_at_app_l a bs bs' q sq al :
  block_at a bs q sq al -> block_at a (bs ++ bs') q sq al.
Proof.
  intros (A & B & -> & -> & Hne). exists A, (B ++ bs'). rewrite <- app_assoc. auto.
Qed.

Lemma block_at_end a bs q sq al :
  sizes_ok bs -> block_at a bs q sq al -> q + sq <= a + total bs.
Proof.
  intros Hs (A & B & -> & -> & _). rewrite total_app. cbn [total].
  apply sizes_ok_app in Hs as (_ & Hs). apply Forall_inv_tail in Hs.
  pose proof (sizes_total _ Hs). lia.
Qed.

Lemma block_at_nonnull st bs fl q sq al :
  heap_rep st bs fl -> block_at (mem_start st + DSIZE) bs q sq al -> q <> NULL.
Proof.
  intros H (A & B & -> & -> & _). pose proof (rep_start _ _ _ H).
  pose proof (sizes_total _ (proj1 (proj1 (sizes_ok_app _ _) (rep_sizes _ _ _ H)))).
  unfold NULL, DSIZE. lia.
Qed.

(** * extend_heap on a well-formed heap *)



(** X16.  extend_heap when memlib has no room for the bytes asked for: it
    returns NULL and the state is unchanged; the validator is not run. *)
Theorem extend_heap_no_room fuel words st :
  0 <= words -> (words + 1) * 4 + 7 < 2 ^ 64 ->
  mem_max st < mem_brk st + 8 * ((words + 1) / 2) ->
  extend_heap fuel words st = Ret (NULL, st).
Proof.
  intros Hw Hw' Hr.
  apply (extend_heap_refused fuel words st (8 * ((words + 1) / 2))); [|exact Hr].
  symmetry. apply extend_size; assumption.
Qed.

Lemma extend_heap_no_room_witness :
  extend_heap 10 1024 st_full_one = Ret (NULL, st_full_one).
Proof.
  apply (extend_heap_no_room 10 1024 st_full_one); vm_compute;
    first [reflexivity | discriminate | lia].
Defined.

(** * malloc: failure, the block returned, growth *)

(** X17.  malloc of a non-zero size on a well-formed heap, with fuel for the
    free list, returns; it returns NULL exactly when no block of the free
    list holds the adjusted size and memlib has no room for the extension
    of max(adjusted size, CHUNKSIZE) bytes, and then the state is unchanged. *)
Theorem malloc_fails_only_without_memory fuel n st bs fl :
  heap_wf st bs fl -> n <> 0 -> (List.length fl + 1 < fuel)%nat ->
  exists p st',
    malloc fuel n st = Ret (p, st') /\
    (p = NULL <->
     (forall x, In x fl -> GET_SIZE (mem st) (HDRP x) < adjusted_size n) /\
     mem_max st < mem_brk st + MAX (adjusted_size n) CHUNKSIZE) /\
    (p = NULL -> st' = st).
Proof.
  intros Hwf Hn Hf.
  destruct (malloc_wf fuel n st bs fl Hwf Hn Hf)
    as [(p & st' & bs' & fl' & sz & E & Hp & Hwf' & Hb & Hsz)|(E & Hlt & Hroom)].
  - exists p, st'. split; [exact E|]. split; [|contradiction].
    split; [contradiction|]. intros (Hlt & Hroom). exfalso.
    pose proof Hwf as (H & _).
    pose proof (adjusted_size_facts n) as (Ha & Ha8).
    pose proof (extend_request _ Ha Ha8) as (Er & _). cbv zeta in Er.
    unfold malloc in E.
    rewrite lazy_init_done in E by (eapply rep_listp_nonnull; eassumption).
    cbn [bind] in E. destruct (Z.eqb_spec n 0); [contradiction|].
    unfold find_fit in E.
    rewrite (find_fit_loop_miss fuel (mem st) (adjusted_size n) NULL (free_p st) fl
               (rep_list _ _ _ H) Hlt ltac:(lia)) in E.
    cbn [bind] in E. rewrite Z.eqb_refl in E. cbn [negb] in E.
    rewrite (extend_heap_refused fuel _ st _ (eq_sym Er)) in E by lia.
    cbn [bind] in E. rewrite Z.eqb_refl in E. inversion E. congruence.
  - exists NULL, st. split; [exact E|]. split; [tauto | reflexivity].
Qed.

Lemma malloc_fails_only_without_memory_witness :
  exists p st',
    malloc 10 5000 st_full_one = Ret (p, st') /\
    (p = NULL <->
     (forall x, In x [65592] -> GET_SIZE (mem st_full_one) (HDRP x) < adjusted_size 5000) /\
     mem_max st_full_one < mem_brk st_full_one + MAX (adjusted_size 5000) CHUNKSIZE) /\
    (p = NULL -> st' = st_full_one).
Proof.
  apply (malloc_fails_only_without_memory 10 5000 st_full_one _ _ st_full_one_wf).
  - discriminate.
  - simpl. lia.
Defined.

(* placement and malloc, with the bytes they leave alone *)

Lemma place_frame st bs1 c bs2 l1 l2 bp asize :
  heap_wf st (bs1 ++ (c, false) :: bs2) (l1 ++ bp :: l2) ->
  bs1 <> [] -> bp = mem_start st + DSIZE + total bs1 ->
  MIN <= asize <= c -> asize mod 8 = 0 ->
  exists sz rest fl',
    heap_wf (place bp asize st) (bs1 ++ ((sz, true) :: rest) ++ bs2) fl' /\
    asize <= sz < asize + MIN /\ sz + total rest = c /\
    (forall y, ~ (bp - 4 <= y < bp + c - 4) -> ~ in_links (l1 ++ l2) y ->
               mem (place bp asize st) y = mem st y).
Proof.
  intros Hwf Hne Hb Ha Ha8.
  destruct (Z_lt_le_dec (c - asize) MIN) as [Hlt|Hge].
  - destruct (place_whole_frame st bs1 c bs2 l1 l2 bp asize Hwf Hne Hb) as (P & F);
      [unfold MIN in *; lia | assumption |].
    exists c, [], (l1 ++ l2). cbn [total app].
    repeat split; trivial; try apply P; unfold MIN in *; lia.
  - destruct (place_split_frame st bs1 c bs2 l1 l2 bp asize Hwf Hne Hb) as (P & F);
      [lia | assumption | assumption |].
    exists asize, [(c - asize, false)], ((bp + asize) :: l1 ++ l2). cbn [total app].
    repeat split; trivial; try apply P; unfold MIN in *; lia.
Qed.

Lemma malloc_frame fuel n st bs fl p st' :
  heap_wf st bs fl -> malloc fuel n st = Ret (p, st') -> p <> NULL ->
  exists bs' fl' sz,
    heap_wf st' bs' fl' /\ block_at (mem_start st' + DSIZE) bs' p sz true /\
    adjusted_size n <= sz < adjusted_size n + MIN /\ mem_start st' = mem_start st /\
    (forall q sq, block_at (mem_start st + DSIZE) bs q sq true ->
       block_at (mem_start st' + DSIZE) bs' q sq true /\
       (q + sq <= p \/ p + sz <= q) /\
       forall y, q - 4 <= y < q + sq - 4 -> mem st' y = mem st y).
Proof.
  intros Hwf. pose proof Hwf as (H & Hall & Hnaf).
  pose proof (adjusted_size_facts n) as (Ha & Ha8).
  pose proof (extend_request _ Ha Ha8) as (Er & Er1 & Er2 & Er8 & Er64). cbv zeta in Er.
  pose proof (rep_sizes _ _ _ H) as Hs.
  unfold malloc. rewrite lazy_init_done by (eapply rep_listp_nonnull; eassumption).
  cbn [bind]. destruct (Z.eqb_spec n 0).
  { intros E. inversion E. contradiction. }
  intros E Hp. apply bind_ret_inv in E as (b & Ef & E). cbv beta in E.
  destruct (Z.eqb_spec b NULL) as [Eb|Hb]; cbn [negb] in E.
  - destruct (Z_le_gt_dec (mem_brk st + MAX (adjusted_size n) CHUNKSIZE) (mem_max st))
      as [Hroom|Hfull].
    + destruct (extend_heap_wf fuel (MAX (adjusted_size n) CHUNKSIZE / WSIZE) st bs fl
                  _ Hwf (eq_sym Er) ltac:(lia) Er8 Hroom)
        as (b' & st6 & bs' & fl' & Ex & Hwf6 & _
            & Hi & (M1 & M2 & M3 & M4 & M5) & _ &
            (pre & mid & post & S1 & S2 & S3 & S4 & S5 & S6 & S7 & S8)).
      rewrite Ex in E. apply bind_ret_inv in E as ([bp st7] & E & E').
      apply bind_ret_inv in E as (st8 & Ec & E). inversion E; subst bp st8.
      apply mm_checkheap_ret in Ec. subst st7.
      destruct (Z.eqb_spec b' NULL); [inversion E'; congruence|].
      inversion E'; subst p st'. subst bs'.
      apply heap_wf_tick in Hwf6.
      destruct (place_frame (tick_checks st6) pre (total mid) post [] fl' b'
                  (adjusted_size n) Hwf6 S4)
        as (sz & rest & fl'' & P1 & P2 & P3 & P4); trivial.
      * change (mem_start (tick_checks st6)) with (mem_start st6). congruence.
      * lia.
      * rewrite place_start. change (mem_start (tick_checks st6)) with (mem_start st6).
        rewrite M2.
        exists (pre ++ ((sz, true) :: rest) ++ post), fl'', sz.
        split; [exact P1|]. split; [exists pre, (rest ++ post); auto|].
        split; [exact P2|]. split; [reflexivity|].
        intros q sq Hq.
        pose proof (block_at_end _ _ _ _ _ Hs Hq) as Hend.
        pose proof (rep_brk _ _ _ H) as Hk.
        pose proof Hq as Hq'. apply (block_at_app_l _ _ [(MAX (adjusted_size n) CHUNKSIZE, false)])
          in Hq'.
        rewrite S1 in Hq'.
        assert (Hs' : sizes_ok (pre ++ mid ++ post)).
        { rewrite <- S1. apply sizes_ok_app. split; trivial.
          constructor; [|constructor]. cbn [fst]. unfold MIN in *. lia. }
        destruct (live_replace _ pre mid ((sz, true) :: rest) post q sq Hs' S3 S4
                    ltac:(cbn [total]; lia) Hq') as (Hq2 & Hsep).
        assert (Hsq : MIN <= sq).
        { destruct Hq as (A & B & -> & _). apply sizes_ok_app in Hs as (_ & Hs).
          apply Forall_inv in Hs. apply Hs. }
        unfold MIN in *.
        split; [exact Hq2|]. split; [lia|].
        intros y Hy.
        assert (Hnl : ~ in_links fl y) by (eapply live_not_links; eassumption).
        rewrite P4.
        -- cbn [mem tick_checks]. apply S8; [lia | assumption].
        -- lia.
        -- intros C. apply Hnl. eapply in_links_incl; [exact Hi | exact C].
    + rewrite (extend_heap_refused fuel _ st _ (eq_sym Er)) in E by lia.
      cbn [bind] in E. rewrite Z.eqb_refl in E. inversion E. congruence.
  - inversion E; subst p st'.
    unfold find_fit in Ef.
    destruct (find_fit_loop_ret _ _ _ _ _ _ _ (rep_list _ _ _ H) Ef) as [?|(Hin & Hge)];
      [contradiction|].
    destruct (free_block_at _ _ _ _ H Hin)
      as (bs1 & c & bs2 & k1 & k2 & -> & Hne & Eb & -> & Ec).
    destruct (place_frame st bs1 c bs2 k1 k2 b (adjusted_size n) Hwf Hne Eb ltac:(lia) Ha8)
      as (sz & rest & fl'' & P1 & P2 & P3 & P4).
    rewrite place_start.
    exists (bs1 ++ ((sz, true) :: rest) ++ bs2), fl'', sz.
    split; [exact P1|]. split; [exists bs1, (rest ++ bs2); auto|].
    split; [exact P2|]. split; [reflexivity|].
    intros q sq Hq.
    change ((c, false) :: bs2) with ([(c, false)] ++ bs2) in Hq, Hs.
    destruct (live_replace _ bs1 [(c, false)] ((sz, true) :: rest) bs2 q sq Hs
                ltac:(repeat constructor) Hne ltac:(cbn [total]; lia) Hq) as (Hq2 & Hsep).
    cbn [total] in Hsep.
    assert (Hr : 0 <= total rest).
    { apply sizes_total. pose proof (rep_sizes _ _ _ (proj1 P1)) as Hz.
      apply sizes_ok_app in Hz as (_ & Hz). apply sizes_ok_app in Hz as (Hz & _).
      apply Forall_inv_tail in Hz. exact Hz. }
    split; [exact Hq2|]. split; [lia|].
    intros y Hy.
    assert (Hnl : ~ in_links (k1 ++ b :: k2) y) by (eapply live_not_links; eassumption).
    apply P4; [lia|]. intros C. apply Hnl.
    eapply in_links_incl; [|exact C]. intros x Hx. apply in_app_or in Hx. in_tac.
Qed.

Lemma adjusted_size_room n : 0 < n <= 2 ^ 64 - 16 -> n + 8 <= adjusted_size n.
Proof.
  intros Hn. rewrite adjusted_size_refines by assumption.
  unfold adjusted_size_spec, round_up8.
  pose proof (Z.div_mod (n + 8 + 7) 8 ltac:(lia)).
  pose proof (Z.mod_pos_bound (n + 8 + 7) 8 ltac:(lia)). lia.
Qed.

(** X18.  The block malloc returns: when malloc returns a non-null pointer on
    a well-formed heap, the heap is well formed again and the pointer is the
    payload of an allocated block of at least the adjusted size (so of at
    least [n + 8] bytes for a request in range) and less than 24 bytes more,
    8-byte aligned with respect to the start of the heap and inside the heap.  Every block that was
    allocated before is still an allocated block of the same size, does not
    overlap the new block, and its header, payload and footer are unchanged. *)
Theorem malloc_block_is_fresh fuel n st bs fl p st' :
  heap_wf st bs fl -> malloc fuel n st = Ret (p, st') -> p <> NULL ->
  exists bs' fl' sz,
    heap_wf st' bs' fl' /\ block_at (mem_start st' + DSIZE) bs' p sz true /\
    adjusted_size n <= sz < adjusted_size n + MIN /\
    (0 < n <= 2 ^ 64 - 16 -> n + 8 <= sz) /\
    (p - mem_start st') mod 8 = 0 /\ mem_start st' + 32 <= p /\ p + sz <= mem_brk st' /\
    (forall q sq, block_at (mem_start st + DSIZE) bs q sq true ->
       block_at (mem_start st' + DSIZE) bs' q sq true /\
       (q + sq <= p \/ p + sz <= q) /\
       forall y, q - 4 <= y < q + sq - 4 -> mem st' y = mem st y).
Proof.
  intros Hwf E Hp.
  destruct (malloc_frame fuel n st bs fl p st' Hwf E Hp)
    as (bs' & fl' & sz & Hwf' & Hb & Hsz & Es & Live).
  exists bs', fl', sz. split; [exact Hwf'|]. split; [exact Hb|]. split; [exact Hsz|].
  split. { intros Hn. pose proof (adjusted_size_room n Hn). lia. }
  pose proof (rep_sizes _ _ _ (proj1 Hwf')) as Hs.
  pose proof (block_at_end _ _ _ _ _ Hs Hb) as Hend.
  rewrite (rep_brk _ _ _ (proj1 Hwf')) in Hend.
  destruct Hb as (A & B & -> & -> & Hne).
  apply sizes_ok_app in Hs as (Hs & _).
  pose proof (sizes_total_mod8 _ Hs) as H8. pose proof (sizes_total_pos _ Hs Hne) as H24.
  unfold DSIZE, MIN in *.
  split. { replace (mem_start st' + 8 + total A - mem_start st') with (8 + total A) by lia.
           rewrite Z.add_mod, H8 by lia. reflexivity. }
  split; [lia|]. split; [exact Hend | exact Live].
Qed.

Lemma malloc_block_is_fresh_witness :
  exists bs' fl' sz,
    heap_wf (place 65592 24 st_one) bs' fl' /\
    block_at (mem_start (place 65592 24 st_one) + DSIZE) bs' 65592 sz true /\
    adjusted_size 16 <= sz < adjusted_size 16 + MIN /\
    (0 < 16 <= 2 ^ 64 - 16 -> 16 + 8 <= sz) /\
    (65592 - mem_start (place 65592 24 st_one)) mod 8 = 0 /\
    mem_start (place 65592 24 st_one) + 32 <= 65592 /\
    65592 + sz <= mem_brk (place 65592 24 st_one) /\
    (forall q sq,
       block_at (mem_start st_one + DSIZE) [(24, true); (24, true); (4072, false)] q sq true ->
       block_at (mem_start (place 65592 24 st_one) + DSIZE) bs' q sq true /\
       (q + sq <= 65592 \/ 65592 + sz <= q) /\
       forall y, q - 4 <= y < q + sq - 4 -> mem (place 65592 24 st_one) y = mem st_one y).
Proof.
  assert (E : malloc 10 16 st_one = Ret (65592, place 65592 24 st_one))
    by (vm_compute; reflexivity).
  exact (malloc_block_is_fresh 10 16 st_one _ _ 65592 _ st_one_wf E ltac:(discriminate)).
Defined.

Lemma find_fit_loop_null fuel m asize prev p l :
  dlseg m prev p l NULL -> find_fit_loop fuel m asize p = Ret NULL ->
  forall x, In x l -> GET_SIZE m (HDRP x) < asize.
Proof.
  revert fuel prev p. induction l as [|x l IH]; intros fuel prev p D E y Hy; [destruct Hy|].
  cbn [dlseg] in D. destruct D as (-> & Hx & _ & D).
  destruct fuel as [|fuel]; [discriminate|]. cbn [find_fit_loop] in E.
  destruct (Z.eqb_spec x NULL); [contradiction|].
  destruct (Z.leb_spec asize (GET_SIZE m (HDRP x))).
  - inversion E. contradiction.
  - destruct Hy as [<-|Hy]; [assumption|]. eapply IH; eassumption.
Qed.

(** X19.  malloc grows the heap only when it must: on a well-formed heap the
    end of the heap is unchanged by a call, or it moved up by exactly
    max(adjusted size, CHUNKSIZE) bytes, and then no block of the free list
    held the adjusted size. *)
Theorem malloc_extends_only_without_fit fuel n st bs fl p st' :
  heap_wf st bs fl -> malloc fuel n st = Ret (p, st') ->
  mem_brk st' = mem_brk st \/
  (mem_brk st' = mem_brk st + MAX (adjusted_size n) CHUNKSIZE /\ p <> NULL /\
   forall x, In x fl -> GET_SIZE (mem st) (HDRP x) < adjusted_size n).
Proof.
  intros Hwf. pose proof Hwf as (H & _).
  pose proof (adjusted_size_facts n) as (Ha & Ha8).
  pose proof (extend_request _ Ha Ha8) as (Er & Er1 & Er2 & Er8 & Er64). cbv zeta in Er.
  unfold malloc. rewrite lazy_init_done by (eapply rep_listp_nonnull; eassumption).
  cbn [bind]. destruct (Z.eqb_spec n 0). { intros E. inversion E. auto. }
  intros E. apply bind_ret_inv in E as (b & Ef & E). cbv beta in E.
  destruct (Z.eqb_spec b NULL) as [Eb|Hb]; cbn [negb] in E.
  - subst b. unfold find_fit in Ef.
    pose proof (find_fit_loop_null _ _ _ _ _ _ (rep_list _ _ _ H) Ef) as Hlt.
    destruct (Z_le_gt_dec (mem_brk st + MAX (adjusted_size n) CHUNKSIZE) (mem_max st))
      as [Hroom|Hfull].
    + destruct (extend_heap_wf fuel (MAX (adjusted_size n) CHUNKSIZE / WSIZE) st bs fl
                  _ Hwf (eq_sym Er) ltac:(lia) Er8 Hroom)
        as (b' & st6 & bs' & fl' & Ex & Hwf6 & (bs1' & s' & bs2' & -> & Hne' & Eb' & Hs')
            & Hi & (M1 & M2 & M3 & M4 & M5) & _).
      rewrite Ex in E. apply bind_ret_inv in E as ([bp st7] & E & E').
      apply bind_ret_inv in E as (st8 & Ec & E). inversion E; subst bp st8.
      apply mm_checkheap_ret in Ec. subst st7.
      assert (Hnn : b' <> NULL).
      { pose proof (rep_start _ _ _ H). destruct Hwf6 as (H6 & _).
        pose proof (sizes_total_pos _ (proj1 (proj1 (sizes_ok_app _ _) (rep_sizes _ _ _ H6)))
                      Hne').
        unfold NULL, DSIZE, MIN in *. lia. }
      destruct (Z.eqb_spec b' NULL); [contradiction|]. inversion E'; subst p st'.
      right. split; [|split; assumption].
      destruct (same_meta_place b' (adjusted_size n) (tick_checks st6)) as (_ & _ & P3 & _).
      rewrite P3. cbn [tick_checks mem_brk]. exact M4.
    + rewrite (extend_heap_refused fuel _ st _ (eq_sym Er)) in E by lia.
      cbn [bind] in E. rewrite Z.eqb_refl in E. inversion E. auto.
  - inversion E; subst p st'. left. apply same_meta_place.
Qed.

Lemma malloc_extends_only_without_fit_witness :
  mem_brk (state_of (malloc 10 5000 st_one) st0) = mem_brk st_one \/
  (mem_brk (state_of (malloc 10 5000 st_one) st0)
   = mem_brk st_one + MAX (adjusted_size 5000) CHUNKSIZE /\ 65592 <> NULL /\
   forall x, In x [65592] -> GET_SIZE (mem st_one) (HDRP x) < adjusted_size 5000).
Proof.
  assert (E : malloc 10 5000 st_one = Ret (65592, state_of (malloc 10 5000 st_one) st0))
    by (vm_compute; reflexivity).
  exact (malloc_extends_only_without_fit 10 5000 st_one _ _ 65592 _ st_one_wf E).
Defined.

(** * free: the other blocks, and reuse *)

Lemma free_frame fuel st bs1 sz bs2 fl bp :
  heap_wf st (bs1 ++ (sz, true) :: bs2) fl -> bs1 <> [] ->
  bp = mem_start st + DSIZE + total bs1 ->
  exists st' b' bs' fl' pre mid post,
    free fuel bp st = Ret st' /\ heap_wf st' bs' (b' :: fl') /\ same_meta st st' /\
    incl fl' fl /\
    bs1 ++ (sz, false) :: bs2 = pre ++ mid ++ post /\
    bs' = pre ++ (total mid, false) :: post /\
    Forall (fun x : blk => snd x = false) mid /\ pre <> [] /\
    b' = mem_start st + DSIZE + total pre /\ b' <= bp /\ bp + sz <= b' + total mid /\
    (last_alloc bs1 = true -> b' = bp) /\
    (last_alloc bs1 = true -> head_alloc bs2 = true ->
     bs' = bs1 ++ (sz, false) :: bs2 /\ fl' = fl) /\
    (forall y, ~ (b' - 4 <= y < b' + total mid - 4) -> ~ in_links fl y ->
               mem st' y = mem st y).
Proof.
  intros (H & Hall & Hnaf) Hne Hb.
  pose proof (rep_sizes _ _ _ H) as Hs.
  pose proof (rep_start _ _ _ H) as H0.
  pose proof (sizes_total _ (proj1 (proj1 (sizes_ok_app _ _) Hs))) as Ht1.
  pose proof (rep_size_bound _ _ _ H) as Hbd. rewrite total_app in Hbd. cbn [total] in Hbd.
  assert (Hsz : MIN <= sz /\ sz mod 8 = 0).
  { apply sizes_ok_app in Hs as (_ & Hs). apply Forall_inv in Hs. exact Hs. }
  pose proof (sizes_total _ (Forall_inv_tail (proj2 (proj1 (sizes_ok_app _ _) Hs)))) as Ht2.
  destruct (rep_block _ _ _ _ _ _ _ H Hb) as (B1 & _).
  unfold free. destruct (Z.eqb_spec bp 0) as [E|_]; [unfold DSIZE in *; lia|].
  rewrite lazy_init_done by (eapply rep_listp_nonnull; eassumption). cbn [bind].
  rewrite B1.
  change ((sz, true) :: bs2) with ([(sz, true)] ++ bs2) in H.
  assert (Hi : incl fl (frees (mem_start st + DSIZE) (bs1 ++ (sz, false) :: bs2))).
  { intros n Hn. apply (rep_sub _ _ _ H) in Hn.
    apply in_frees_mid in Hn. apply in_frees_mid.
    destruct Hn as [Hn|[(? & _)|Hn]]; auto. discriminate. }
  pose proof (rep_retag _ _ _ _ _ false bp sz H Hne ltac:(discriminate) Hb
                ltac:(simpl; lia) Hi) as H2.
  unfold MIN in *.
  destruct (put_tags_spec st bp sz false ltac:(lia) (proj2 Hsz) ltac:(lia))
    as (_ & _ & F & _).
  cbv zeta in F. cbn iota in H2, F.
  set (st2 := put _ _ (put _ _ st)) in *.
  assert (Es : mem_start st2 = mem_start st) by reflexivity.
  rewrite naf_app, naf_cons in Hnaf.
  rewrite !andb_true_iff in Hnaf. destruct Hnaf as ((N1 & (_ & N2)) & _).
  destruct (coalesce_insert_wf st2 bs1 sz bs2 fl bp H2 Hne) as
    (b' & st' & bs' & fl' & Ec & Hwf & _ & Hfl & Hiso &
     (pre & mid & post & S1 & S2 & S3 & S4 & S5 & S6 & S7 & S9 & S8)); trivial.
  - intros C. apply (rep_sub _ _ _ H) in C. subst bp.
    revert C. apply alloc_not_free. exact Hs.
  - rewrite Es. intros x Hx. apply in_frees_mid in Hx.
    destruct Hx as [Hx|[(_ & Hx)|Hx]]; [right|left; congruence|right];
      apply Hall; apply in_frees_mid; auto.
  - rewrite Ec. exists (insert_free_block b' st'), b', bs', fl', pre, mid, post.
    split; [reflexivity|]. split; [exact Hwf|].
    split.
    { eapply same_meta_trans; [|apply same_meta_insert].
      pose proof (same_meta_coalesce bp st2) as M. rewrite Ec in M. exact M. }
    repeat split; trivial; try (intros; apply Hiso; assumption).
    intros y Hy Hl. rewrite S8 by assumption. apply F; lia.
Qed.

Lemma free_live fuel st bs fl bp sz :
  heap_wf st bs fl -> block_at (mem_start st + DSIZE) bs bp sz true ->
  exists st' bs' fl',
    free fuel bp st = Ret st' /\ heap_wf st' bs' fl' /\
    forall q sq, block_at (mem_start st + DSIZE) bs q sq true -> q <> bp ->
                 block_at (mem_start st' + DSIZE) bs' q sq true /\
                 forall y, q - 4 <= y < q + sq - 4 -> mem st' y = mem st y.
Proof.
  intros Hwf (bs1 & bs2 & -> & Hb & Hne).
  destruct (free_frame fuel st bs1 sz bs2 fl bp Hwf Hne Hb)
    as (st' & b' & bs' & fl' & pre & mid & post & E & Hwf' & M & Hfl & S1 & S2 & S3 & S4
        & S5 & S6 & S7 & _ & _ & F).
  exists st', bs', (b' :: fl'). split; [exact E|]. split; [exact Hwf'|].
  intros q sq Hq Hqb.
  pose proof (rep_sizes _ _ _ (proj1 Hwf)) as Hs.
  apply (sizes_ok_retag _ _ _ false) in Hs.
  pose proof Hq as Hq'. apply (block_at_retag _ _ _ _ false) in Hq'; [|lia].
  rewrite S1 in Hq', Hs.
  destruct (live_replace _ pre mid [(total mid, false)] post q sq Hs S3 S4
              ltac:(cbn [total]; lia) Hq') as (Hq2 & Hsep).
  destruct M as (_ & -> & _). subst bs'. split; [exact Hq2|].
  intros y Hy. apply F; [lia|].
  eapply live_not_links; [apply Hwf | exact Hq | exact Hy].
Qed.

(** X20.  free never touches the other allocated blocks: on a well-formed
    heap, free of an allocated block returns, the heap is well formed again,
    and every other allocated block is still an allocated block at the same
    address and of the same size, whose header, payload and footer hold the
    bytes they held. *)
Theorem free_keeps_live_blocks fuel st bs fl bp sz :
  heap_wf st bs fl -> block_at (mem_start st + DSIZE) bs bp sz true ->
  exists st' bs' fl',
    free fuel bp st = Ret st' /\ heap_wf st' bs' fl' /\
    forall q sq, block_at (mem_start st + DSIZE) bs q sq true -> q <> bp ->
                 block_at (mem_start st' + DSIZE) bs' q sq true /\
                 forall y, q - 4 <= y < q + sq - 4 -> mem st' y = mem st y.
Proof. apply free_live. Qed.

Lemma free_keeps_live_blocks_witness :
  exists st' bs' fl',
    free 10 65592 st_three = Ret st' /\ heap_wf st' bs' fl' /\
    forall q sq,
      block_at (mem_start st_three + DSIZE)
               [(24, true); (24, true); (24, true); (24, true); (4024, false)] q sq true ->
      q <> 65592 ->
      block_at (mem_start st' + DSIZE) bs' q sq true /\
      forall y, q - 4 <= y < q + sq - 4 -> mem st' y = mem st_three y.
Proof.
  exact (free_keeps_live_blocks 10 st_three _ _ 65592 24 st_three_wf st_three_block).
Defined.

(** X21.  A freed block is the first candidate of the next malloc: after
    free(bp) on a well-formed heap, the block that absorbed [bp] is the head
    of the free list, and a malloc whose adjusted size is at most the size of
    the freed block returns it without growing the heap and without running
    the validator.  The pointer returned is [bp] itself when the block before
    [bp] is allocated, and the start of that block otherwise. *)
Theorem free_then_malloc_reuses fuel st bs1 sz bs2 fl bp n :
  heap_wf st (bs1 ++ (sz, true) :: bs2) fl -> bs1 <> [] ->
  bp = mem_start st + DSIZE + total bs1 ->
  n <> 0 -> adjusted_size n <= sz -> (1 <= fuel)%nat ->
  exists st1 b' st2,
    free fuel bp st = Ret st1 /\ free_p st1 = b' /\
    malloc fuel n st1 = Ret (b', st2) /\
    b' <= bp /\ (last_alloc bs1 = true -> b' = bp) /\
    mem_brk st2 = mem_brk st /\ checks st2 = checks st.
Proof.
  intros Hwf Hne Hb Hn Ha Hf.
  destruct (free_frame fuel st bs1 sz bs2 fl bp Hwf Hne Hb)
    as (st1 & b' & bs' & fl' & pre & mid & post & E & Hwf1 & M & Hfl & S1 & S2 & S3 & S4
        & S5 & S6 & S7 & S9 & _ & F).
  pose proof (rep_list _ _ _ (proj1 Hwf1)) as D. pose proof D as D'.
  cbn [dlseg] in D'. destruct D' as (Ep & Hnn & _).
  assert (Hs1 : mem_start st1 = mem_start st) by apply M.
  assert (Eb' : b' = mem_start st1 + DSIZE + total pre) by congruence.
  rewrite S2 in Hwf1.
  destruct (rep_block _ _ _ _ _ _ _ (proj1 Hwf1) Eb') as (B1 & _).
  exists st1, b', (place b' (adjusted_size n) st1).
  split; [exact E|]. split; [exact Ep|].
  assert (Ef : find_fit fuel (adjusted_size n) st1 = Ret b').
  { unfold find_fit.
    apply (find_fit_loop_hit fuel (mem st1) (adjusted_size n) NULL (free_p st1) [] b' fl' NULL).
    - exact D.
    - intros x [].
    - rewrite B1. lia.
    - simpl. lia. }
  split.
  { unfold malloc. rewrite lazy_init_done by (eapply rep_listp_nonnull; apply Hwf1).
    cbn [bind]. destruct (Z.eqb_spec n 0); [contradiction|].
    rewrite Ef. cbn [bind]. destruct (Z.eqb_spec b' NULL); [contradiction|]. reflexivity. }
  split; [exact S6|]. split; [exact S9|].
  destruct (same_meta_place b' (adjusted_size n) st1) as (_ & _ & P3 & _ & P5).
  destruct M as (_ & _ & M3 & _ & M5). split; congruence.
Qed.

Lemma free_then_malloc_reuses_witness :
  exists st1 b' st2,
    free 10 65592 st_three = Ret st1 /\ free_p st1 = b' /\
    malloc 10 16 st1 = Ret (b', st2) /\
    b' <= 65592 /\ (last_alloc [(24, true); (24, true)] = true -> b' = 65592) /\
    mem_brk st2 = mem_brk st_three /\ checks st2 = checks st_three.
Proof.
  apply (free_then_malloc_reuses 10 st_three [(24, true); (24, true)] 24
           [(24, true); (4024, false)] [65640] 65592 16 st_three_wf).
  - discriminate.
  - reflexivity.
  - discriminate.
  - vm_compute. discriminate.
  - lia.
Defined.

(** * malloc, then free: the chain is restored *)

(* a chain has one prefix of a given total size *)
Lemma app_total_eq (A A' B B' : list (Z * bool)) :
  sizes_ok (A ++ B) -> A ++ B = A' ++ B' -> total A = total A' -> A = A' /\ B = B'.
Proof.
  revert A'. induction A as [|x A IH]; intros A' Hs E Ht.
  - destruct A' as [|x' A']; [auto|]. exfalso.
    cbn [app] in E. rewrite E in Hs. pose proof (Forall_inv Hs) as Hx.
    apply Forall_inv_tail in Hs. apply sizes_ok_app in Hs as (Hs & _).
    pose proof (sizes_total _ Hs). destruct x' as [sx ax]. cbn [total fst] in *.
    unfold MIN in *. lia.
  - destruct A' as [|x' A'].
    + exfalso. cbn [app] in Hs. pose proof (Forall_inv Hs) as Hx.
      apply Forall_inv_tail in Hs. apply sizes_ok_app in Hs as (Hs & _).
      pose proof (sizes_total _ Hs). destruct x as [sx ax]. cbn [total fst] in *.
      unfold MIN in *. lia.
    + cbn [app] in E. inversion E; subst x'. 
      destruct (IH A') as (-> & ->); trivial.
      * cbn [app] in Hs. apply (Forall_inv_tail Hs).
      * destruct x as [sx ax]. cbn [total] in Ht. lia.
      * auto.
Qed.

(* the free lists of two well-formed heaps with the same chain have the same nodes *)
Lemma wf_same_nodes st st' bs fl fl' :
  heap_wf st bs fl -> heap_wf st' bs fl' -> mem_start st' = mem_start st ->
  Permutation fl fl'.
Proof.
  intros (H & Hall & _) (H' & Hall' & _) Es.
  apply NoDup_Permutation; [apply H | apply H'|].
  intros x. split; intros Hx.
  - apply Hall'. rewrite Es. apply (rep_sub _ _ _ H). exact Hx.
  - apply Hall. rewrite <- Es. apply (rep_sub _ _ _ H'). exact Hx.
Qed.

(* free of the block that place has just cut from a free block *)
Lemma free_merges_back st1 bs1 a r bs2 fl1 bp fuel :
  heap_wf st1 (bs1 ++ (a, true) :: (r, false) :: bs2) fl1 -> bs1 <> [] ->
  bp = mem_start st1 + DSIZE + total bs1 ->
  last_alloc bs1 = true ->
  exists st2 fl2,
    free fuel bp st1 = Ret st2 /\ heap_wf st2 (bs1 ++ (a + r, false) :: bs2) (bp :: fl2) /\
    same_meta st1 st2.
Proof.
  intros Hwf Hne Hb L1.
  destruct (free_frame fuel st1 bs1 a ((r, false) :: bs2) fl1 bp Hwf Hne Hb)
    as (st2 & b' & bs' & fl' & pre & mid & post & E & Hwf2 & M & Hfl & S1 & S2 & S3 & S4
        & S5 & S6 & S7 & S9 & _ & F).
  rewrite (S9 L1) in *. clear S9.
  pose proof (rep_sizes _ _ _ (proj1 Hwf)) as Hs.
  apply (sizes_ok_retag _ _ _ false) in Hs.
  assert (Et : total bs1 = total pre) by lia.
  destruct (app_total_eq _ _ _ _ Hs S1 Et) as (<- & Em).
  assert (N2 : head_alloc bs2 = true).
  { destruct Hwf as (_ & _ & N). rewrite naf_app in N.
    apply andb_true_iff in N as (N & _). apply andb_true_iff in N as (_ & N).
    rewrite naf_cons in N. apply andb_true_iff in N as (_ & N).
    rewrite naf_cons in N. apply andb_true_iff in N as (N & _). exact N. }
  pose proof (proj2 (proj1 (sizes_ok_app _ _) Hs)) as Hs'.
  pose proof (Forall_inv Hs') as (Ha & _). cbn [fst] in Ha.
  destruct mid as [|m1 mid]; [cbn [total] in S7; unfold MIN in *; lia|].
  cbn [app] in Em. inversion Em as [[E1 E2]]. subst m1.
  destruct mid as [|m2 mid].
  - (* the two free blocks would be neighbours *)
    exfalso. cbn [app] in E2. subst post bs'.
    destruct Hwf2 as (_ & _ & N'). rewrite naf_app in N'.
    apply andb_true_iff in N' as (N' & _). apply andb_true_iff in N' as (_ & N').
    rewrite naf_cons in N'. apply andb_true_iff in N' as (N' & _). discriminate.
  - cbn [app] in E2. inversion E2 as [[E3 E4]]. subst m2.
    destruct mid as [|m3 mid].
    + cbn [app] in E4. subst post bs'. cbn [total] in Hwf2.
      rewrite Z.add_0_r in Hwf2.
      exists st2, fl'. auto.
    + exfalso. cbn [app] in E4. subst bs2.
      apply Forall_inv_tail, Forall_inv_tail, Forall_inv in S3.
      destruct m3 as [s3 a3]. cbn [snd head_alloc] in *. congruence.
Qed.

(* the neighbours of a free block of a well-formed heap are allocated *)
Lemma free_block_isolated st bs1 c bs2 fl :
  heap_wf st (bs1 ++ (c, false) :: bs2) fl ->
  last_alloc bs1 = true /\ head_alloc bs2 = true.
Proof.
  intros (_ & _ & N). rewrite naf_app in N.
  apply andb_true_iff in N as (N & L). apply andb_true_iff in N as (_ & N).
  rewrite naf_cons in N. apply andb_true_iff in N as (N & _).
  cbn [head_alloc] in L. rewrite orb_false_r in L. rewrite orb_false_l in N. auto.
Qed.

(** X22.  malloc then free is a round trip on the chain of blocks.  On a
    well-formed heap with chain [bs], when malloc returns a block [p] without
    extending the heap, free of [p] returns and the heap is well formed with
    the chain [bs] again: the block is merged back with what malloc split off.
    The free list has the nodes it had, with [p] now first, and the bounds of
    the heap are unchanged. *)
Theorem malloc_then_free_restores fuel n st bs fl p st1 :
  heap_wf st bs fl -> malloc fuel n st = Ret (p, st1) -> p <> NULL ->
  mem_brk st1 = mem_brk st ->
  exists st2 fl2,
    free fuel p st1 = Ret st2 /\ heap_wf st2 bs (p :: fl2) /\
    Permutation fl (p :: fl2) /\ same_meta st st2.
Proof.
  intros Hwf. pose proof Hwf as (H & Hall & Hnaf).
  pose proof (adjusted_size_facts n) as (Ha & Ha8).
  pose proof (extend_request _ Ha Ha8) as (Er & Er1 & Er2 & Er8 & Er64). cbv zeta in Er.
  unfold malloc. rewrite lazy_init_done by (eapply rep_listp_nonnull; eassumption).
  cbn [bind]. destruct (Z.eqb_spec n 0).
  { intros E. inversion E. contradiction. }
  intros E Hp Hk. apply bind_ret_inv in E as (b & Ef & E). cbv beta in E.
  destruct (Z.eqb_spec b NULL) as [Eb|Hb]; cbn [negb] in E.
  - (* the heap was extended, so the break moved *)
    exfalso.
    destruct (Z_le_gt_dec (mem_brk st + MAX (adjusted_size n) CHUNKSIZE) (mem_max st))
      as [Hroom|Hfull].
    + destruct (extend_heap_wf fuel (MAX (adjusted_size n) CHUNKSIZE / WSIZE) st bs fl
                  _ Hwf (eq_sym Er) ltac:(lia) Er8 Hroom)
        as (b' & st6 & bs' & fl' & Ex & _ & _ & _ & (_ & _ & _ & M4 & _) & _).
      rewrite Ex in E. apply bind_ret_inv in E as ([bp st7] & E & E').
      apply bind_ret_inv in E as (st8 & Ec & E). inversion E; subst bp st8.
      apply mm_checkheap_ret in Ec. subst st7.
      destruct (Z.eqb_spec b' NULL); [inversion E'; congruence|].
      inversion E'; subst p st1.
      destruct (same_meta_place b' (adjusted_size n) (tick_checks st6)) as (_ & _ & B & _).
      rewrite B in Hk. change (mem_brk (tick_checks st6)) with (mem_brk st6) in Hk. unfold MIN in *. lia.
    + rewrite (extend_heap_refused fuel _ st _ (eq_sym Er)) in E by lia.
      cbn [bind] in E. rewrite Z.eqb_refl in E. inversion E. congruence.
  - inversion E; subst p st1.
    unfold find_fit in Ef.
    destruct (find_fit_loop_ret _ _ _ _ _ _ _ (rep_list _ _ _ H) Ef) as [?|(Hin & Hge)];
      [contradiction|].
    destruct (free_block_at _ _ _ _ H Hin)
      as (bs1 & c & bs2 & k1 & k2 & -> & Hne & Eb & -> & Ec).
    rewrite Ec in Hge.
    destruct (free_block_isolated _ _ _ _ _ Hwf) as (L1 & L2).
    pose proof (same_meta_place b (adjusted_size n) st) as Mp.
    assert (Es : mem_start (place b (adjusted_size n) st) = mem_start st) by apply Mp.
    destruct (Z_lt_ge_dec (c - adjusted_size n) MIN) as [Hw|Hsp].
    + destruct (place_whole_frame st bs1 c bs2 k1 k2 b (adjusted_size n) Hwf Hne Eb
                  ltac:(lia) Hw) as (Hwf1 & _).
      destruct (free_frame fuel _ bs1 c bs2 _ b Hwf1 Hne ltac:(congruence))
        as (st2 & b' & bs' & fl' & pre & mid & post & E2 & Hwf2 & M & _ & _ & _ & _ & _
            & _ & _ & _ & S9 & S10 & _).
      rewrite (S9 L1) in *. destruct (S10 L1 L2) as (-> & ->).
      exists st2, (k1 ++ k2). split; [exact E2|]. split; [exact Hwf2|].
      split.
      * eapply wf_same_nodes; [exact Hwf | exact Hwf2|].
        destruct M as (_ & -> & _). exact Es.
      * eapply same_meta_trans; eassumption.
    + destruct (place_split_frame st bs1 c bs2 k1 k2 b (adjusted_size n) Hwf Hne Eb
                  ltac:(apply Ha) Ha8 ltac:(lia)) as (Hwf1 & _).
      destruct (free_merges_back _ bs1 (adjusted_size n) (c - adjusted_size n) bs2 _ b fuel
                  Hwf1 Hne ltac:(congruence) L1) as (st2 & fl2 & E2 & Hwf2 & M).
      replace (adjusted_size n + (c - adjusted_size n)) with c in Hwf2 by lia.
      exists st2, fl2. split; [exact E2|]. split; [exact Hwf2|].
      split.
      * eapply wf_same_nodes; [exact Hwf | exact Hwf2|].
        destruct M as (_ & -> & _). exact Es.
      * eapply same_meta_trans; eassumption.
Qed.

Lemma malloc_then_free_restores_witness :
  exists st2 fl2,
    free 10 65640 (place 65640 112 st_three) = Ret st2 /\
    heap_wf st2 [(24, true); (24, true); (24, true); (24, true); (4024, false)]
            (65640 :: fl2) /\
    Permutation [65640] (65640 :: fl2) /\ same_meta st_three st2.
Proof.
  assert (E : malloc 10 100 st_three = Ret (65640, place 65640 112 st_three))
    by (vm_compute; reflexivity).
  apply (malloc_then_free_restores 10 100 st_three _ _ 65640 _ st_three_wf E
           ltac:(discriminate) ltac:(vm_compute; reflexivity)).
Defined.

(** * realloc and calloc when the allocation succeeds *)

(** X23.  realloc moves the data: let [p] be an allocated block of size [sz]
    of a well-formed heap and [n] a request in range whose adjusted size is
    not [sz].  When the malloc inside realloc returns a block [q], realloc
    returns [q]; the heap is well formed; [q] is an allocated block, other
    than [p], with room for [n] bytes; the first min(n, sz - 8) bytes of its
    payload are those of the payload of [p]; and every allocated block other
    than [p] is still allocated, with its header, payload and footer
    unchanged. *)
Theorem realloc_moves_data fuel st bs fl p sz n q st1 :
  heap_wf st bs fl -> block_at (mem_start st + DSIZE) bs p sz true ->
  0 < n <= 2 ^ 64 - 16 -> adjusted_size n <> sz ->
  malloc fuel n st = Ret (q, st1) -> q <> NULL ->
  exists st' bs' fl' sz',
    realloc fuel p n st = Ret (q, st') /\ heap_wf st' bs' fl' /\
    block_at (mem_start st' + DSIZE) bs' q sz' true /\ n + 8 <= sz' /\ q <> p /\
    (forall i, 0 <= i < Z.min n (sz - 8) -> mem st' (q + i) = mem st (p + i)) /\
    (forall r sr, block_at (mem_start st + DSIZE) bs r sr true -> r <> p ->
                  block_at (mem_start st' + DSIZE) bs' r sr true /\
                  forall y, r - 4 <= y < r + sr - 4 -> mem st' y = mem st y).
Proof.
  intros Hwf Hp Hn Hne Hm Hq.
  destruct (malloc_frame _ _ _ _ _ _ _ Hwf Hm Hq)
    as (bs1 & fl1 & sz' & Hwf1 & Hq1 & Hsz' & Es1 & Live1).
  pose proof (adjusted_size_room n Hn) as Hroom.
  destruct (Live1 p sz Hp) as (Hp1 & Hsep & Fp).
  set (len := if n <? sz then n else sz).
  set (st2 := set_mem st1 (memcpy (mem st1) q p len)).
  assert (Hlen : len = Z.min n sz).
  { unfold len. destruct (Z.ltb_spec n sz); lia. }
  assert (Hsz : MIN <= sz).
  { destruct Hp as (A & B & -> & _). pose proof (rep_sizes _ _ _ (proj1 Hwf)) as Hs.
    apply sizes_ok_app in Hs as (_ & Hs). apply Forall_inv in Hs. apply Hs. }
  unfold MIN in Hsz.
  assert (Hwf2 : heap_wf st2 bs1 fl1).
  { apply (heap_wf_payload_write st1 bs1 fl1 _ q sz' Hwf1 Hq1).
    intros y Hy. unfold memcpy.
    destruct (Z.leb_spec q y); destruct (Z.ltb_spec y (q + len)); cbn [andb];
      trivial; lia. }
  destruct (free_live fuel st2 bs1 fl1 p sz Hwf2 Hp1) as (st3 & bs3 & fl3 & Ef & Hwf3 & Live3).
  assert (Hqp : q <> p).
  { destruct Hq1 as (A & B & -> & Eq & _).
    pose proof (rep_sizes _ _ _ (proj1 Hwf1)) as Hs.
    apply sizes_ok_app in Hs as (_ & Hs). apply Forall_inv in Hs.
    cbn [fst] in Hs. unfold MIN in Hs. lia. }
  assert (Es3 : mem_start st3 = mem_start st1).
  { pose proof (free_meta fuel p st2 st3) as M. apply M; [|exact Ef].
    change (heap_listp st2) with (heap_listp st1).
    eapply rep_listp_nonnull. apply Hwf1. }
  change (mem_start st2) with (mem_start st1) in Live3.
  destruct (Live3 q sz' Hq1 Hqp) as (Hq3 & Fq).
  exists st3, bs3, fl3, sz'.
  split.
  { pose proof (block_at_nonnull _ _ _ _ _ _ (proj1 Hwf) Hp) as Hpn.
    destruct Hp as (A & B & -> & Eb & _).
    destruct (rep_block _ _ _ _ _ _ _ (proj1 Hwf) Eb) as (B1 & _).
    unfold realloc. destruct (Z.eqb_spec n 0); [lia|].
    destruct (Z.eqb_spec p NULL); [contradiction|].
    rewrite B1. destruct (Z.eqb_spec sz (adjusted_size n)); [congruence|].
    rewrite Hm. cbn [bind]. destruct (Z.eqb_spec q 0); [contradiction|].
    fold len. fold st2. rewrite Ef. reflexivity. }
  split; [exact Hwf3|]. split; [exact Hq3|]. split; [lia|]. split; [exact Hqp|].
  split.
  - intros i Hi. rewrite Fq by lia.
    unfold st2, memcpy. cbn [mem set_mem].
    destruct (Z.leb_spec q (q + i)); [|lia].
    destruct (Z.ltb_spec (q + i) (q + len)); [|lia]. cbn [andb].
    replace (p + (q + i - q)) with (p + i) by lia. apply Fp. lia.
  - intros r sr Hr Hrp.
    destruct (Live1 r sr Hr) as (Hr1 & Hsep' & Fr).
    rewrite Es3.
    destruct (Live3 r sr Hr1 Hrp) as (Hr3 & Fr3).
    rewrite Es3 in Hr3. split; [exact Hr3|].
    intros y Hy. rewrite Fr3 by assumption.
    unfold st2, memcpy. cbn [mem set_mem].
    assert (Hsr : MIN <= sr).
    { destruct Hr as (A & B & -> & _). pose proof (rep_sizes _ _ _ (proj1 Hwf)) as Hs.
      apply sizes_ok_app in Hs as (_ & Hs). apply Forall_inv in Hs. apply Hs. }
    unfold MIN in Hsr.
    destruct (Z.leb_spec q y); destruct (Z.ltb_spec y (q + len)); cbn [andb];
      try (apply Fr; assumption). lia.
Qed.

Lemma realloc_moves_data_witness :
  exists st' bs' fl' sz',
    realloc 10 65592 100 st_three = Ret (65640, st') /\ heap_wf st' bs' fl' /\
    block_at (mem_start st' + DSIZE) bs' 65640 sz' true /\ 100 + 8 <= sz' /\
    65640 <> 65592 /\
    (forall i, 0 <= i < Z.min 100 (24 - 8) -> mem st' (65640 + i) = mem st_three (65592 + i)) /\
    (forall r sr,
       block_at (mem_start st_three + DSIZE)
                [(24, true); (24, true); (24, true); (24, true); (4024, false)] r sr true ->
       r <> 65592 ->
       block_at (mem_start st' + DSIZE) bs' r sr true /\
       forall y, r - 4 <= y < r + sr - 4 -> mem st' y = mem st_three y).
Proof.
  assert (E : malloc 10 100 st_three = Ret (65640, place 65640 112 st_three))
    by (vm_compute; reflexivity).
  apply (realloc_moves_data 10 st_three _ _ 65592 24 100 65640 _ st_three_wf st_three_block
           ltac:(lia) ltac:(vm_compute; discriminate) E ltac:(discriminate)).
Defined.

(** X24.  The shortcuts of realloc, for an allocated block [p] of size [sz]
    of a well-formed heap: a size of 0 frees [p] and returns NULL; a null
    pointer with a non-zero size is malloc; and a request whose adjusted size
    is the size of the block returns [p] itself and changes nothing. *)
Theorem realloc_shortcut_cases fuel st bs fl p sz n :
  heap_wf st bs fl -> block_at (mem_start st + DSIZE) bs p sz true ->
  (exists st', free fuel p st = Ret st' /\ realloc fuel p 0 st = Ret (NULL, st')) /\
  (n <> 0 -> realloc fuel NULL n st = malloc fuel n st) /\
  (n <> 0 -> adjusted_size n = sz -> realloc fuel p n st = Ret (p, st)).
Proof.
  intros Hwf Hp. split; [|split].
  - destruct (free_wf fuel st bs fl p sz Hwf Hp) as (st' & _ & _ & E & _).
    exists st'. split; [exact E|]. unfold realloc. cbn [Z.eqb]. rewrite E. reflexivity.
  - intros Hn. unfold realloc. destruct (Z.eqb_spec n 0); [contradiction|]. reflexivity.
  - intros Hn Ha. pose proof (block_at_nonnull _ _ _ _ _ _ (proj1 Hwf) Hp) as Hpn.
    destruct Hp as (A & B & -> & Eb & _).
    destruct (rep_block _ _ _ _ _ _ _ (proj1 Hwf) Eb) as (B1 & _).
    unfold realloc. destruct (Z.eqb_spec n 0); [contradiction|].
    destruct (Z.eqb_spec p NULL); [contradiction|].
    rewrite B1, Ha, Z.eqb_refl. reflexivity.
Qed.

Lemma realloc_shortcut_cases_witness :
  (exists st', free 10 65592 st_three = Ret st' /\
               realloc 10 65592 0 st_three = Ret (NULL, st')) /\
  (10 <> 0 -> realloc 10 NULL 10 st_three = malloc 10 10 st_three) /\
  (10 <> 0 -> adjusted_size 10 = 24 -> realloc 10 65592 10 st_three = Ret (65592, st_three)).
Proof.
  exact (realloc_shortcut_cases 10 st_three _ _ 65592 24 10 st_three_wf st_three_block).
Defined.



(** * No operation shrinks the heap *)

Lemma extend_heap_grows fuel words st bp st' :
  extend_heap fuel words st = Ret (bp, st') ->
  mem_start st' = mem_start st /\ mem_max st' = mem_max st /\ mem_brk st <= mem_brk st'.
Proof.
  unfold extend_heap. set (size := ALIGN _). unfold mem_sbrk.
  destruct ((size <? 0) || (mem_max st <? mem_brk st + size)) eqn:C.
  - rewrite Z.eqb_refl. intros H. inversion H; subst. repeat split. lia.
  - apply orb_false_iff in C as (C & _). apply Z.ltb_ge in C.
    destruct (Z.eqb_spec (mem_brk st) PTR_ERR) as [E|E].
    { intros H. inversion H; subst. cbn. repeat split. lia. }
    set (st4 := put (HDRP (NEXT_BLKP _ _)) (PACK 0 1) _).
    destruct (coalesce _ st4) as [bp' st5] eqn:Ec.
    intros H. apply bind_ret_inv in H as (st7 & Hc & H). inversion H; subst.
    apply mm_checkheap_ret in Hc. subst st'.
    pose proof (same_meta_coalesce (mem_brk st) st4) as M. rewrite Ec in M.
    destruct M as (_ & M2 & M3 & M4 & _).
    destruct (same_meta_insert bp st5) as (_ & I2 & I3 & I4 & _).
    cbn [snd] in *. cbn [tick_checks mem_start mem_brk mem_max].
    rewrite I2, I3, I4, M2, M3, M4. cbn. repeat split. lia.
Qed.

Lemma heap_grows_refl st : heap_grows st st.
Proof. unfold heap_grows. repeat split. lia. Qed.

Lemma heap_grows_trans st1 st2 st3 :
  heap_grows st1 st2 -> heap_grows st2 st3 -> heap_grows st1 st3.
Proof. unfold heap_grows. intros (? & ? & ?) (? & ? & ?). repeat split; try congruence. lia. Qed.

Lemma heap_grows_meta st st' : same_meta st st' -> heap_grows st st'.
Proof. intros (_ & M2 & M3 & M4 & _). unfold heap_grows. repeat split; trivial. lia. Qed.

Lemma mm_init_grows fuel st r st' : mm_init fuel st = Ret (r, st') -> heap_grows st st'.
Proof.
  unfold mm_init, mem_sbrk.
  destruct ((8 * WSIZE <? 0) || (mem_max st <? mem_brk st + 8 * WSIZE)).
  - cbn. intros H. inversion H; subst. unfold heap_grows. cbn. repeat split. lia.
  - cbn [heap_listp set_heap_listp].
    destruct (Z.eqb_spec (mem_brk st) PTR_ERR).
    + intros H. inversion H; subst. unfold heap_grows. cbn. repeat split.
      change (8 * WSIZE) with 32. lia.
    + set (st9 := set_free_p _ NULL).
      intros H. apply bind_ret_inv in H as ([bp st10] & He & H).
      apply extend_heap_grows in He.
      assert (heap_grows st st').
      { destruct (bp =? NULL); inversion H; subst;
          (eapply heap_grows_trans; [|exact He]);
          unfold heap_grows; cbn; change (8 * WSIZE) with 32; repeat split; lia. }
      assumption.
Qed.

Lemma lazy_init_grows fuel st st' : lazy_init fuel st = Ret st' -> heap_grows st st'.
Proof.
  unfold lazy_init. destruct (heap_listp st =? 0).
  - intros H. apply bind_ret_inv in H as ([r st1] & Hi & H). inversion H; subst.
    eapply mm_init_grows; eassumption.
  - intros H. inversion H. apply heap_grows_refl.
Qed.

Lemma malloc_grows fuel n st p st' : malloc fuel n st = Ret (p, st') -> heap_grows st st'.
Proof.
  unfold malloc. intros H. apply bind_ret_inv in H as (st1 & Hi & H).
  apply lazy_init_grows in Hi. eapply heap_grows_trans; [exact Hi|]. cbv beta in H.
  destruct (n =? 0). { inversion H. apply heap_grows_refl. }
  apply bind_ret_inv in H as (b & _ & H). cbv beta in H.
  destruct (negb (b =? NULL)).
  - inversion H; subst. apply heap_grows_meta, same_meta_place.
  - apply bind_ret_inv in H as ([bp st2] & He & H).
    apply extend_heap_grows in He.
    destruct (bp =? NULL); inversion H; subst; [exact He|].
    eapply heap_grows_trans; [exact He|]. apply heap_grows_meta, same_meta_place.
Qed.

Lemma free_grows fuel bp st st' : free fuel bp st = Ret st' -> heap_grows st st'.
Proof.
  unfold free. destruct (bp =? 0). { intros H. inversion H. apply heap_grows_refl. }
  intros H. apply bind_ret_inv in H as (st1 & Hi & H).
  apply lazy_init_grows in Hi. eapply heap_grows_trans; [exact Hi|]. cbv beta zeta in H.
  destruct (coalesce _ _) as [bp' st3] eqn:E. inversion H; subst.
  apply heap_grows_meta.
  eapply same_meta_trans; [|apply same_meta_insert].
  change st3 with (snd (bp', st3)). rewrite <- E.
  eapply same_meta_trans; [|apply same_meta_coalesce].
  eapply same_meta_trans; apply same_meta_put.
Qed.

Lemma realloc_grows fuel ptr n st q st' :
  realloc fuel ptr n st = Ret (q, st') -> heap_grows st st'.
Proof.
  unfold realloc. destruct (n =? 0).
  { intros H. apply bind_ret_inv in H as (st1 & Hf & H). inversion H; subst.
    eapply free_grows; eassumption. }
  destruct (ptr =? NULL). { apply malloc_grows. }
  destruct (_ =? adjusted_size n). { intros H. inversion H. apply heap_grows_refl. }
  intros H. apply bind_ret_inv in H as ([newptr st1] & Hm & H).
  apply malloc_grows in Hm.
  destruct (newptr =? 0). { inversion H; subst. exact Hm. }
  apply bind_ret_inv in H as (st3 & Hf & H). inversion H; subst.
  apply free_grows in Hf. eapply heap_grows_trans; [exact Hm|]. exact Hf.
Qed.

Lemma calloc_grows fuel nmemb size st q st' :
  calloc fuel nmemb size st = Ret (q, st') -> heap_grows st st'.
Proof.
  unfold calloc. intros H. apply bind_ret_inv in H as ([newptr st1] & Hm & H).
  apply malloc_grows in Hm. inversion H; subst. exact Hm.
Qed.

(** X26.  No operation of the allocator gives memory back or moves the heap:
    whatever the state, when malloc, free, realloc or calloc returns, the
    start and the limit of the memlib heap are what they were and the end of
    the heap has not moved down. *)
Theorem heap_never_shrinks fuel st :
  (forall n p st', malloc fuel n st = Ret (p, st') -> heap_grows st st') /\
  (forall bp st', free fuel bp st = Ret st' -> heap_grows st st') /\
  (forall ptr n q st', realloc fuel ptr n st = Ret (q, st') -> heap_grows st st') /\
  (forall nmemb size q st', calloc fuel nmemb size st = Ret (q, st') -> heap_grows st st').
Proof.
  split; [|split; [|split]].
  - intros n p st'. apply malloc_grows.
  - intros bp st'. apply free_grows.
  - intros ptr n q st'. apply realloc_grows.
  - intros nmemb size q st'. apply calloc_grows.
Qed.

Lemma heap_never_shrinks_witness : heap_grows st0 st_one.
Proof.
  assert (E : malloc 10 16 st0 = Ret (65568, st_one)) by (vm_compute; reflexivity).
  exact (proj1 (heap_never_shrinks 10 st0) 16 65568 st_one E).
Defined.

(** * Freeing a block twice *)

Lemma find_fit_loop_cycle fuel m asize bp :
  bp <> NULL -> NEXT_FREE_BLOCK m bp = bp -> GET_SIZE m (HDRP bp) < asize ->
  find_fit_loop fuel m asize bp = OutOfFuel.
Proof.
  intros Hn Hc Hs. induction fuel as [|fuel IH]; [reflexivity|].
  cbn [find_fit_loop]. destruct (Z.eqb_spec bp NULL); [contradiction|].
  destruct (Z.leb_spec asize (GET_SIZE m (HDRP bp))); [lia|].
  rewrite Hc. exact IH.
Qed.

(** X27.  free does not test the allocated bit of the block it is given.
    Freeing twice a block whose two neighbours are allocated makes the block
    its own successor in the free list; a later malloc whose adjusted size is
    larger than the block then never returns: find_fit walks the cycle for
    ever (in the model it runs out of fuel, whatever the fuel). *)
Theorem double_free_hangs_malloc fuel st bs1 sz bs2 fl bp n :
  heap_wf st (bs1 ++ (sz, true) :: bs2) fl -> bs1 <> [] ->
  bp = mem_start st + DSIZE + total bs1 ->
  last_alloc bs1 = true -> head_alloc bs2 = true ->
  sz < adjusted_size n ->
  exists st1 st2,
    free fuel bp st = Ret st1 /\ free fuel bp st1 = Ret st2 /\
    free_p st2 = bp /\ NEXT_FREE_BLOCK (mem st2) bp = bp /\
    forall fuel', malloc fuel' n st2 = OutOfFuel.
Proof.
  intros Hwf Hne Hb L1 L2 Hn.
  destruct (free_frame fuel st bs1 sz bs2 fl bp Hwf Hne Hb)
    as (st1 & b' & bs' & fl' & pre & mid & post & E & Hwf1 & M & Hfl & S1 & S2 & S3 & S4
        & S5 & S6 & S7 & S9 & Hiso & F).
  destruct (Hiso L1 L2) as (-> & ->). rewrite (S9 L1) in *. clear S9 Hiso.
  exists st1. pose proof Hwf1 as (H1 & _).
  assert (Es : mem_start st1 = mem_start st) by apply M.
  assert (Hb1 : bp = mem_start st1 + DSIZE + total bs1) by congruence.
  destruct (rep_block _ _ _ _ _ _ _ H1 Hb1) as (B1 & _ & _ & _ & _ & _ & Hsz & Hsz8).
  pose proof (rep_size_bound _ _ _ H1) as Hbd. rewrite total_app in Hbd. cbn [total] in Hbd.
  pose proof (rep_sizes _ _ _ H1) as Hs.
  pose proof (sizes_total _ (proj1 (proj1 (sizes_ok_app _ _) Hs))) as Ht1.
  pose proof (sizes_total _ (Forall_inv_tail (proj2 (proj1 (sizes_ok_app _ _) Hs)))) as Ht2.
  pose proof (rep_start _ _ _ H1) as H0.
  assert (Hnn : bp <> NULL) by (unfold NULL, DSIZE in *; lia).
  assert (Hbp : 0 <= bp < 2 ^ 64).
  { pose proof (rep_brk _ _ _ H1) as Hk. rewrite total_app in Hk. cbn [total] in Hk.
    pose proof (rep_max _ _ _ H1). pose proof (rep_addr _ _ _ H1).
    unfold DSIZE, MIN in *. lia. }
  (* the second free *)
  change ((sz, false) :: bs2) with ([(sz, false)] ++ bs2) in H1.
  pose proof (rep_retag _ _ _ _ _ false bp sz H1 Hne ltac:(discriminate) Hb1
                ltac:(simpl; lia) (rep_sub _ _ _ H1)) as H2.
  cbn iota in H2.
  set (st2 := put _ _ (put _ _ st1)) in H2.
  pose proof (coalesce_none st2 bs1 sz bs2 _ bp H2 Hne Hb1 L1 L2) as Ec.
  assert (Ep : free_p st2 = bp).
  { pose proof (rep_list _ _ _ H2) as D. cbn [dlseg] in D. apply D. }
  assert (Ef : free fuel bp st1 = Ret (insert_free_block bp st2)).
  { unfold free. destruct (Z.eqb_spec bp 0); [contradiction|].
    rewrite lazy_init_done by (eapply rep_listp_nonnull; apply Hwf1). cbn [bind].
    rewrite B1. fold st2. rewrite Ec. reflexivity. }
  exists (insert_free_block bp st2). split; [exact E|]. split; [exact Ef|].
  assert (Ei : free_p (insert_free_block bp st2) = bp /\
               NEXT_FREE_BLOCK (mem (insert_free_block bp st2)) bp = bp /\
               GET_SIZE (mem (insert_free_block bp st2)) (HDRP bp) = sz).
  { unfold insert_free_block. rewrite Ep. destruct (Z.eqb_spec bp NULL); [contradiction|].
    cbn [free_p set_free_p mem set_mem]. rewrite ?Ep. split; [reflexivity|]. split.
    - apply next_set_next. exact Hbp.
    - destruct (rep_block _ _ _ _ _ _ _ H2 Hb1) as (B2 & _).
      rewrite <- B2. unfold GET_SIZE, GET, HDRP, WSIZE. f_equal.
      apply load4_ext. intros i Hi.
      unfold SET_NEXT_FREE_BLOCK, SET_PREV_FREE_BLOCK, DSIZE.
      rewrite !store8_out by lia. reflexivity. }
  destruct Ei as (Ei1 & Ei2 & Ei3).
  split; [exact Ei1|]. split; [exact Ei2|].
  intros fuel'. unfold malloc.
  rewrite lazy_init_done.
  2:{ destruct (same_meta_insert bp st2) as (I1 & _). rewrite I1.
      eapply rep_listp_nonnull. exact H2. }
  cbn [bind].
  destruct (Z.eqb_spec n 0) as [->|_].
  { exfalso. change (adjusted_size 0) with 24 in Hn. unfold MIN in *. lia. }
  unfold find_fit. rewrite Ei1.
  rewrite find_fit_loop_cycle; trivial. lia.
Qed.

Lemma double_free_hangs_malloc_witness :
  exists st1 st2,
    free 10 65592 st_three = Ret st1 /\ free 10 65592 st1 = Ret st2 /\
    free_p st2 = 65592 /\ NEXT_FREE_BLOCK (mem st2) 65592 = 65592 /\
    forall fuel', malloc fuel' 100 st2 = OutOfFuel.
Proof.
  apply (double_free_hangs_malloc 10 st_three [(24, true); (24, true)] 24
           [(24, true); (4024, false)] [65640] 65592 100 st_three_wf).
  - discriminate.
  - reflexivity.
  - reflexivity.
  - reflexivity.
  - vm_compute. reflexivity.
Defined.
